(** * FlexConveyorSystem: a shallow embedding of [src/flexconveyor_system.py]

    The development follows the Python class [FlexConveyorSystem] method by
    method.  The instance ([self]) is a record, every method is a computation
    in a small state-and-exception monad over that record, Python's
    insertion-ordered dictionaries that the code iterates over are
    association lists with unique keys, and the dictionaries local to
    [find_path] (never iterated) are finite maps. *)

From Stdlib Require Import Ascii String.
From stdpp Require Import gmap strings list fin_maps pretty.

Open Scope string_scope.
Open Scope list_scope.
Open Scope nat_scope.

(** ** Python dictionaries (insertion ordered) *)

Module PyDict.

Definition dict (V : Type) : Type := list (string * V).

Section Ops.
Context {V : Type}.

(** [d.get(k)] *)
Fixpoint get (k : string) (d : dict V) : option V :=
  match d with
  | [] => None
  | (k', v) :: d' => if decide (k' = k) then Some v else get k d'
  end.

(** [d[k] = v]: an existing key keeps its place, a new one goes last. *)
Fixpoint set (k : string) (v : V) (d : dict V) : dict V :=
  match d with
  | [] => [(k, v)]
  | (k', v') :: d' =>
      if decide (k' = k) then (k, v) :: d' else (k', v') :: set k v d'
  end.

(** [del d[k]] *)
Fixpoint del (k : string) (d : dict V) : dict V :=
  match d with
  | [] => []
  | (k', v') :: d' =>
      if decide (k' = k) then d' else (k', v') :: del k d'
  end.

Definition keys (d : dict V) : list string := d.*1.

(** [k in d] *)
Definition mem (k : string) (d : dict V) : bool :=
  bool_decide (is_Some (get k d)).

(** The invariant of a Python dictionary: no key occurs twice. *)
Definition wf (d : dict V) : Prop := NoDup (keys d).
End Ops.

End PyDict.

Abbreviation dict := PyDict.dict.

(** ** Vocabulary of the ontology *)

Module Vocab.
Definition ns : string := "https://www.sfb1574.kit.edu/ontologies/FlexConveyor#".
Definition hasPossession : string := ns +:+ "hasPossession".
Definition isPossessedBy : string := ns +:+ "isPossessedBy".
Definition hasDestination : string := ns +:+ "hasDestination".
Definition containsFlexConveyorModule : string :=
  ns +:+ "containsFlexConveyorModule".
Definition hasNorthConnection : string := ns +:+ "hasNorthConnection".
Definition hasEastConnection : string := ns +:+ "hasEastConnection".
Definition hasSouthConnection : string := ns +:+ "hasSouthConnection".
Definition hasWestConnection : string := ns +:+ "hasWestConnection".
Definition Parcel : string := ns +:+ "Parcel".
Definition rdf_type : string :=
  "http://www.w3.org/1999/02/22-rdf-syntax-ns#type".
Definition NamedIndividual : string :=
  "http://www.w3.org/2002/07/owl#NamedIndividual".
End Vocab.

(** ** Exceptions, log records, printed lines *)

Inductive Direction := NORTH | EAST | SOUTH | WEST.

(** The four direction names, in the order of the [directions] list of
    [convey] and of the slots of an adjacency entry. *)
Definition directions : list Direction := [NORTH; EAST; SOUTH; WEST].

Inductive store_error :=
| ConnectivityError
| PreconditionError.

(** The three [ValueError]s the class raises, by message template. *)
Inductive value_error :=
| ModuleNotFound (module : string)
| NoValidDirection (current_module next_module : string)
| ParcelNotFound (parcel : string).

Inductive exn :=
| ValueError (v : value_error)
| KeyError (key : string)
| IndexError
| StoreError (e : store_error).

(** The f-strings handed to [logging], by template and arguments. *)
Inductive message :=
| MsgInitialized (system : string)
| MsgReachedDestination (short_parcel short_position : string)
| MsgDeleting (parcel : string)
| MsgDeleted (short_parcel : string)
| MsgFailedToDelete (parcel : string) (e : exn)
| MsgBuiltAdjacency (n : nat)
| MsgConveying (current_module next_module : string)
| MsgParcelInfo (info : option (string * option string))
| MsgRaised (v : value_error)
| MsgConveyInto (short_parcel : string) (d : Direction)
| MsgConveyError (e : exn)
| MsgUpdateResult (r : bool)
| MsgAddParcelError (e : exn).

Inductive log_record :=
| LogInfo (m : message)
| LogError (m : message).

Inductive print_line :=
| PrintAdjacencyHeader
| PrintAdjacencyFormat
| PrintAdjacencyRow (module : string) (conns : list (option string))
| PrintStartNotFound (start : string)
| PrintTargetNotFound (target : string)
| PrintNoPath (start target : string)
| PrintPathFound (distance : nat) (modules : nat).

#[global] Instance Direction_eq_dec : EqDecision Direction.
Proof. solve_decision. Defined.
#[global] Instance store_error_eq_dec : EqDecision store_error.
Proof. solve_decision. Defined.
#[global] Instance value_error_eq_dec : EqDecision value_error.
Proof. solve_decision. Defined.
#[global] Instance exn_eq_dec : EqDecision exn.
Proof. solve_decision. Defined.
#[global] Instance message_eq_dec : EqDecision message.
Proof. solve_decision. Defined.
#[global] Instance log_record_eq_dec : EqDecision log_record.
Proof. solve_decision. Defined.
#[global] Instance print_line_eq_dec : EqDecision print_line.
Proof. solve_decision. Defined.

(** ** The store client *)

Definition triple : Type := string * string * string.

Definition t_sub (t : triple) : string := t.1.1.
Definition t_pred (t : triple) : string := t.1.2.
Definition t_obj (t : triple) : string := t.2.

Inductive request :=
| ReqQuery (s p : string)
| ReqGet (s p o : option string)
| ReqAdd (ts : list triple)
| ReqDelete (ts : list triple)
| ReqUpdate (old new : list triple) (check_exist : bool).

#[global] Instance request_eq_dec : EqDecision request.
Proof. solve_decision. Defined.

(** A component of a row the client hands over: a Python [str], or a value
    of another type (a number). *)
Inductive value :=
| Str (s : string)
| Num (n : Z).

(** A row of an answer of [triples_get]: a Python tuple or list of
    components. *)
Inductive row :=
| Tuple (items : list value)
| List (items : list value).

#[global] Instance value_eq_dec : EqDecision value.
Proof. solve_decision. Defined.
#[global] Instance row_eq_dec : EqDecision row.
Proof. solve_decision. Defined.

(** A fact whose object is a literal that the client hands over as a value
    other than [str]: a number.  Its predicate is a datatype property of
    the ontology. *)
Record literal_fact := {
  lit_sub : string;
  lit_property : string;
  lit_value : Z
}.

#[global] Instance literal_fact_eq_dec : EqDecision literal_fact.
Proof. solve_decision. Defined.

(** Modelled from the spec: the package [graph_db_interface] (class
    [GraphDB]) is an external dependency and is not part of the sources.
    The store is the set of facts it holds, kept in insertion order; every
    request is written to [journal]; [outages] is the environment's schedule
    of connectivity failures, one entry consumed per request ([true]: the
    request fails with a connectivity error and changes nothing).
    [triples] are the facts among identifiers, which are opaque strings;
    [literals] are the facts with a literal object that is not a string.
    The predicates of the class's vocabulary relate identifiers (modules,
    systems, parcels and their types): no literal fact carries one of
    them. *)
Record GraphDB := {
  triples : list triple;
  literals : list literal_fact;
  outages : list bool;
  journal : list request
}.

Definition is_mutation (r : request) : bool :=
  match r with
  | ReqQuery _ _ | ReqGet _ _ _ => false
  | _ => true
  end.

(** An argument left out of [triples_get] binds nothing. *)
Definition binds (arg : option string) (v : string) : bool :=
  match arg with
  | None => true
  | Some x => bool_decide (v = x)
  end.

Definition matches (s p o : option string) (t : triple) : bool :=
  binds s (t_sub t) && binds p (t_pred t) && binds o (t_obj t).

(** The facts selected by a pattern, in store order. *)
Definition select (s p o : option string) (ts : list triple) : list triple :=
  filter (λ t : triple, matches s p o t = true) ts.

(** Insert a batch of facts; a fact already present is not added twice. *)
Definition insert_facts (new ts : list triple) : list triple :=
  foldl (λ (acc : list triple) (t : triple),
           if decide (t ∈ acc) then acc else acc ++ [t]) ts new.

(** Delete a batch of facts. *)
Definition remove_facts (old ts : list triple) : list triple :=
  filter (λ t : triple, t ∉ old) ts.

(** ** The instance and its monad *)

Record parcel_info := {
  current_position : string;
  destination : option string
}.

#[global] Instance parcel_info_eq_dec : EqDecision parcel_info.
Proof. solve_decision. Defined.

Record FlexConveyorSystem := {
  system_iri : string;
  db : GraphDB;
  parcels : dict parcel_info;
  adjacency_matrix : dict (list (option string));
  parcel_counter : nat;
  (** what the process has written to the log file and to standard output *)
  log : list log_record;
  stdout : list print_line
}.

(** How a call ends.  [OutOfFuel] marks a loop of the model that was cut
    short; [find_path_terminates] shows no method ever ends that way. *)
Inductive outcome (A : Type) :=
| Returned (a : A)
| Raised (e : exn)
| OutOfFuel.
Arguments Returned {A} a.
Arguments Raised {A} e.
Arguments OutOfFuel {A}.

Definition M (A : Type) : Type :=
  FlexConveyorSystem → outcome A * FlexConveyorSystem.

Definition ret {A} (a : A) : M A := λ self, (Returned a, self).

Definition bind {A B} (c : M A) (k : A → M B) : M B :=
  λ self,
    match c self with
    | (Returned a, self') => k a self'
    | (Raised e, self') => (Raised e, self')
    | (OutOfFuel, self') => (OutOfFuel, self')
    end.

Definition raise {A} (e : exn) : M A := λ self, (Raised e, self).

(** [try: body / except Exception as e: handler e] *)
Definition try_except {A} (body : M A) (handler : exn → M A) : M A :=
  λ self,
    match body self with
    | (Raised e, self') => handler e self'
    | r => r
    end.

Notation "x <- c ;; k" := (bind c (λ x, k))
  (at level 100, c at next level, right associativity).
Notation "c ;;; k" := (bind c (λ _, k))
  (at level 100, right associativity).

Definition read {A} (f : FlexConveyorSystem → A) : M A :=
  λ self, (Returned (f self), self).

(** Assignments to the attributes of [self]. *)
Definition with_db (d : GraphDB) (self : FlexConveyorSystem)
    : FlexConveyorSystem :=
  {| system_iri := system_iri self; db := d; parcels := parcels self;
     adjacency_matrix := adjacency_matrix self;
     parcel_counter := parcel_counter self;
     log := log self; stdout := stdout self |}.

Definition with_parcels (ps : dict parcel_info) (self : FlexConveyorSystem)
    : FlexConveyorSystem :=
  {| system_iri := system_iri self; db := db self; parcels := ps;
     adjacency_matrix := adjacency_matrix self;
     parcel_counter := parcel_counter self;
     log := log self; stdout := stdout self |}.

Definition with_adjacency_matrix (adj : dict (list (option string)))
    (self : FlexConveyorSystem) : FlexConveyorSystem :=
  {| system_iri := system_iri self; db := db self; parcels := parcels self;
     adjacency_matrix := adj;
     parcel_counter := parcel_counter self;
     log := log self; stdout := stdout self |}.

Definition with_parcel_counter (n : nat) (self : FlexConveyorSystem)
    : FlexConveyorSystem :=
  {| system_iri := system_iri self; db := db self; parcels := parcels self;
     adjacency_matrix := adjacency_matrix self;
     parcel_counter := n;
     log := log self; stdout := stdout self |}.

Definition with_log (l : list log_record) (self : FlexConveyorSystem)
    : FlexConveyorSystem :=
  {| system_iri := system_iri self; db := db self; parcels := parcels self;
     adjacency_matrix := adjacency_matrix self;
     parcel_counter := parcel_counter self;
     log := l; stdout := stdout self |}.

Definition with_stdout (l : list print_line) (self : FlexConveyorSystem)
    : FlexConveyorSystem :=
  {| system_iri := system_iri self; db := db self; parcels := parcels self;
     adjacency_matrix := adjacency_matrix self;
     parcel_counter := parcel_counter self;
     log := log self; stdout := l |}.

Definition set_db (d : GraphDB) : M unit :=
  λ self, (Returned tt, with_db d self).

Definition set_parcels (ps : dict parcel_info) : M unit :=
  λ self, (Returned tt, with_parcels ps self).

Definition set_adjacency_matrix (adj : dict (list (option string))) : M unit :=
  λ self, (Returned tt, with_adjacency_matrix adj self).

Definition set_parcel_counter (n : nat) : M unit :=
  λ self, (Returned tt, with_parcel_counter n self).

Definition logging (r : log_record) : M unit :=
  λ self, (Returned tt, with_log (log self ++ [r]) self).

Definition print (l : print_line) : M unit :=
  λ self, (Returned tt, with_stdout (stdout self ++ [l]) self).

Definition logging_info (m : message) : M unit := logging (LogInfo m).
Definition logging_error (m : message) : M unit := logging (LogError m).

(** [for x in l: body x] *)
Fixpoint for_each {A} (l : list A) (body : A → M unit) : M unit :=
  match l with
  | [] => ret tt
  | x :: l' => body x ;;; for_each l' body
  end.

(** *** Requests to the store *)

(** Every call of the client journals the request and consumes one entry of
    the outage schedule. *)
Definition received (r : request) (d : GraphDB) : GraphDB :=
  {| triples := triples d; literals := literals d;
     outages := tail (outages d); journal := journal d ++ [r] |}.

Definition send (r : request) : M unit :=
  d <- read db ;;
  set_db (received r d) ;;;
  match head (outages d) with
  | Some true => raise (StoreError ConnectivityError)
  | _ => ret tt
  end.

Definition set_triples (ts : list triple) : M unit :=
  d <- read db ;;
  set_db {| triples := ts; literals := literals d;
            outages := outages d; journal := journal d |}.

(** The row the client hands over for a fact among identifiers, and for a
    fact with a literal object. *)
Definition as_row (t : triple) : row :=
  Tuple [Str (t_sub t); Str (t_pred t); Str (t_obj t)].

Definition literal_row (l : literal_fact) : row :=
  Tuple [Str (lit_sub l); Str (lit_property l); Num (lit_value l)].

(** The literal facts selected by a pattern: a bound object is an
    identifier and selects none of them. *)
Definition select_literals (s p o : option string) (ls : list literal_fact)
    : list literal_fact :=
  filter (λ l : literal_fact,
            binds s (lit_sub l) && binds p (lit_property l) &&
            bool_decide (o = None) = true) ls.

(** Modelled from the spec: [factsGet(subject?, predicate?, object?)]: the
    rows of the facts that match, as the client hands them over, the facts
    among identifiers first. *)
Definition triples_get_rows (s p o : option string) : M (list row) :=
  send (ReqGet s p o) ;;;
  d <- read db ;;
  ret ((as_row <$> select s p o (triples d)) ++
       (literal_row <$> select_literals s p o (literals d))).

(** Modelled from the spec: [factsGet(subject?, predicate?, object?)] where
    the class binds a predicate of its vocabulary: no literal fact matches,
    every row is a tuple of three strings, and the answer is given as the
    triples themselves. *)
Definition triples_get (s p o : option string) : M (list triple) :=
  send (ReqGet s p o) ;;;
  d <- read db ;;
  ret (select s p o (triples d)).

(** Modelled from the spec: [query(pattern)] for the only pattern the class
    sends, [SELECT ?o WHERE { <s> <p> ?o . }]; the answer is the list of
    bindings of [?o]. *)
Definition query (s p : string) : M (list string) :=
  send (ReqQuery s p) ;;;
  d <- read db ;;
  ret (t_obj <$> select (Some s) (Some p) None (triples d)).

(** Modelled from the spec: [factsAdd(triples)]. *)
Definition triples_add (triples_to_add : list triple) : M bool :=
  send (ReqAdd triples_to_add) ;;;
  d <- read db ;;
  set_triples (insert_facts triples_to_add (triples d)) ;;;
  ret true.

(** Modelled from the spec: [factsDelete(triples)]. *)
Definition triples_delete (triples_to_delete : list triple) : M bool :=
  send (ReqDelete triples_to_delete) ;;;
  d <- read db ;;
  set_triples (remove_facts triples_to_delete (triples d)) ;;;
  ret true.

(** Modelled from the spec: [factsUpdate(oldTriples, newTriples, checkExist)]:
    with [checkExist], a missing old fact is a precondition error and the
    store is left as it was; otherwise the old facts are replaced by the new
    ones in one step. *)
Definition triples_update (old_triples new_triples : list triple)
    (check_exist : bool) : M bool :=
  send (ReqUpdate old_triples new_triples check_exist) ;;;
  d <- read db ;;
  if check_exist && negb (bool_decide (Forall (λ t : triple, t ∈ triples d) old_triples))
  then raise (StoreError PreconditionError)
  else
    set_triples (insert_facts new_triples (remove_facts old_triples (triples d))) ;;;
    ret true.

(** ** The methods of [FlexConveyorSystem] *)

(** [sep in s] for a one-character separator *)
Fixpoint contains (sep : ascii) (s : string) : bool :=
  match s with
  | EmptyString => false
  | String a s' => bool_decide (a = sep) || contains sep s'
  end.

(** [s.split(sep)[-1]]: what follows the last [sep], all of [s] without one *)
Fixpoint after_last (sep : ascii) (s : string) : string :=
  match s with
  | EmptyString => EmptyString
  | String a s' =>
      if contains sep s' then after_last sep s'
      else if decide (a = sep) then s' else String a s'
  end.

Definition _shorten_iri (iri : string) : string :=
  if contains "#"%char iri then after_last "#"%char iri
  else after_last "/"%char iri.

(** The filter of the two loops of [delete_parcel]:
    [isinstance(triple, tuple) and len(triple) == 3 and
     all(isinstance(x, str) for x in triple)]. *)
Definition str_triple (r : row) : option triple :=
  match r with
  | Tuple [Str s; Str p; Str o] => Some (s, p, o)
  | _ => None
  end.

Definition delete_parcel (parcel_iri : string) : M unit :=
  subject_triples <- triples_get_rows (Some parcel_iri) None None ;;
  object_triples <- triples_get_rows None None (Some parcel_iri) ;;
  let triples_to_delete :=
    omap str_triple subject_triples ++ omap str_triple object_triples in
  match triples_to_delete with
  | [] =>
      logging_error (MsgRaised (ParcelNotFound parcel_iri)) ;;;
      raise (ValueError (ParcelNotFound parcel_iri))
  | _ :: _ =>
      triples_delete triples_to_delete ;;;
      ret tt
  end.

(** [info["current_position"] == info["destination"]] *)
Definition arrived (info : parcel_info) : bool :=
  bool_decide (destination info = Some (current_position info)).

(** Body of the first loop of [get_parcels]. *)
Definition record_parcel (module : string) : M unit :=
  parcel_triples <- triples_get (Some module) (Some Vocab.hasPossession) None ;;
  match parcel_triples with
  | [] => ret tt
  | t :: _ =>
      let parcel_iri := t_obj t in
      dest_triples <-
        triples_get (Some parcel_iri) (Some Vocab.hasDestination) None ;;
      let destination_iri := t_obj <$> head dest_triples in
      ps <- read parcels ;;
      set_parcels
        (PyDict.set parcel_iri
           {| current_position := module; destination := destination_iri |}
           ps)
  end.

(** Second loop of [get_parcels]: the parcels that have arrived, in the order
    of the dictionary. *)
Fixpoint collect_arrived (items : list (string * parcel_info))
    : M (list string) :=
  match items with
  | [] => ret []
  | (parcel_iri, info) :: rest =>
      if arrived info then
        logging_info
          (MsgReachedDestination (_shorten_iri parcel_iri)
             (_shorten_iri (current_position info))) ;;;
        l <- collect_arrived rest ;;
        ret (parcel_iri :: l)
      else collect_arrived rest
  end.

(** Body of the third loop of [get_parcels]. *)
Definition cleanup_parcel (parcel_iri : string) : M unit :=
  logging_info (MsgDeleting parcel_iri) ;;;
  try_except
    (delete_parcel parcel_iri ;;;
     logging_info (MsgDeleted (_shorten_iri parcel_iri)) ;;;
     ps <- read parcels ;;
     if PyDict.mem parcel_iri ps
     then set_parcels (PyDict.del parcel_iri ps)
     else ret tt)
    (λ e, logging_error (MsgFailedToDelete parcel_iri e)).

Definition get_parcels : M (dict parcel_info) :=
  set_parcels [] ;;;
  adj <- read adjacency_matrix ;;
  for_each (PyDict.keys adj) record_parcel ;;;
  ps <- read parcels ;;
  parcels_to_delete <- collect_arrived ps ;;
  for_each parcels_to_delete cleanup_parcel ;;;
  read parcels.

(** The [connections] table of [build_adjacency_matrix]. *)
Definition connection_property (d : Direction) : string :=
  match d with
  | NORTH => Vocab.hasNorthConnection
  | EAST => Vocab.hasEastConnection
  | SOUTH => Vocab.hasSouthConnection
  | WEST => Vocab.hasWestConnection
  end.

(** The inner loop of [build_adjacency_matrix]: one query per direction, the
    first binding or [None]. *)
Fixpoint query_connections (module : string) (ds : list Direction)
    : M (list (option string)) :=
  match ds with
  | [] => ret []
  | d :: ds' =>
      bindings <- query module (connection_property d) ;;
      rest <- query_connections module ds' ;;
      ret (head bindings :: rest)
  end.

Fixpoint build_adjacency_dict (modules_queried : list string)
    (adjacency_dict : dict (list (option string)))
    : M (dict (list (option string))) :=
  match modules_queried with
  | [] => ret adjacency_dict
  | module :: rest =>
      connections_list <- query_connections module directions ;;
      build_adjacency_dict rest
        (PyDict.set module connections_list adjacency_dict)
  end.

Definition build_adjacency_matrix : M unit :=
  sys <- read system_iri ;;
  modules_queried <- query sys Vocab.containsFlexConveyorModule ;;
  adjacency_dict <- build_adjacency_dict modules_queried [] ;;
  set_adjacency_matrix adjacency_dict ;;;
  logging_info (MsgBuiltAdjacency (length adjacency_dict)) ;;;
  print PrintAdjacencyHeader ;;;
  print PrintAdjacencyFormat ;;;
  for_each adjacency_dict (λ row, print (PrintAdjacencyRow row.1 row.2)).

(** The [for idx, target in enumerate(connections)] loop of [convey]: the
    index of the first slot that holds [next_module_iri]. *)
Fixpoint first_slot (connections : list (option string))
    (next_module_iri : string) (idx : nat) : option nat :=
  match connections with
  | [] => None
  | target :: rest =>
      if decide (target = Some next_module_iri) then Some idx
      else first_slot rest next_module_iri (S idx)
  end.

Definition possession_facts (module parcel_iri : string) : list triple :=
  [ (module, Vocab.hasPossession, parcel_iri);
    (parcel_iri, Vocab.isPossessedBy, module) ].

Definition convey (current_module next_module_iri : string)
    : M (bool * message) :=
  logging_info (MsgConveying current_module next_module_iri) ;;;
  parcel_iri_list <-
    triples_get (Some current_module) (Some Vocab.hasPossession) None ;;
  let parcel_iri := from_option t_obj EmptyString (head parcel_iri_list) in
  ps <- read parcels ;;
  let parcel := PyDict.get parcel_iri ps in
  logging_info
    (MsgParcelInfo ((λ i, (current_position i, destination i)) <$> parcel)) ;;;
  adj <- read adjacency_matrix ;;
  match PyDict.get current_module adj with
  | None =>
      logging_error (MsgRaised (ModuleNotFound current_module)) ;;;
      raise (ValueError (ModuleNotFound current_module))
  | Some connections =>
      match first_slot connections next_module_iri 0 with
      | None =>
          logging_error
            (MsgRaised (NoValidDirection current_module next_module_iri)) ;;;
          raise (ValueError (NoValidDirection current_module next_module_iri))
      | Some idx =>
          match directions !! idx with
          | None => raise IndexError
          | Some direction =>
              let log_msg :=
                MsgConveyInto (_shorten_iri parcel_iri) direction in
              logging_info log_msg ;;;
              let triples_to_delete :=
                possession_facts current_module parcel_iri in
              let triples_to_insert :=
                possession_facts next_module_iri parcel_iri in
              result <-
                try_except
                  (triples_update triples_to_delete triples_to_insert true)
                  (λ e, logging_error (MsgConveyError e) ;;; raise e) ;;
              logging_info (MsgUpdateResult result) ;;;
              ret (result, log_msg)
          end
      end
  end.

(** The identifier [add_parcel] mints from the counter. *)
Definition parcel_name (counter : nat) : string :=
  Vocab.ns +:+ "parcel" +:+ pretty (counter + 1).

Definition add_parcel (destination_iri start_module_iri : string) : M unit :=
  counter <- read parcel_counter ;;
  let parcel_iri := parcel_name counter in
  let triples_to_insert : list triple :=
    [ (parcel_iri, Vocab.rdf_type, Vocab.Parcel);
      (parcel_iri, Vocab.rdf_type, Vocab.NamedIndividual);
      (parcel_iri, Vocab.hasDestination, destination_iri);
      (parcel_iri, Vocab.isPossessedBy, start_module_iri);
      (start_module_iri, Vocab.hasPossession, parcel_iri) ] in
  try_except
    (triples_add triples_to_insert ;;;
     counter <- read parcel_counter ;;
     set_parcel_counter (counter + 1) ;;;
     get_parcels ;;;
     ret tt)
    (λ e, logging_error (MsgAddParcelError e) ;;; raise e).

(** The instance on entry to [__init__], connected to [store]. *)
Definition fresh_instance (system : string) (store : GraphDB)
    : FlexConveyorSystem :=
  {| system_iri := system; db := store; parcels := [];
     adjacency_matrix := []; parcel_counter := 0;
     log := []; stdout := [] |}.

(** [__init__] *)
Definition init (system : string) (store : GraphDB)
    : outcome unit * FlexConveyorSystem :=
  (build_adjacency_matrix ;;;
   get_parcels ;;;
   ps <- read parcels ;;
   set_parcel_counter (length ps) ;;;
   logging_info (MsgInitialized system))
    (fresh_instance system store).

(** ** [find_path] *)

(** A value of the [distances] dictionary: an [int], or [float("infinity")]. *)
Inductive distance :=
| Finite (n : nat)
| Infinity.

(** [n < d] for an [int] [n] *)
Definition lt_distance (n : nat) (d : distance) : bool :=
  match d with
  | Finite m => bool_decide (n < m)
  | Infinity => true
  end.

Definition entry : Type := nat * string.

(** Python's order on the tuples [(distance, module)]. *)
Definition entry_lt (a b : entry) : bool :=
  bool_decide (a.1 < b.1) || (bool_decide (a.1 = b.1) && String.ltb a.2 b.2).

(** [heapq] is Python's library; the order of its tuples is total, so which
    entry [heappop] returns and which entries stay do not depend on the
    layout of the heap.  The queue is kept as the list of its entries. *)
Definition heappush (pq : list entry) (e : entry) : list entry := pq ++ [e].

Fixpoint smallest (best : entry) (pq : list entry) : entry :=
  match pq with
  | [] => best
  | e :: pq' => if entry_lt e best then smallest e pq' else smallest best pq'
  end.

Fixpoint remove_first (e : entry) (pq : list entry) : list entry :=
  match pq with
  | [] => []
  | e' :: pq' => if decide (e' = e) then pq' else e' :: remove_first e pq'
  end.

Definition heappop (pq : list entry) : option (entry * list entry) :=
  match pq with
  | [] => None
  | e :: pq' => let m := smallest e pq' in Some (m, remove_first m pq)
  end.

(** The local variables of the search loop. *)
Record search := {
  distances : gmap string distance;
  previous : gmap string (option string);
  pq : list entry;
  visited : gset string
}.

(** The edge list [graph[module_id]] built from one adjacency entry. *)
Definition neighbours (connections : list (option string))
    : list (string * nat) :=
  omap (λ connected_module : option string,
          (λ m, (m, 1)) <$> connected_module) connections.

Definition build_graph (adj : dict (list (option string)))
    : gmap string (list (string * nat)) :=
  foldl (λ graph (item : string * list (option string)),
           <[item.1 := neighbours item.2]> graph) ∅ adj.

(** Body of [for neighbor, weight in graph.get(current_module, [])]. *)
Definition relax (current_distance : nat) (current_module : string)
    (s : search) (edge : string * nat) : outcome search :=
  let neighbor := edge.1 in
  let weight := edge.2 in
  if decide (neighbor ∈ visited s) then Returned s
  else
    let distance := current_distance + weight in
    match distances s !! neighbor with
    | None => Raised (KeyError neighbor)
    | Some known =>
        if lt_distance distance known then
          Returned
            {| distances := <[neighbor := Finite distance]> (distances s);
               previous := <[neighbor := Some current_module]> (previous s);
               pq := heappush (pq s) (distance, neighbor);
               visited := visited s |}
        else Returned s
    end.

Fixpoint relax_all (current_distance : nat) (current_module : string)
    (edges : list (string * nat)) (s : search) : outcome search :=
  match edges with
  | [] => Returned s
  | edge :: rest =>
      match relax current_distance current_module s edge with
      | Returned s' => relax_all current_distance current_module rest s'
      | r => r
      end
  end.

(** The [while pq:] loop; [fuel] bounds the number of iterations. *)
Fixpoint dijkstra (fuel : nat) (graph : gmap string (list (string * nat)))
    (target_module_iri : string) (s : search) : outcome search :=
  match fuel with
  | 0 => OutOfFuel
  | S fuel' =>
      match heappop (pq s) with
      | None => Returned s
      | Some ((current_distance, current_module), pq') =>
          if decide (current_module ∈ visited s) then
            dijkstra fuel' graph target_module_iri
              {| distances := distances s; previous := previous s;
                 pq := pq'; visited := visited s |}
          else
            let s1 :=
              {| distances := distances s; previous := previous s;
                 pq := pq'; visited := {[current_module]} ∪ visited s |} in
            if decide (current_module = target_module_iri) then Returned s1
            else
              match relax_all current_distance current_module
                      (default [] (graph !! current_module)) s1 with
              | Returned s2 => dijkstra fuel' graph target_module_iri s2
              | r => r
              end
      end
  end.

(** The [while current is not None:] loop; the path comes out target first. *)
Fixpoint walk_back (fuel : nat) (previous : gmap string (option string))
    (current : option string) (path : list string) : outcome (list string) :=
  match current with
  | None => Returned path
  | Some c =>
      match fuel with
      | 0 => OutOfFuel
      | S fuel' =>
          match previous !! c with
          | None => Raised (KeyError c)
          | Some p => walk_back fuel' previous p (path ++ [c])
          end
      end
  end.

(** Iterations granted to the search loop: every iteration pops an entry,
    and an entry is pushed only while the edges of a newly visited module are
    scanned. *)
Definition search_fuel (graph : gmap string (list (string * nat))) : nat :=
  2 + sum_list ((λ kv : string * list (string * nat), S (length kv.2))
                  <$> map_to_list graph).

Definition lift {A} (o : outcome A) : M A := λ self, (o, self).

Definition find_path (start_module_iri target_module_iri : string)
    : M (option (list string)) :=
  adj <- read adjacency_matrix ;;
  let graph := build_graph adj in
  let modules := PyDict.keys adj in
  if decide (start_module_iri ∈ modules) then
    if decide (target_module_iri ∈ modules) then
      if decide (start_module_iri = target_module_iri) then
        ret (Some [start_module_iri])
      else
        let s0 :=
          {| distances :=
               <[start_module_iri := Finite 0]>
                 (list_to_map ((λ m, (m, Infinity)) <$> modules));
             previous := list_to_map ((λ m, (m, None)) <$> modules);
             pq := [(0, start_module_iri)];
             visited := ∅ |} in
        s <- lift (dijkstra (search_fuel graph) graph target_module_iri s0) ;;
        match distances s !! target_module_iri with
        | None => raise (KeyError target_module_iri)
        | Some Infinity =>
            print (PrintNoPath start_module_iri target_module_iri) ;;;
            ret None
        | Some (Finite d) =>
            path <- lift (walk_back (S d) (previous s)
                            (Some target_module_iri) []) ;;
            let path := reverse path in
            print (PrintPathFound d (length path)) ;;;
            ret (Some path)
        end
    else
      print (PrintTargetNotFound target_module_iri) ;;;
      ret None
  else
    print (PrintStartNotFound start_module_iri) ;;;
    ret None.

(** ** Worked examples *)

Module Examples.

Definition store0 : GraphDB :=
  {| triples := []; literals := []; outages := []; journal := [] |}.

Definition system_of (adj : dict (list (option string)))
    (facts : list triple) (faults : list bool) : FlexConveyorSystem :=
  {| system_iri := "sys";
     db := {| triples := facts; literals := [];
              outages := faults; journal := [] |};
     parcels := []; adjacency_matrix := adj; parcel_counter := 0;
     log := []; stdout := [] |}.

(** The four-module ring: module1 -east-> module2 -south-> module3
    -west-> module4 -north-> module1. *)
Definition ring : dict (list (option string)) :=
  [ ("module1", [None; Some "module2"; None; None]);
    ("module2", [None; None; Some "module3"; None]);
    ("module3", [None; None; None; Some "module4"]);
    ("module4", [Some "module1"; None; None; None]) ].

End Examples.

(** ** Vocabulary of the statements *)

(** The store answers the next request. *)
Definition answers (d : GraphDB) : Prop := head (outages d) ≠ Some true.

(** No outage is scheduled: the store answers every request. *)
Definition reachable (d : GraphDB) : Prop :=
  Forall (λ b : bool, b = false) (outages d).

(** The fact has the identifier as its subject or as its object. *)
Definition mentions (p : string) (t : triple) : Prop := t_sub t = p ∨ t_obj t = p.

#[global] Instance mentions_dec p t : Decision (mentions p t).
Proof. unfold mentions. apply _. Defined.

(** What a call that took [self] to [self'] wrote to the log, and what it
    sent to the store. *)
Definition logged_since (self self' : FlexConveyorSystem) : list log_record :=
  drop (length (log self)) (log self').

Definition sent_since (self self' : FlexConveyorSystem) : list request :=
  drop (length (journal (db self))) (journal (db self')).

(** A computation leaves the attribute (or any other observation) [f] of the
    instance as it found it, however it ends. *)
Definition frames {A B} (f : FlexConveyorSystem → B) (c : M A) : Prop :=
  ∀ self, f (c self).2 = f self.

(** A directed edge of the adjacency model: [v] fills a slot of [u]. *)
Definition edge (adj : dict (list (option string))) (u v : string) : Prop :=
  ∃ connections, PyDict.get u adj = Some connections ∧ Some v ∈ connections.

#[global] Instance edge_dec adj u v : Decision (edge adj u v).
Proof.
  unfold edge. destruct (PyDict.get u adj) as [connections|].
  - destruct (decide (Some v ∈ connections)) as [Hin|Hin].
    + left. by exists connections.
    + right. intros (c & [= <-] & Hc). done.
  - right. by intros (c & [=] & _).
Defined.

(** [walk adj u v n]: [n] edges lead from [u] to [v]. *)
Inductive walk (adj : dict (list (option string))) (u : string)
    : string → nat → Prop :=
| walk_here : walk adj u u 0
| walk_edge v w n : walk adj u v n → edge adj v w → walk adj u w (S n).

Definition reachable_from (adj : dict (list (option string)))
    (u v : string) : Prop :=
  ∃ n, walk adj u v n.

(** Consecutive modules of the sequence are joined by edges. *)
Fixpoint is_path (adj : dict (list (option string))) (l : list string) : Prop :=
  match l with
  | u :: ((v :: _) as l') => edge adj u v ∧ is_path adj l'
  | _ => True
  end.

(** Every slot of the model names a module of the model. *)
Definition closed (adj : dict (list (option string))) : Prop :=
  ∀ u v, edge adj u v → v ∈ PyDict.keys adj.

(** The state a computation ends in is related by [R] to the one it started
    in, however it ends. *)
Definition related {A} (R : relation FlexConveyorSystem) (c : M A) : Prop :=
  ∀ self, R self (c self).2.

(** The computation ends by returning or by raising. *)
Definition finishes {A} (c : M A) : Prop :=
  ∀ self, (c self).1 ≠ OutOfFuel.

(** A log record other than "Failed to delete parcel ...". *)
Definition quiet (r : log_record) : Prop :=
  ∀ p e, r ≠ LogError (MsgFailedToDelete p e).

(** The log has grown by records that satisfy [P]. *)
Definition log_grows (P : log_record → Prop)
    (self self' : FlexConveyorSystem) : Prop :=
  ∃ delta, log self' = log self ++ delta ∧ Forall P delta.

(** The parcel map is still a dictionary. *)
Definition keeps_parcels_wf (self self' : FlexConveyorSystem) : Prop :=
  PyDict.wf (parcels self) → PyDict.wf (parcels self').

(** The facts [delete_parcel] collects: those with the parcel as subject,
    then those with the parcel as object. *)
Definition facts_about (p : string) (ts : list triple) : list triple :=
  select (Some p) None None ts ++ select None None (Some p) ts.

Definition stored (ts : list triple) (d : GraphDB) : GraphDB :=
  {| triples := ts; literals := literals d;
     outages := outages d; journal := journal d |}.

(** What a call that took [self] to [self'] printed. *)
Definition printed_since (self self' : FlexConveyorSystem) : list print_line :=
  drop (length (stdout self)) (stdout self').

(** ** The search loop, on the edge lists of [graph] *)

(** An edge of [graph]: [v] is in the edge list of [u]. *)
Definition g_edge (graph : gmap string (list (string * nat)))
    (u v : string) : Prop :=
  ∃ es w, graph !! u = Some es ∧ (v, w) ∈ es.

Inductive g_walk (graph : gmap string (list (string * nat))) (u : string)
    : string → nat → Prop :=
| g_walk_here : g_walk graph u u 0
| g_walk_edge v w n :
    g_walk graph u v n → g_edge graph v w → g_walk graph u w (S n).

(** Every edge of [graph] has weight 1. *)
Definition unit_weights (graph : gmap string (list (string * nat))) : Prop :=
  ∀ u es v w, graph !! u = Some es → (v, w) ∈ es → w = 1.

(** What the loop may still cost: the entries waiting in the queue, and for
    every module not yet visited one pop and one push per edge. *)
Definition unvisited_weight (visited : gset string)
    (l : list (string * list (string * nat))) : nat :=
  sum_list ((λ kv, S (length kv.2)) <$> filter (λ kv, kv.1 ∉ visited) l).

Definition potential (graph : gmap string (list (string * nat)))
    (s : search) : nat :=
  length (pq s) + unvisited_weight (visited s) (map_to_list graph).

(** The invariant of the search loop.  [R u v] selects the edges whose
    relaxation is already due: all of them at the head of the loop, and
    while the edges of the module just visited are scanned, those of the
    other visited modules and the ones scanned so far. *)
Record search_inv (graph : gmap string (list (string * nat)))
    (start : string) (K : gset string) (R : string → string → Prop)
    (s : search) : Prop := {
  inv_dom : dom (distances s) = K;
  inv_start : distances s !! start = Some (Finite 0);
  inv_previous_start : previous s !! start = Some None;
  inv_chain : ∀ v d,
    v ≠ start → distances s !! v = Some (Finite d) →
    ∃ u d', d = S d' ∧ previous s !! v = Some (Some u) ∧ u ∈ visited s ∧
            distances s !! u = Some (Finite d') ∧ g_edge graph u v;
  inv_visited : ∀ u, u ∈ visited s → ∃ d, distances s !! u = Some (Finite d);
  inv_optimal : ∀ u d n,
    u ∈ visited s → distances s !! u = Some (Finite d) →
    g_walk graph start u n → d ≤ n;
  inv_relaxed : ∀ u v d,
    u ∈ visited s → R u v → g_edge graph u v →
    distances s !! u = Some (Finite d) →
    ∃ d', distances s !! v = Some (Finite d') ∧ d' ≤ S d;
  inv_pq_bound : ∀ d v,
    (d, v) ∈ pq s → ∃ d', distances s !! v = Some (Finite d') ∧ d' ≤ d;
  inv_pq_has : ∀ v d,
    distances s !! v = Some (Finite d) → v ∉ visited s → (d, v) ∈ pq s
}.

(** Consecutive modules of the sequence are joined by edges of [graph]. *)
Fixpoint is_g_path (graph : gmap string (list (string * nat)))
    (l : list string) : Prop :=
  match l with
  | u :: ((v :: _) as l') => g_edge graph u v ∧ is_g_path graph l'
  | _ => True
  end.

(** A check of [closed] that computes. *)
Definition closedb (adj : dict (list (option string))) : bool :=
  forallb
    (λ item : string * list (option string),
       forallb
         (λ slot : option string,
            match slot with
            | None => true
            | Some v => bool_decide (v ∈ PyDict.keys adj)
            end)
         item.2)
    adj.

(** ** What a sync observes in a store that answers *)

(** The first loop of [get_parcels] for one module, on the facts [ts]. *)
Definition observe_module (ts : list triple) (ps : dict parcel_info)
    (module : string) : dict parcel_info :=
  match select (Some module) (Some Vocab.hasPossession) None ts with
  | [] => ps
  | t :: _ =>
      PyDict.set (t_obj t)
        {| current_position := module;
           destination :=
             t_obj <$> head (select (Some (t_obj t))
                               (Some Vocab.hasDestination) None ts) |}
        ps
  end.

Definition observe (ts : list triple) (modules : list string)
    : dict parcel_info :=
  foldl (observe_module ts) [] modules.

(** The parcels the second loop of [get_parcels] marks for deletion. *)
Definition arrived_parcels (ps : dict parcel_info) : list string :=
  (filter (λ kv : string * parcel_info, arrived kv.2 = true) ps).*1.

(** The five facts [add_parcel] inserts. *)
Definition parcel_facts (parcel_iri destination_iri start_module_iri : string)
    : list triple :=
  [ (parcel_iri, Vocab.rdf_type, Vocab.Parcel);
    (parcel_iri, Vocab.rdf_type, Vocab.NamedIndividual);
    (parcel_iri, Vocab.hasDestination, destination_iri);
    (parcel_iri, Vocab.isPossessedBy, start_module_iri);
    (start_module_iri, Vocab.hasPossession, parcel_iri) ].

(** ** The turns of the cleanup loop *)

(** [get_parcels] up to its third loop: the parcel map is rebuilt from the
    store and the arrived parcels are collected; the value is
    [parcels_to_delete]. *)
Definition scan_parcels : M (list string) :=
  set_parcels [] ;;;
  adj <- read adjacency_matrix ;;
  for_each (PyDict.keys adj) record_parcel ;;;
  ps <- read parcels ;;
  collect_arrived ps.

(** [turn body l s x s']: the loop [for y in l: body y], started in state
    [s], comes to the turn of the entry [x] in state [s'], every earlier
    turn having returned. *)
Inductive turn {A} (body : A → M unit)
    : list A → FlexConveyorSystem → A → FlexConveyorSystem → Prop :=
| turn_head x l s : turn body (x :: l) s x s
| turn_tail y l s s1 x s' :
    body y s = (Returned tt, s1) → turn body l s1 x s' →
    turn body (y :: l) s x s'.

(** The state in which [cleanup_parcel], entered in [s], calls
    [delete_parcel]: "Deleting parcel ..." has been logged. *)
Definition logged_deleting (parcel_iri : string) (s : FlexConveyorSystem)
    : FlexConveyorSystem :=
  with_log (log s ++ [LogInfo (MsgDeleting parcel_iri)]) s.

Module MoreExamples.

(** A store in which parcel [p] sits on module [m], its destination, and
    whose fifth request (the deletion) fails. *)
Definition arrived_then_outage : FlexConveyorSystem :=
  Examples.system_of [("m", [None; None; None; None])]
    [("m", Vocab.hasPossession, "p"); ("p", Vocab.hasDestination, "m")]
    [false; false; false; false; true].

(** The store of the four-module ring of system [sys], with one parcel,
    named [parcel2], on [module3] and bound for [module1]. *)
Definition ring_store : GraphDB :=
  {| triples :=
       [ ("sys", Vocab.containsFlexConveyorModule, "module1");
         ("sys", Vocab.containsFlexConveyorModule, "module2");
         ("sys", Vocab.containsFlexConveyorModule, "module3");
         ("sys", Vocab.containsFlexConveyorModule, "module4");
         ("module1", Vocab.hasEastConnection, "module2");
         ("module2", Vocab.hasSouthConnection, "module3");
         ("module3", Vocab.hasWestConnection, "module4");
         ("module4", Vocab.hasNorthConnection, "module1");
         ("module3", Vocab.hasPossession, parcel_name 1);
         (parcel_name 1, Vocab.hasDestination, "module1") ];
     literals := [];
     outages := [];
     journal := [] |}.

(** A store in which parcel [p], on [module1] and bound for [module3], also
    has a weight, a fact whose object is the number 5. *)
Definition weighed_parcel : FlexConveyorSystem :=
  {| system_iri := "sys";
     db := {| triples :=
                [ ("module1", Vocab.hasPossession, "p");
                  ("p", Vocab.isPossessedBy, "module1");
                  ("p", Vocab.hasDestination, "module3") ];
              literals :=
                [ {| lit_sub := "p"; lit_property := "weight";
                     lit_value := 5 |} ];
              outages := []; journal := [] |};
     parcels := []; adjacency_matrix := Examples.ring; parcel_counter := 0;
     log := []; stdout := [] |}.

(** A store whose only fact about [p] is its weight. *)
Definition only_weighed : FlexConveyorSystem :=
  {| system_iri := "sys";
     db := {| triples := [];
              literals :=
                [ {| lit_sub := "p"; lit_property := "weight";
                     lit_value := 5 |} ];
              outages := []; journal := [] |};
     parcels := []; adjacency_matrix := Examples.ring; parcel_counter := 0;
     log := []; stdout := [] |}.

End MoreExamples.

(** ** More vocabulary of the statements *)

(** Every exception the computation can raise satisfies [P]. *)
Definition raises_only {A} (P : exn → Prop) (c : M A) : Prop :=
  ∀ self e, (c self).1 = Raised e → P e.

(** The computation always returns. *)
Definition returns {A} (c : M A) : Prop :=
  ∀ self, ∃ a, (c self).1 = Returned a.

(** The store could not be reached. *)
Definition connectivity_error (e : exn) : Prop :=
  e = StoreError ConnectivityError.

(** An observation of the instance that a request to the store, answered or
    not, does not change: every attribute but [db], and the facts of the
    store. *)
Definition ignores_requests {B} (f : FlexConveyorSystem → B) : Prop :=
  ∀ r self, f (with_db (received r (db self)) self) = f self.

(** The facts of the store the instance is connected to. *)
Definition facts (self : FlexConveyorSystem) : list triple := triples (db self).

(** The object of the first fact of the store with the given subject and
    predicate: the first binding of [SELECT ?o WHERE { <s> <p> ?o . }]. *)
Definition first_object (ts : list triple) (s p : string) : option string :=
  head (t_obj <$> select (Some s) (Some p) None ts).
(** * Running computations *)

Lemma bind_returned {A B} (c : M A) (k : A → M B) self a self' :
  c self = (Returned a, self') → bind c k self = k a self'.
Proof. unfold bind. by intros ->. Qed.

Lemma bind_raised {A B} (c : M A) (k : A → M B) self e self' :
  c self = (Raised e, self') → bind c k self = (Raised e, self').
Proof. unfold bind. by intros ->. Qed.

Lemma try_returned {A} (body : M A) handler self a self' :
  body self = (Returned a, self') →
  try_except body handler self = (Returned a, self').
Proof. unfold try_except. by intros ->. Qed.

Lemma try_raised {A} (body : M A) handler self e self' :
  body self = (Raised e, self') →
  try_except body handler self = handler e self'.
Proof. unfold try_except. by intros ->. Qed.

(** * The store client *)

Lemma reachable_answers d : reachable d → answers d.
Proof.
  unfold reachable, answers. destruct (outages d) as [|b l]; simpl; [done|].
  by intros [-> _]%Forall_cons.
Qed.

Lemma reachable_received r d : reachable d → reachable (received r d).
Proof.
  unfold reachable, received. simpl. destruct (outages d); simpl; [done|].
  by intros [_ ?]%Forall_cons.
Qed.

Lemma reachable_triples d ts :
  reachable d →
  reachable {| triples := ts; literals := literals d;
               outages := outages d; journal := journal d |}.
Proof. done. Qed.

Lemma answers_dec d : {answers d} + {head (outages d) = Some true}.
Proof.
  unfold answers. destruct (head (outages d)) as [[]|]; [right|left|left]; done.
Qed.

Lemma send_answered r self :
  answers (db self) →
  send r self = (Returned tt, with_db (received r (db self)) self).
Proof.
  unfold answers, send, bind, read, set_db. simpl.
  by destruct (head (outages (db self))) as [[]|].
Qed.

Lemma send_outage r self :
  head (outages (db self)) = Some true →
  send r self =
    (Raised (StoreError ConnectivityError), with_db (received r (db self)) self).
Proof. unfold send, bind, read, set_db. simpl. by intros ->. Qed.

Lemma triples_get_answered s p o self :
  answers (db self) →
  triples_get s p o self =
    (Returned (select s p o (triples (db self))),
     with_db (received (ReqGet s p o) (db self)) self).
Proof. intros H. unfold triples_get, bind. by rewrite send_answered. Qed.

Lemma triples_get_outage s p o self :
  head (outages (db self)) = Some true →
  triples_get s p o self =
    (Raised (StoreError ConnectivityError),
     with_db (received (ReqGet s p o) (db self)) self).
Proof. intros H. unfold triples_get, bind. by rewrite send_outage. Qed.

(** What the client hands over. *)
Lemma triples_get_rows_answered s p o self :
  answers (db self) →
  triples_get_rows s p o self =
    (Returned
       ((as_row <$> select s p o (triples (db self))) ++
        (literal_row <$> select_literals s p o (literals (db self)))),
     with_db (received (ReqGet s p o) (db self)) self).
Proof.
  intros Ha. unfold triples_get_rows.
  erewrite bind_returned by (by apply send_answered). done.
Qed.

Lemma triples_get_rows_outage s p o self :
  head (outages (db self)) = Some true →
  triples_get_rows s p o self =
    (Raised (StoreError ConnectivityError),
     with_db (received (ReqGet s p o) (db self)) self).
Proof.
  intros Ho. unfold triples_get_rows.
  erewrite bind_raised; [done|]. by apply send_outage.
Qed.

(** Where no literal fact matches the pattern, [triples_get] gives the
    triples of the rows the client hands over, and leaves the store as the
    read of the rows does. *)
Lemma triples_get_of_rows s p o self :
  select_literals s p o (literals (db self)) = [] →
  (triples_get_rows s p o self).2 = (triples_get s p o self).2 ∧
  match (triples_get s p o self).1 with
  | Returned ts => (triples_get_rows s p o self).1 = Returned (as_row <$> ts)
  | Raised e => (triples_get_rows s p o self).1 = Raised e
  | OutOfFuel => False
  end.
Proof.
  intros Hnone. destruct (answers_dec (db self)) as [Ha|Ho].
  - rewrite triples_get_answered, triples_get_rows_answered by done.
    simpl. by rewrite Hnone, app_nil_r.
  - by rewrite triples_get_outage, triples_get_rows_outage.
Qed.

(** The filter keeps the rows of the facts among identifiers and drops
    the rows of the literal facts. *)
Lemma str_triple_as_row t : str_triple (as_row t) = Some t.
Proof. by destruct t as [[s p] o]. Qed.

Lemma str_triple_literal_row l : str_triple (literal_row l) = None.
Proof. done. Qed.

Lemma omap_str_triple_rows (ts : list triple) (ls : list literal_fact) :
  omap str_triple ((as_row <$> ts) ++ (literal_row <$> ls)) = ts.
Proof.
  induction ts as [|[[s p] o] ts IH]; simpl.
  - induction ls as [|l ls IH]; [done|]. simpl. exact IH.
  - f_equal. exact IH.
Qed.

Lemma triples_delete_answered ts self :
  answers (db self) →
  triples_delete ts self =
    (Returned true,
     with_db (stored (remove_facts ts (triples (db self)))
                (received (ReqDelete ts) (db self))) self).
Proof. intros H. unfold triples_delete, bind. by rewrite send_answered. Qed.

Lemma triples_delete_outage ts self :
  head (outages (db self)) = Some true →
  triples_delete ts self =
    (Raised (StoreError ConnectivityError),
     with_db (received (ReqDelete ts) (db self)) self).
Proof. intros H. unfold triples_delete, bind. by rewrite send_outage. Qed.

Lemma triples_add_answered ts self :
  answers (db self) →
  triples_add ts self =
    (Returned true,
     with_db (stored (insert_facts ts (triples (db self)))
                (received (ReqAdd ts) (db self))) self).
Proof. intros H. unfold triples_add, bind. by rewrite send_answered. Qed.

Lemma triples_update_rejected old new self :
  answers (db self) →
  ¬ Forall (λ t : triple, t ∈ triples (db self)) old →
  triples_update old new true self =
    (Raised (StoreError PreconditionError),
     with_db (received (ReqUpdate old new true) (db self)) self).
Proof.
  intros H Hold. unfold triples_update, bind. rewrite send_answered by done.
  simpl. by rewrite bool_decide_eq_false_2.
Qed.

Lemma triples_update_applied old new self :
  answers (db self) →
  Forall (λ t : triple, t ∈ triples (db self)) old →
  triples_update old new true self =
    (Returned true,
     with_db (stored (insert_facts new (remove_facts old (triples (db self))))
                (received (ReqUpdate old new true) (db self))) self).
Proof.
  intros H Hold. unfold triples_update, bind. rewrite send_answered by done.
  simpl. by rewrite bool_decide_eq_true_2.
Qed.

Lemma elem_of_select s p o t ts :
  t ∈ select s p o ts ↔ t ∈ ts ∧ matches s p o t = true.
Proof. unfold select. rewrite list_elem_of_filter. tauto. Qed.

Lemma select_nil s p o ts :
  select s p o ts = [] ↔ ∀ t, t ∈ ts → matches s p o t = false.
Proof.
  split.
  - intros H t Ht. destruct (matches s p o t) eqn:Hm; [|done].
    assert (t ∈ select s p o ts) as Hin by by apply elem_of_select.
    rewrite H in Hin. by apply elem_of_nil in Hin.
  - intros H. apply elem_of_nil_inv. intros t [Ht Hm]%elem_of_select.
    by rewrite (H t Ht) in Hm.
Qed.

Lemma matches_subject p t : matches (Some p) None None t = true ↔ t_sub t = p.
Proof.
  unfold matches, binds. rewrite !andb_true_r. apply bool_decide_eq_true.
Qed.

Lemma matches_object p t : matches None None (Some p) t = true ↔ t_obj t = p.
Proof. unfold matches, binds. simpl. apply bool_decide_eq_true. Qed.

Lemma matches_subject_predicate s p t :
  matches (Some s) (Some p) None t = true ↔ t_sub t = s ∧ t_pred t = p.
Proof.
  unfold matches, binds. rewrite andb_true_r, andb_true_iff.
  by rewrite !bool_decide_eq_true.
Qed.

Lemma elem_of_remove_facts old t ts :
  t ∈ remove_facts old ts ↔ t ∈ ts ∧ t ∉ old.
Proof. unfold remove_facts. rewrite list_elem_of_filter. tauto. Qed.

Lemma elem_of_insert_facts new t ts :
  t ∈ insert_facts new ts ↔ t ∈ ts ∨ t ∈ new.
Proof.
  unfold insert_facts. revert ts.
  induction new as [|x new IH]; intros ts; simpl.
  - rewrite elem_of_nil. tauto.
  - rewrite IH, elem_of_cons. case_decide.
    + split; [intros [?|?]; auto|intros [?|[->|?]]; auto].
    + rewrite elem_of_app, list_elem_of_singleton. tauto.
Qed.

(** * Frame lemmas *)

Section Frames.
Context {B : Type} (f : FlexConveyorSystem → B).

Lemma frames_ret {A} (a : A) : frames f (ret a).
Proof. by intros self. Qed.

Lemma frames_raise {A} (e : exn) : frames f (@raise A e).
Proof. by intros self. Qed.

Lemma frames_read {A} (g : FlexConveyorSystem → A) : frames f (read g).
Proof. by intros self. Qed.

Lemma frames_lift {A} (o : outcome A) : frames f (lift o).
Proof. by intros self. Qed.

Lemma frames_bind {A C} (c : M A) (k : A → M C) :
  frames f c → (∀ a, frames f (k a)) → frames f (bind c k).
Proof.
  intros Hc Hk self. unfold bind. specialize (Hc self).
  destruct (c self) as [[a|e|] self']; simpl in *; try done.
  by rewrite Hk.
Qed.

Lemma frames_try_except {A} (body : M A) (handler : exn → M A) :
  frames f body → (∀ e, frames f (handler e)) →
  frames f (try_except body handler).
Proof.
  intros Hb Hh self. unfold try_except. specialize (Hb self).
  destruct (body self) as [[a|e|] self']; simpl in *; try done.
  by rewrite Hh.
Qed.

Lemma frames_for_each {A} (l : list A) (body : A → M unit) :
  (∀ x, frames f (body x)) → frames f (for_each l body).
Proof.
  intros Hb. induction l as [|x l IH]; simpl.
  - apply frames_ret.
  - apply frames_bind; auto.
Qed.
End Frames.

Ltac frame_step :=
  lazymatch goal with
  | |- frames _ (bind _ _) => apply frames_bind; [|intros ?]
  | |- frames _ (try_except _ _) => apply frames_try_except; [|intros ?]
  | |- frames _ (for_each _ _) => apply frames_for_each; intros ?
  | |- frames _ (ret _) => apply frames_ret
  | |- frames _ (raise _) => apply frames_raise
  | |- frames _ (read _) => apply frames_read
  | |- frames _ (lift _) => apply frames_lift
  | |- frames _ (match ?x with _ => _ end) => destruct x
  | |- frames _ (let _ := _ in _) => cbv zeta
  end.

Ltac frame := repeat frame_step; eauto with frames; try (by intros ?).

Create HintDb frames discriminated.

(** ** The adjacency model is never assigned after construction *)

Lemma send_frames_adjacency r : frames adjacency_matrix (send r).
Proof. unfold send. frame. Qed.
#[local] Hint Resolve send_frames_adjacency : frames.

Lemma triples_get_frames_adjacency s p o :
  frames adjacency_matrix (triples_get s p o).
Proof. unfold triples_get. frame. Qed.

Lemma triples_get_rows_frames_adjacency s p o :
  frames adjacency_matrix (triples_get_rows s p o).
Proof. unfold triples_get_rows. frame. Qed.

Lemma triples_add_frames_adjacency ts : frames adjacency_matrix (triples_add ts).
Proof. unfold triples_add, set_triples. frame. Qed.

Lemma triples_delete_frames_adjacency ts :
  frames adjacency_matrix (triples_delete ts).
Proof. unfold triples_delete, set_triples. frame. Qed.

Lemma triples_update_frames_adjacency old new c :
  frames adjacency_matrix (triples_update old new c).
Proof. unfold triples_update, set_triples. frame. Qed.
#[local] Hint Resolve triples_get_frames_adjacency
  triples_get_rows_frames_adjacency triples_add_frames_adjacency
  triples_delete_frames_adjacency triples_update_frames_adjacency : frames.

Lemma delete_parcel_frames_adjacency p :
  frames adjacency_matrix (delete_parcel p).
Proof. unfold delete_parcel. frame. Qed.
#[local] Hint Resolve delete_parcel_frames_adjacency : frames.

Lemma collect_arrived_frames_adjacency items :
  frames adjacency_matrix (collect_arrived items).
Proof. induction items as [|[p info] items IH]; simpl; frame. Qed.
#[local] Hint Resolve collect_arrived_frames_adjacency : frames.

Lemma get_parcels_frames_adjacency : frames adjacency_matrix get_parcels.
Proof. unfold get_parcels, record_parcel, cleanup_parcel. frame. Qed.
#[local] Hint Resolve get_parcels_frames_adjacency : frames.

Lemma convey_frames_adjacency a b : frames adjacency_matrix (convey a b).
Proof. unfold convey. frame. Qed.

Lemma add_parcel_frames_adjacency d s : frames adjacency_matrix (add_parcel d s).
Proof. unfold add_parcel. frame. Qed.

Lemma find_path_frames_adjacency s t : frames adjacency_matrix (find_path s t).
Proof. unfold find_path. frame. Qed.

(** C9.  Every operation invoked after construction ([get_parcels],
    [find_path], [convey], [add_parcel], [delete_parcel]) leaves the
    adjacency model exactly as [build_adjacency_matrix] made it, whether the
    operation returns or raises. *)
Theorem adjacency_model_immutable (self : FlexConveyorSystem) :
  adjacency_matrix (get_parcels self).2 = adjacency_matrix self ∧
  (∀ s t, adjacency_matrix (find_path s t self).2 = adjacency_matrix self) ∧
  (∀ a b, adjacency_matrix (convey a b self).2 = adjacency_matrix self) ∧
  (∀ d s, adjacency_matrix (add_parcel d s self).2 = adjacency_matrix self) ∧
  (∀ p, adjacency_matrix (delete_parcel p self).2 = adjacency_matrix self).
Proof.
  split_and!; intros.
  - apply get_parcels_frames_adjacency.
  - apply find_path_frames_adjacency.
  - apply convey_frames_adjacency.
  - apply add_parcel_frames_adjacency.
  - apply delete_parcel_frames_adjacency.
Qed.

(** * [convey] *)

Lemma first_slot_None connections next idx :
  Some next ∉ connections → first_slot connections next idx = None.
Proof.
  revert idx. induction connections as [|c cs IH]; intros idx H; simpl; [done|].
  apply not_elem_of_cons in H as [? ?]. case_decide; [congruence|auto].
Qed.

Lemma first_slot_Some connections next idx :
  Some next ∈ connections →
  ∃ k, first_slot connections next idx = Some (idx + k) ∧ k < length connections.
Proof.
  revert idx. induction connections as [|c cs IH]; intros idx H; simpl.
  - by apply elem_of_nil in H.
  - case_decide as Hc.
    + exists 0. split; [f_equal|]; lia.
    + apply elem_of_cons in H as [?|H]; [congruence|].
      destruct (IH (S idx) H) as (k & -> & Hk).
      exists (S k). split; [f_equal|]; lia.
Qed.

Ltac run_with tac :=
  repeat first
    [ erewrite bind_returned by (first [reflexivity | tac])
    | progress cbv zeta ].

Lemma convey_outage self A B :
  head (outages (db self)) = Some true →
  convey A B self =
    (Raised (StoreError ConnectivityError),
     with_db
       (received (ReqGet (Some A) (Some Vocab.hasPossession) None) (db self))
       (with_log (log self ++ [LogInfo (MsgConveying A B)]) self)).
Proof.
  intros Ho. unfold convey.
  erewrite bind_returned by reflexivity.
  erewrite bind_raised; [done|]. by rewrite triples_get_outage.
Qed.

(** A call of [convey] that stops at one of its two checks has sent the
    store the occupancy read and nothing else. *)
Lemma convey_rejected self A B v :
  answers (db self) →
  match PyDict.get A (adjacency_matrix self) with
  | None => v = ModuleNotFound A
  | Some connections =>
      first_slot connections B 0 = None ∧ v = NoValidDirection A B
  end →
  ∃ self',
    convey A B self = (Raised (ValueError v), self') ∧
    db self' =
      received (ReqGet (Some A) (Some Vocab.hasPossession) None) (db self).
Proof.
  intros Ha Hv. unfold convey.
  run_with ltac:(by apply triples_get_answered).
  cbn [adjacency_matrix with_log with_db].
  destruct (PyDict.get A (adjacency_matrix self)) as [connections|].
  - destruct Hv as [-> ->].
    erewrite bind_returned by reflexivity. eauto.
  - subst v. erewrite bind_returned by reflexivity. eauto.
Qed.

(** C10.  When the current module is absent from the adjacency model,
    [convey] raises the "module not found" [ValueError] as soon as the store
    has answered the occupancy read; however the call ends, it raises, the
    facts of the store are unchanged, and the occupancy read is the only
    request the store has received: no direction was resolved and no
    mutation was issued. *)
Theorem convey_unknown_module (self : FlexConveyorSystem) (A B : string) :
  PyDict.get A (adjacency_matrix self) = None →
  let r := convey A B self in
  (answers (db self) → r.1 = Raised (ValueError (ModuleNotFound A))) ∧
  (∃ e, r.1 = Raised e) ∧
  triples (db r.2) = triples (db self) ∧
  sent_since self r.2 = [ReqGet (Some A) (Some Vocab.hasPossession) None].
Proof.
  intros Hget. unfold sent_since.
  destruct (answers_dec (db self)) as [Ha|Ho].
  - destruct (convey_rejected self A B (ModuleNotFound A) Ha)
      as (self' & -> & Hdb); [by rewrite Hget|].
    simpl. rewrite Hdb. simpl. rewrite drop_app_length. eauto.
  - rewrite convey_outage by done. simpl. rewrite drop_app_length.
    split; [intros Ha; by destruct Ha|]. eauto.
Qed.

Lemma convey_unknown_module_witness :
  let self := Examples.system_of Examples.ring [] [] in
  (convey "module9" "module1" self).1
    = Raised (ValueError (ModuleNotFound "module9")) ∧
  triples (db (convey "module9" "module1" self).2) = triples (db self).
Proof.
  pose proof (convey_unknown_module
                (Examples.system_of Examples.ring [] []) "module9" "module1"
                eq_refl) as (H1 & _ & H2 & _).
  split; [apply H1; by vm_compute | exact H2].
Defined.

(** C4.  When the current module is in the adjacency model and none of its
    slots leads to the requested next module, [convey] raises the "no valid
    direction" [ValueError] as soon as the store has answered the occupancy
    read; however the call ends, it raises, the facts of the store are
    unchanged, and the occupancy read is the only request the store has
    received: no mutation was issued. *)
Theorem convey_no_edge (self : FlexConveyorSystem) (A B : string) :
  A ∈ PyDict.keys (adjacency_matrix self) →
  ¬ edge (adjacency_matrix self) A B →
  let r := convey A B self in
  (answers (db self) → r.1 = Raised (ValueError (NoValidDirection A B))) ∧
  (∃ e, r.1 = Raised e) ∧
  triples (db r.2) = triples (db self) ∧
  sent_since self r.2 = [ReqGet (Some A) (Some Vocab.hasPossession) None].
Proof.
  intros HA Hedge. unfold sent_since.
  destruct (answers_dec (db self)) as [Ha|Ho].
  - destruct (convey_rejected self A B (NoValidDirection A B) Ha)
      as (self' & -> & Hdb).
    { destruct (PyDict.get A (adjacency_matrix self)) as [connections|] eqn:Hget.
      - split; [|done]. apply first_slot_None. intros Hin. apply Hedge.
        by exists connections.
      - exfalso. clear -HA Hget. unfold PyDict.keys in HA.
        induction (adjacency_matrix self) as [|[k v] d IH]; simpl in *.
        + by apply elem_of_nil in HA.
        + case_decide; [done|]. apply elem_of_cons in HA as [?|?]; [congruence|auto]. }
    simpl. rewrite Hdb. simpl. rewrite drop_app_length. eauto.
  - rewrite convey_outage by done. simpl. rewrite drop_app_length.
    split; [intros Ha; by destruct Ha|]. eauto.
Qed.

Lemma edge_iff adj u v :
  edge adj u v ↔
  match PyDict.get u adj with
  | Some connections => Some v ∈ connections
  | None => False
  end.
Proof.
  unfold edge. split.
  - by intros (c & -> & Hin).
  - destruct (PyDict.get u adj) as [c|]; [|done]. eauto.
Qed.

Lemma convey_no_edge_witness :
  let self := Examples.system_of Examples.ring [] [] in
  (convey "module1" "module3" self).1
    = Raised (ValueError (NoValidDirection "module1" "module3")) ∧
  triples (db (convey "module1" "module3" self).2) = triples (db self).
Proof.
  pose proof (convey_no_edge
                (Examples.system_of Examples.ring [] []) "module1" "module3")
    as H.
  destruct H as (H1 & _ & H2 & _).
  - compute_done.
  - compute_done.
  - split; [apply H1; by vm_compute | exact H2].
Defined.




(** * [delete_parcel] *)

Lemma elem_of_facts_about p t ts :
  t ∈ facts_about p ts ↔ t ∈ ts ∧ mentions p t.
Proof.
  unfold facts_about, mentions.
  rewrite elem_of_app, !elem_of_select, matches_subject, matches_object.
  tauto.
Qed.

Lemma facts_about_nil p ts :
  facts_about p ts = [] ↔ Forall (λ t, ¬ mentions p t) ts.
Proof.
  rewrite Forall_forall. split.
  - intros H t Ht Hm.
    assert (t ∈ facts_about p ts) as Hin by by apply elem_of_facts_about.
    rewrite H in Hin. by apply elem_of_nil in Hin.
  - intros H. apply elem_of_nil_inv. intros t [Ht Hm]%elem_of_facts_about.
    by apply (H t).
Qed.

Lemma delete_parcel_not_found self p :
  reachable (db self) →
  facts_about p (triples (db self)) = [] →
  delete_parcel p self =
    (Raised (ValueError (ParcelNotFound p)),
     with_log (log self ++ [LogError (MsgRaised (ParcelNotFound p))])
       (with_db
          (received (ReqGet None None (Some p))
             (received (ReqGet (Some p) None None) (db self))) self)).
Proof.
  intros Hr Hnil. unfold delete_parcel.
  erewrite bind_returned
    by (apply triples_get_rows_answered; by apply reachable_answers).
  erewrite bind_returned
    by (apply triples_get_rows_answered; simpl;
        by apply reachable_answers, reachable_received).
  cbv zeta. cbn [db with_db triples literals received].
  rewrite !omap_str_triple_rows.
  fold (facts_about p (triples (db self))). rewrite Hnil.
  by erewrite bind_returned by reflexivity.
Qed.

Lemma delete_parcel_found self p :
  reachable (db self) →
  facts_about p (triples (db self)) ≠ [] →
  delete_parcel p self =
    (Returned tt,
     with_db
       (stored
          (remove_facts (facts_about p (triples (db self))) (triples (db self)))
          (received (ReqDelete (facts_about p (triples (db self))))
             (received (ReqGet None None (Some p))
                (received (ReqGet (Some p) None None) (db self))))) self).
Proof.
  intros Hr Hne. unfold delete_parcel.
  erewrite bind_returned
    by (apply triples_get_rows_answered; by apply reachable_answers).
  erewrite bind_returned
    by (apply triples_get_rows_answered; simpl;
        by apply reachable_answers, reachable_received).
  cbv zeta. cbn [db with_db triples literals received].
  rewrite !omap_str_triple_rows.
  fold (facts_about p (triples (db self))).
  destruct (facts_about p (triples (db self))) as [|t ts] eqn:Hf; [done|].
  erewrite bind_returned.
  2:{ apply triples_delete_answered. simpl.
      by apply reachable_answers, reachable_received, reachable_received. }
  done.
Qed.

(** What a read of the facts of a parcel hands over once the facts among
    identifiers that mention it are gone. *)
Lemma select_literals_object s p o ls :
  select_literals s p (Some o) ls = [].
Proof.
  unfold select_literals. induction ls as [|l ls IH]; [done|].
  rewrite filter_cons_False; [done|].
  rewrite !andb_true_iff. by intros [_ ?].
Qed.

Lemma elem_of_select_literals p l ls :
  l ∈ select_literals (Some p) None None ls ↔ l ∈ ls ∧ lit_sub l = p.
Proof.
  unfold select_literals. rewrite list_elem_of_filter. simpl.
  rewrite !andb_true_r, bool_decide_eq_true. tauto.
Qed.

(** C7, amended.  On a reachable store: if no fact among identifiers - a
    fact whose three components are strings - mentions the parcel,
    [delete_parcel] raises the "not found" [ValueError], the store is
    unchanged and has received no mutation, whatever literal facts mention
    the parcel; otherwise it returns, the store holds exactly the earlier
    facts among identifiers that do not mention the parcel and every
    literal fact it held, a subsequent read for the parcel as object
    answers with the empty list, and a subsequent read for the parcel as
    subject answers with the rows of the literal facts of the parcel, which
    the filter of [delete_parcel] has skipped. *)
Theorem delete_parcel_spec (self : FlexConveyorSystem) (p : string) :
  reachable (db self) →
  let r := delete_parcel p self in
  (Forall (λ t, ¬ mentions p t) (triples (db self)) →
   r.1 = Raised (ValueError (ParcelNotFound p)) ∧
   triples (db r.2) = triples (db self) ∧
   literals (db r.2) = literals (db self) ∧
   Forall (λ q, is_mutation q = false) (sent_since self r.2)) ∧
  (Exists (mentions p) (triples (db self)) →
   r.1 = Returned tt ∧
   (∀ t, t ∈ triples (db r.2) ↔ t ∈ triples (db self) ∧ ¬ mentions p t) ∧
   literals (db r.2) = literals (db self) ∧
   (triples_get_rows (Some p) None None r.2).1 =
     Returned (literal_row <$>
                 select_literals (Some p) None None (literals (db self))) ∧
   (triples_get_rows None None (Some p) r.2).1 = Returned []).
Proof.
  intros Hr. cbv zeta. split.
  - intros Hnone%facts_about_nil. unfold sent_since.
    rewrite delete_parcel_not_found by done. simpl.
    split_and!; [done..|].
    rewrite <-app_assoc, drop_app_length. by repeat constructor.
  - intros Hsome.
    assert (facts_about p (triples (db self)) ≠ []) as Hne.
    { intros Hnil%facts_about_nil. apply Exists_exists in Hsome as (t & Ht & Hm).
      rewrite Forall_forall in Hnil. by apply (Hnil t). }
    rewrite delete_parcel_found by done. cbn [fst snd].
    assert (∀ t, t ∈ remove_facts (facts_about p (triples (db self)))
                       (triples (db self))
                 ↔ t ∈ triples (db self) ∧ ¬ mentions p t) as Hrem.
    { intros t. rewrite elem_of_remove_facts, elem_of_facts_about. tauto. }
    split_and!; [done|done|done|..].
    + rewrite triples_get_rows_answered; simpl.
      2:{ by apply reachable_answers, reachable_received, reachable_received,
            reachable_received. }
      f_equal.
      replace (select (Some p) None None _) with (@nil triple); [done|].
      symmetry. apply select_nil. intros t [_ Hm]%Hrem.
      destruct (matches (Some p) None None t) eqn:Hmt; [|done].
      apply matches_subject in Hmt. destruct Hm. by left.
    + rewrite triples_get_rows_answered; simpl.
      2:{ by apply reachable_answers, reachable_received, reachable_received,
            reachable_received. }
      f_equal. rewrite select_literals_object.
      replace (select None None (Some p) _) with (@nil triple); [done|].
      symmetry. apply select_nil. intros t [_ Hm]%Hrem.
      destruct (matches None None (Some p) t) eqn:Hmt; [|done].
      apply matches_object in Hmt. destruct Hm. by right.
Qed.

Lemma delete_parcel_spec_witness :
  (delete_parcel "p" MoreExamples.only_weighed).1
    = Raised (ValueError (ParcelNotFound "p")) ∧
  (delete_parcel "p" MoreExamples.weighed_parcel).1 = Returned tt ∧
  (triples_get_rows (Some "p") None None
     (delete_parcel "p" MoreExamples.weighed_parcel).2).1
    = Returned [Tuple [Str "p"; Str "weight"; Num 5]].
Proof.
  split.
  - pose proof (delete_parcel_spec MoreExamples.only_weighed "p") as H.
    destruct H as [H _]; [apply Forall_nil_2|].
    apply H. apply Forall_nil_2.
  - pose proof (delete_parcel_spec MoreExamples.weighed_parcel "p") as H.
    destruct H as [_ H]; [apply Forall_nil_2|].
    destruct H as (H1 & _ & _ & H2 & _).
    + apply Exists_cons_hd. by right.
    + split; [exact H1|exact H2].
Defined.

(** C7, as stated, fails.  In the first store a fact mentions the parcel
    [p], as its subject, and yet [delete_parcel] raises the "not found"
    error: the only fact about [p] has a number as its object and does not
    pass the filter.  In the second store [delete_parcel] returns and the
    read for [p] as subject that follows is not empty: the literal fact is
    still there. *)
Lemma delete_parcel_skips_literal_facts :
  (let self := MoreExamples.only_weighed in
   (triples_get_rows (Some "p") None None self).1
     = Returned [Tuple [Str "p"; Str "weight"; Num 5]] ∧
   (delete_parcel "p" self).1 = Raised (ValueError (ParcelNotFound "p"))) ∧
  (let self := MoreExamples.weighed_parcel in
   let r := delete_parcel "p" self in
   r.1 = Returned tt ∧
   literals (db r.2) = literals (db self) ∧
   (triples_get_rows (Some "p") None None r.2).1
     = Returned [Tuple [Str "p"; Str "weight"; Num 5]]).
Proof. split; split_and!; by vm_compute. Qed.

(** * Python dictionaries *)

Section PyDictFacts.
Context {V : Type}.
Implicit Types (d : dict V) (k : string) (v : V).

Lemma get_set_eq k v d : PyDict.get k (PyDict.set k v d) = Some v.
Proof.
  induction d as [|[k' v'] d IH]; simpl.
  - by rewrite decide_True.
  - case_decide; simpl; [by rewrite decide_True|by rewrite decide_False].
Qed.

Lemma get_set_ne k k' v d :
  k ≠ k' → PyDict.get k' (PyDict.set k v d) = PyDict.get k' d.
Proof.
  intros Hne. induction d as [|[k0 v0] d IH]; simpl.
  - by rewrite decide_False.
  - case_decide; simpl.
    + subst k0. by rewrite !decide_False.
    + case_decide; [done|apply IH].
Qed.

Lemma get_None k d : PyDict.get k d = None ↔ k ∉ PyDict.keys d.
Proof.
  unfold PyDict.keys. induction d as [|[k' v'] d IH]; simpl.
  - split; [intros _; apply not_elem_of_nil|done].
  - rewrite not_elem_of_cons. case_decide; [|rewrite IH]; simpl; naive_solver.
Qed.

Lemma get_is_Some k d : is_Some (PyDict.get k d) ↔ k ∈ PyDict.keys d.
Proof.
  rewrite <-not_eq_None_Some, get_None.
  destruct (decide (k ∈ PyDict.keys d)); naive_solver.
Qed.

Lemma get_Some_elem k v d : PyDict.get k d = Some v → (k, v) ∈ d.
Proof.
  induction d as [|[k' v'] d IH]; simpl; [done|].
  case_decide; [intros [= ->]; subst; left|right; auto].
Qed.

Lemma elem_get k v d : PyDict.wf d → (k, v) ∈ d → PyDict.get k d = Some v.
Proof.
  unfold PyDict.wf, PyDict.keys.
  induction d as [|[k' v'] d IH]; simpl; [by intros _ ?%elem_of_nil|].
  intros [Hk Hd]%NoDup_cons [[= -> ->]|Hin]%elem_of_cons.
  - by rewrite decide_True.
  - rewrite decide_False; [auto|]. intros ->. apply Hk.
    apply list_elem_of_fmap. by exists (k, v).
Qed.

Lemma keys_set_in k v d :
  k ∈ PyDict.keys d → PyDict.keys (PyDict.set k v d) = PyDict.keys d.
Proof.
  unfold PyDict.keys. induction d as [|[k' v'] d IH]; intros Hin.
  - by apply elem_of_nil in Hin.
  - cbn [PyDict.set]. case_decide as Hk; [by subst k'|].
    rewrite !fmap_cons. f_equal. apply IH.
    rewrite fmap_cons in Hin. apply elem_of_cons in Hin as [?|?]; [|done].
    simpl in *. congruence.
Qed.

Lemma keys_set_notin k v d :
  k ∉ PyDict.keys d → PyDict.keys (PyDict.set k v d) = PyDict.keys d ++ [k].
Proof.
  unfold PyDict.keys. induction d as [|[k' v'] d IH]; intros Hin; [done|].
  cbn [PyDict.set]. rewrite fmap_cons in Hin.
  apply not_elem_of_cons in Hin as [Hne Hin].
  rewrite decide_False by (simpl in Hne; congruence).
  rewrite !fmap_cons. simpl. f_equal. by apply IH.
Qed.

Lemma wf_nil : PyDict.wf ([] : dict V).
Proof. apply NoDup_nil_2. Qed.

Lemma wf_set k v d : PyDict.wf d → PyDict.wf (PyDict.set k v d).
Proof.
  unfold PyDict.wf. destruct (decide (k ∈ PyDict.keys d)) as [Hin|Hin].
  - by rewrite keys_set_in.
  - rewrite keys_set_notin by done.
    intros Hd. apply NoDup_app. split_and!; [done| |apply NoDup_singleton].
    by intros x Hx ->%list_elem_of_singleton.
Qed.

Lemma keys_del_subseteq k d : PyDict.keys (PyDict.del k d) ⊆ PyDict.keys d.
Proof.
  unfold PyDict.keys. induction d as [|[k' v'] d IH]; simpl; [done|].
  case_decide; simpl; [set_solver|set_solver].
Qed.

Lemma wf_del k d : PyDict.wf d → PyDict.wf (PyDict.del k d).
Proof.
  unfold PyDict.wf, PyDict.keys. induction d as [|[k' v'] d IH]; simpl; [done|].
  intros [Hk Hd]%NoDup_cons. case_decide; simpl; [done|].
  apply NoDup_cons. split; [|auto].
  intros Hin. apply Hk. by apply (keys_del_subseteq k d).
Qed.

Lemma get_del_eq k d : PyDict.wf d → PyDict.get k (PyDict.del k d) = None.
Proof.
  unfold PyDict.wf, PyDict.keys. induction d as [|[k' v'] d IH]; simpl; [done|].
  intros [Hk Hd]%NoDup_cons. case_decide; simpl.
  - subst k'. by apply get_None.
  - rewrite decide_False by done. auto.
Qed.

Lemma get_del_ne k k' d :
  k ≠ k' → PyDict.get k' (PyDict.del k d) = PyDict.get k' d.
Proof.
  intros Hne. induction d as [|[k0 v0] d IH]; simpl; [done|].
  case_decide; simpl.
  - subst k0. by rewrite decide_False.
  - case_decide; [done|apply IH].
Qed.

Lemma del_absent k d : PyDict.get k d = None → PyDict.del k d = d.
Proof.
  induction d as [|[k0 v0] d IH]; simpl; [done|].
  case_decide; [done|]. intros Hget. by rewrite IH.
Qed.

Lemma mem_true k d : PyDict.mem k d = true ↔ is_Some (PyDict.get k d).
Proof. unfold PyDict.mem. apply bool_decide_eq_true. Qed.

End PyDictFacts.

(** * Relating the start and the end of a computation *)

Section Related.
Context (R : relation FlexConveyorSystem) `{!PreOrder R}.

Lemma related_ret {A} (a : A) : related R (ret a).
Proof. by intros self. Qed.

Lemma related_raise {A} (e : exn) : related R (@raise A e).
Proof. by intros self. Qed.

Lemma related_read {A} (g : FlexConveyorSystem → A) : related R (read g).
Proof. by intros self. Qed.

Lemma related_lift {A} (o : outcome A) : related R (lift o).
Proof. by intros self. Qed.

Lemma related_bind {A C} (c : M A) (k : A → M C) :
  related R c → (∀ a, related R (k a)) → related R (bind c k).
Proof.
  intros Hc Hk self. unfold bind. specialize (Hc self).
  destruct (c self) as [[a|e|] self']; simpl in *; try done.
  by etrans; [|apply Hk].
Qed.

Lemma related_try_except {A} (body : M A) (handler : exn → M A) :
  related R body → (∀ e, related R (handler e)) →
  related R (try_except body handler).
Proof.
  intros Hb Hh self. unfold try_except. specialize (Hb self).
  destruct (body self) as [[a|e|] self']; simpl in *; try done.
  by etrans; [|apply Hh].
Qed.

Lemma related_for_each {A} (l : list A) (body : A → M unit) :
  (∀ x, related R (body x)) → related R (for_each l body).
Proof.
  intros Hb. induction l as [|x l IH]; simpl.
  - apply related_ret.
  - apply related_bind; auto.
Qed.
End Related.

Ltac related_step :=
  lazymatch goal with
  | |- related _ (bind _ _) => apply related_bind; [apply _| |intros ?]
  | |- related _ (try_except _ _) =>
      apply related_try_except; [apply _| |intros ?]
  | |- related _ (for_each _ _) => apply related_for_each; [apply _|intros ?]
  | |- related _ (ret _) => apply related_ret; apply _
  | |- related _ (raise _) => apply related_raise; apply _
  | |- related _ (read _) => apply related_read; apply _
  | |- related _ (lift _) => apply related_lift; apply _
  | |- related _ (match ?x with _ => _ end) => destruct x
  | |- related _ (let _ := _ in _) => cbv zeta
  end.

#[global] Instance log_grows_preorder P : PreOrder (log_grows P).
Proof.
  split.
  - intros s. exists []. by rewrite app_nil_r.
  - intros s1 s2 s3 (d1 & H1 & HP1) (d2 & H2 & HP2). exists (d1 ++ d2).
    rewrite H2, H1, app_assoc. split; [done|]. by apply Forall_app.
Qed.

#[global] Instance keeps_parcels_wf_preorder : PreOrder keeps_parcels_wf.
Proof. split; unfold keeps_parcels_wf; [intros s|intros s1 s2 s3]; tauto. Qed.

Lemma log_grows_same P s s' : log s' = log s → log_grows P s s'.
Proof. intros H. exists []. by rewrite app_nil_r. Qed.

Lemma logging_grows (P : log_record → Prop) r :
  P r → related (log_grows P) (logging r).
Proof. intros HP self. exists [r]. split; [done|by constructor]. Qed.

Lemma send_grows P r : related (log_grows P) (send r).
Proof.
  unfold send. repeat related_step; intros self; by apply log_grows_same.
Qed.

Lemma delete_parcel_quiet p : related (log_grows quiet) (delete_parcel p).
Proof.
  unfold delete_parcel, triples_get_rows, triples_delete, set_triples.
  repeat related_step;
    try apply send_grows;
    try (intros self; by apply log_grows_same).
  apply logging_grows. by intros q e.
Qed.

Lemma delete_parcel_frames_parcels p : frames parcels (delete_parcel p).
Proof.
  unfold delete_parcel, triples_get_rows, triples_delete, set_triples, send. frame.
Qed.

(** * Computations that cannot run out of fuel *)

Lemma finishes_ret {A} (a : A) : finishes (ret a).
Proof. by intros self. Qed.

Lemma finishes_raise {A} (e : exn) : finishes (@raise A e).
Proof. by intros self. Qed.

Lemma finishes_read {A} (g : FlexConveyorSystem → A) : finishes (read g).
Proof. by intros self. Qed.

Lemma finishes_bind {A C} (c : M A) (k : A → M C) :
  finishes c → (∀ a, finishes (k a)) → finishes (bind c k).
Proof.
  intros Hc Hk self. unfold bind. specialize (Hc self).
  destruct (c self) as [[a|e|] self']; simpl in *; try done. apply Hk.
Qed.

Lemma finishes_try_except {A} (body : M A) (handler : exn → M A) :
  finishes body → (∀ e, finishes (handler e)) →
  finishes (try_except body handler).
Proof.
  intros Hb Hh self. unfold try_except. specialize (Hb self).
  destruct (body self) as [[a|e|] self']; simpl in *; try done. apply Hh.
Qed.

Lemma finishes_for_each {A} (l : list A) (body : A → M unit) :
  (∀ x, finishes (body x)) → finishes (for_each l body).
Proof.
  intros Hb. induction l as [|x l IH]; simpl.
  - apply finishes_ret.
  - apply finishes_bind; auto.
Qed.

Ltac finishes_step :=
  lazymatch goal with
  | |- finishes (bind _ _) => apply finishes_bind; [|intros ?]
  | |- finishes (try_except _ _) => apply finishes_try_except; [|intros ?]
  | |- finishes (for_each _ _) => apply finishes_for_each; intros ?
  | |- finishes (ret _) => apply finishes_ret
  | |- finishes (raise _) => apply finishes_raise
  | |- finishes (read _) => apply finishes_read
  | |- finishes (match ?x with _ => _ end) => destruct x
  | |- finishes (let _ := _ in _) => cbv zeta
  end.

Lemma delete_parcel_finishes p : finishes (delete_parcel p).
Proof.
  unfold delete_parcel, triples_get_rows, triples_delete, set_triples, send.
  repeat finishes_step; by intros self.
Qed.

(** * [get_parcels] *)

Lemma triples_get_frames {B} (f : FlexConveyorSystem → B) s p o :
  (∀ d self, f (with_db d self) = f self) → frames f (triples_get s p o).
Proof.
  intros Hdb. unfold triples_get, send. frame. intros self. apply Hdb.
Qed.

Lemma triples_get_finishes s p o : finishes (triples_get s p o).
Proof. unfold triples_get, send. repeat finishes_step; by intros self. Qed.

Lemma record_parcel_frames_log module : frames log (record_parcel module).
Proof. unfold record_parcel, triples_get, send. frame. Qed.

Lemma record_parcel_finishes module : finishes (record_parcel module).
Proof.
  unfold record_parcel, triples_get, send.
  repeat finishes_step; by intros self.
Qed.

Lemma record_parcel_keeps_wf module :
  related keeps_parcels_wf (record_parcel module).
Proof.
  intros self Hwf. unfold record_parcel, bind.
  pose proof (triples_get_frames parcels (Some module)
                (Some Vocab.hasPossession) None (λ _ _, eq_refl) self) as H1.
  destruct (triples_get _ _ _ self) as [[[|t l]|e|] s1]; simpl in *;
    try by rewrite H1.
  pose proof (triples_get_frames parcels (Some (t_obj t))
                (Some Vocab.hasDestination) None (λ _ _, eq_refl) s1) as H2.
  destruct (triples_get _ _ _ s1) as [[l2|e|] s2]; simpl in *;
    try by rewrite H2, H1.
  apply wf_set. by rewrite H2, H1.
Qed.

(** What the second loop returns: the keys of the arrived entries, in the
    order of the dictionary; it only writes "reached its destination"
    records. *)
Lemma collect_arrived_run items self :
  ∃ infos,
    collect_arrived items self =
      (Returned (filter (λ kv, arrived kv.2 = true) items).*1,
       with_log (log self ++ infos) self) ∧
    Forall quiet infos.
Proof.
  revert self. induction items as [|[p info] items IH]; intros self; simpl.
  - exists []. rewrite app_nil_r. by destruct self.
  - destruct (arrived info) eqn:Harr.
    + rewrite filter_cons_True by done.
      erewrite bind_returned by reflexivity.
      destruct (IH (with_log
                      (log self ++
                         [LogInfo (MsgReachedDestination (_shorten_iri p)
                                     (_shorten_iri (current_position info)))])
                      self)) as (infos & Hrun & Hq).
      erewrite bind_returned by exact Hrun.
      eexists (_ :: infos). split.
      * unfold ret. simpl. f_equal. unfold with_log. simpl.
        by rewrite <-app_assoc.
      * constructor; [by intros q e|done].
    + rewrite filter_cons_False by (simpl; congruence).
      apply IH.
Qed.

(** One turn of the third loop: the deletion succeeds and the parcel leaves
    the map, or it fails, the failure is logged and the map is untouched. *)
Lemma cleanup_parcel_run p self :
  ∃ self' delta,
    cleanup_parcel p self = (Returned tt, self') ∧
    log self' = log self ++ delta ∧
    ((parcels self' = PyDict.del p (parcels self) ∧ Forall quiet delta) ∨
     (parcels self' = parcels self ∧
      (∃ e, LogError (MsgFailedToDelete p e) ∈ delta) ∧
      (∀ q e, LogError (MsgFailedToDelete q e) ∈ delta → q = p))).
Proof.
  unfold cleanup_parcel.
  erewrite bind_returned by reflexivity.
  set (s1 := with_log (log self ++ [LogInfo (MsgDeleting p)]) self).
  pose proof (delete_parcel_quiet p s1) as (d & Hd & Hq).
  pose proof (delete_parcel_frames_parcels p s1) as Hp.
  pose proof (delete_parcel_finishes p s1) as Hf.
  destruct (delete_parcel p s1) as [[[]|e|] s2] eqn:Hdel; simpl in *; [| |done].
  - assert (∀ d', Forall quiet d' →
              Forall quiet ([LogInfo (MsgDeleting p)] ++ d ++ d')) as Hquiet.
    { intros d' Hd'. constructor; [by intros q e|]. by apply Forall_app. }
    destruct (PyDict.mem p (parcels self)) eqn:Hmem.
    + erewrite try_returned.
      2:{ erewrite bind_returned by exact Hdel.
          erewrite bind_returned by reflexivity.
          erewrite bind_returned by reflexivity.
          simpl. rewrite Hp, Hmem. reflexivity. }
      eexists _, ([LogInfo (MsgDeleting p)] ++ d ++
                  [LogInfo (MsgDeleted (_shorten_iri p))]).
      split; [reflexivity|]. simpl. rewrite Hd. simpl.
      split; [by rewrite <-!app_assoc|]. left. split; [done|].
      apply Hquiet. constructor; [by intros q e|done].
    + erewrite try_returned.
      2:{ erewrite bind_returned by exact Hdel.
          erewrite bind_returned by reflexivity.
          erewrite bind_returned by reflexivity.
          simpl. rewrite Hp, Hmem. reflexivity. }
      eexists _, ([LogInfo (MsgDeleting p)] ++ d ++
                  [LogInfo (MsgDeleted (_shorten_iri p))]).
      split; [reflexivity|]. simpl. rewrite Hd. simpl.
      split; [by rewrite <-!app_assoc|]. left. split.
      * rewrite Hp. symmetry. apply del_absent.
        destruct (PyDict.get p (parcels self)) eqn:Hget; [|done].
        assert (PyDict.mem p (parcels self) = true) as Ht
          by (apply mem_true; eauto).
        congruence.
      * apply Hquiet. constructor; [by intros q e|done].
  - erewrite try_raised by (erewrite bind_raised by exact Hdel; reflexivity).
    eexists _, ([LogInfo (MsgDeleting p)] ++ d ++
                [LogError (MsgFailedToDelete p e)]).
    split; [reflexivity|]. simpl. rewrite Hd. simpl.
    split; [by rewrite <-!app_assoc|]. right. split_and!; [done| |].
    + exists e. right. apply elem_of_app. right. left.
    + intros q e' [Hin|Hin]%elem_of_cons; [done|].
      apply elem_of_app in Hin as [Hin|Hin].
      * rewrite Forall_forall in Hq. by destruct (Hq _ Hin q e').
      * apply list_elem_of_singleton in Hin. congruence.
Qed.

Lemma quiet_not_in delta p e :
  Forall quiet delta → LogError (MsgFailedToDelete p e) ∉ delta.
Proof. rewrite Forall_forall. intros H Hin. by apply (H _ Hin p e). Qed.

(** The third loop as a whole. *)
Lemma cleanup_loop l self :
  NoDup l → PyDict.wf (parcels self) →
  ∃ self' delta,
    for_each l cleanup_parcel self = (Returned tt, self') ∧
    log self' = log self ++ delta ∧
    PyDict.wf (parcels self') ∧
    (∀ q, q ∉ l → PyDict.get q (parcels self') = PyDict.get q (parcels self)) ∧
    (∀ q, q ∈ l →
       (PyDict.get q (parcels self') = None ∧
        ∀ e, LogError (MsgFailedToDelete q e) ∉ delta) ∨
       (PyDict.get q (parcels self') = PyDict.get q (parcels self) ∧
        ∃ e, LogError (MsgFailedToDelete q e) ∈ delta)) ∧
    (∀ q e, LogError (MsgFailedToDelete q e) ∈ delta → q ∈ l).
Proof.
  intros Hl. revert self. induction Hl as [|p l Hp Hl IH]; intros self Hwf.
  - exists self, []. rewrite app_nil_r. split_and!; try done.
    + intros q ?%elem_of_nil. done.
    + intros q e ?%elem_of_nil. done.
  - simpl.
    destruct (cleanup_parcel_run p self) as (s1 & d1 & Hrun1 & Hlog1 & Hcase).
    assert (PyDict.wf (parcels s1)) as Hwf1.
    { destruct Hcase as [[-> _]|[-> _]]; [by apply wf_del|done]. }
    destruct (IH s1 Hwf1) as (s2 & d2 & Hrun2 & Hlog2 & Hwf2 & Hout & Hin & Hfrom).
    exists s2, (d1 ++ d2).
    erewrite bind_returned by exact Hrun1.
    split_and!; [done| |done|..].
    + by rewrite Hlog2, Hlog1, app_assoc.
    + intros q [Hqp Hql]%not_elem_of_cons. rewrite Hout by done.
      destruct Hcase as [[-> _]|[-> _]]; [by apply get_del_ne|done].
    + intros q [->|Hq]%elem_of_cons.
      * rewrite (Hout p Hp).
        destruct Hcase as [[-> Hq1]|(-> & [e He] & _)].
        -- left. split; [by apply get_del_eq|].
           intros e [Hin1|Hin2]%elem_of_app.
           ++ by eapply quiet_not_in.
           ++ by apply Hfrom in Hin2.
        -- right. split; [done|]. exists e. apply elem_of_app. by left.
      * assert (q ≠ p) as Hne by (intros ->; done).
        assert (PyDict.get q (parcels s1) = PyDict.get q (parcels self)) as Hs1.
        { destruct Hcase as [[-> _]|[-> _]]; [by apply get_del_ne|done]. }
        destruct (Hin q Hq) as [[Hnone Hno]|[Hsame [e He]]].
        -- left. split; [done|]. intros e [Hin1|Hin2]%elem_of_app.
           ++ destruct Hcase as [[_ Hq1]|(_ & _ & Honly)].
              ** by eapply quiet_not_in.
              ** by apply Honly in Hin1.
           ++ by apply (Hno e).
        -- right. split; [congruence|]. exists e. apply elem_of_app. by right.
    + intros q e [Hin1|Hin2]%elem_of_app.
      * destruct Hcase as [[_ Hq1]|(_ & _ & Honly)].
        -- by apply quiet_not_in with (p := q) (e := e) in Hq1.
        -- apply Honly in Hin1 as ->. left.
      * right. by eapply Hfrom.
Qed.

Lemma build_loop_facts modules self :
  let r := for_each modules record_parcel self in
  r.1 ≠ OutOfFuel ∧ log r.2 = log self ∧
  (PyDict.wf (parcels self) → PyDict.wf (parcels r.2)).
Proof.
  split_and!.
  - apply finishes_for_each, record_parcel_finishes.
  - apply (frames_for_each log), record_parcel_frames_log.
  - apply (related_for_each keeps_parcels_wf), record_parcel_keeps_wf.
Qed.

(** How a sync ends: either a read of the first loop failed, the error is
    raised and nothing was logged; or the sync returns its map, which is the
    map [ps] the first loop observed without the parcels whose deletion
    succeeded: a returned parcel that has arrived is one whose deletion
    failed, and a parcel whose deletion failed is returned. *)
Lemma get_parcels_run self :
  (∃ e self', get_parcels self = (Raised e, self') ∧ log self' = log self) ∨
  (∃ ps self' delta,
     get_parcels self = (Returned (parcels self'), self') ∧
     PyDict.wf ps ∧
     log self' = log self ++ delta ∧
     (∀ q info, PyDict.get q (parcels self') = Some info →
                PyDict.get q ps = Some info) ∧
     (∀ q info, PyDict.get q (parcels self') = Some info →
                arrived info = true →
                ∃ e, LogError (MsgFailedToDelete q e) ∈ delta) ∧
     (∀ q e, LogError (MsgFailedToDelete q e) ∈ delta →
             ∃ info, PyDict.get q (parcels self') = Some info ∧
                     arrived info = true)).
Proof.
  unfold get_parcels.
  erewrite bind_returned by reflexivity.
  erewrite bind_returned by reflexivity.
  set (s0 := with_parcels [] self).
  destruct (build_loop_facts (PyDict.keys (adjacency_matrix s0)) s0)
    as (Hfin & Hlog1 & Hwf1).
  destruct (for_each (PyDict.keys (adjacency_matrix s0)) record_parcel s0)
    as [[[]|e|] s1] eqn:Hbuild; simpl in *; [| |done].
  2:{ left. exists e, s1. by erewrite bind_raised by exact Hbuild. }
  right. specialize (Hwf1 wf_nil).
  erewrite bind_returned by exact Hbuild.
  erewrite bind_returned by reflexivity.
  destruct (collect_arrived_run (parcels s1) s1) as (infos & Hcollect & Hquiet).
  erewrite bind_returned by exact Hcollect.
  set (l := (filter (λ kv, arrived kv.2 = true) (parcels s1)).*1).
  assert (NoDup l) as Hl.
  { eapply sublist_NoDup; [exact Hwf1|]. apply fmap_sublist, sublist_filter. }
  assert (∀ q, q ∈ l ↔ ∃ info, PyDict.get q (parcels s1) = Some info ∧
                               arrived info = true) as Hmem.
  { intros q. unfold l. rewrite list_elem_of_fmap. split.
    - intros ([q' info] & -> & [Harr Hin]%list_elem_of_filter).
      exists info. split; [by apply elem_get|done].
    - intros (info & Hget%get_Some_elem & Harr). exists (q, info).
      split; [done|]. by apply list_elem_of_filter. }
  destruct (cleanup_loop l (with_log (log s1 ++ infos) s1) Hl Hwf1)
    as (s3 & d3 & Hloop & Hlog3 & Hwf3 & Hout & Hin & Hfrom).
  simpl in Hlog3, Hout, Hin.
  erewrite bind_returned by exact Hloop.
  exists (parcels s1), s3, (infos ++ d3).
  assert (∀ q info, PyDict.get q (parcels s3) = Some info →
                    PyDict.get q (parcels s1) = Some info) as Hsub.
  { intros q info Hget. destruct (decide (q ∈ l)) as [Hq|Hq].
    - destruct (Hin q Hq) as [[Hnone _]|[Hsame _]]; congruence.
    - by rewrite <-Hout. }
  split_and!; [done|done|by rewrite Hlog3, Hlog1, app_assoc|done|..].
  - intros q info Hget Harr.
    assert (q ∈ l) as Hq by (apply Hmem; eauto).
    destruct (Hin q Hq) as [[Hnone _]|[_ [e He]]]; [congruence|].
    exists e. apply elem_of_app. by right.
  - intros q e [Hi|Hd]%elem_of_app; [by eapply quiet_not_in in Hi|].
    pose proof (Hfrom q e Hd) as Hq.
    destruct (Hin q Hq) as [[_ Hno]|[Hsame _]]; [by destruct (Hno e)|].
    apply Hmem in Hq as (info & Hget & Harr). exists info.
    split; [congruence|done].
Qed.

Lemma logged_since_app self self' delta :
  log self' = log self ++ delta → logged_since self self' = delta.
Proof. unfold logged_since. intros ->. apply drop_app_length. Qed.

(** ** The turns of the cleanup loop *)

Lemma get_parcels_scan self :
  get_parcels self =
  (parcels_to_delete <- scan_parcels ;;
   for_each parcels_to_delete cleanup_parcel ;;;
   read parcels) self.
Proof.
  unfold get_parcels, scan_parcels, bind.
  destruct (set_parcels [] self) as [[[]|e|] s0]; [|done..].
  destruct (read adjacency_matrix s0) as [[adj|e|] s1]; [|done..].
  destruct (for_each (PyDict.keys adj) record_parcel s1) as [[[]|e|] s2];
    [|done..].
  destruct (read parcels s2) as [[ps|e|] s3]; [|done..].
  by destruct (collect_arrived ps s3) as [[l|e|] s4].
Qed.

(** What the scan leaves: a dictionary, the arrived entries of which are
    the parcels to delete, and a log that has grown by quiet records. *)
Lemma scan_parcels_returned self l s2 :
  scan_parcels self = (Returned l, s2) →
  PyDict.wf (parcels s2) ∧
  l = arrived_parcels (parcels s2) ∧
  ∃ infos, log s2 = log self ++ infos ∧ Forall quiet infos.
Proof.
  unfold scan_parcels.
  erewrite bind_returned by reflexivity.
  erewrite bind_returned by reflexivity.
  set (s0 := with_parcels [] self).
  destruct (build_loop_facts (PyDict.keys (adjacency_matrix s0)) s0)
    as (Hfin & Hlog1 & Hwf1).
  destruct (for_each (PyDict.keys (adjacency_matrix s0)) record_parcel s0)
    as [[[]|e|] s1] eqn:Hbuild; simpl in *; [| |done].
  2:{ by erewrite bind_raised by exact Hbuild. }
  specialize (Hwf1 wf_nil).
  erewrite bind_returned by exact Hbuild.
  erewrite bind_returned by reflexivity.
  destruct (collect_arrived_run (parcels s1) s1) as (infos & -> & Hquiet).
  intros [= <- <-]. simpl. split_and!; [done..|].
  exists infos. by rewrite Hlog1.
Qed.

Lemma turn_elem {A} (body : A → M unit) l s x s' :
  turn body l s x s' → x ∈ l.
Proof. induction 1; [by left|by right]. Qed.

Lemma turn_unique {A} (body : A → M unit) l s x s1 s2 :
  NoDup l → turn body l s x s1 → turn body l s x s2 → s1 = s2.
Proof.
  intros Hnd H1. revert s2. induction H1 as [x l s|y l s s' x s1 Hy H1 IH];
    intros s2 H2; apply NoDup_cons in Hnd as [Hnot Hnd].
  - inversion H2 as [|? ? ? ? ? ? ? Ht]; subst; [done|].
    by apply turn_elem in Ht.
  - inversion H2 as [|? ? ? ? ? ? Hy' Ht]; subst.
    + by apply turn_elem in H1.
    + rewrite Hy in Hy'. injection Hy' as <-. by apply IH.
Qed.

(** [delete_parcel] under any schedule of outages: it returns only after
    the facts among identifiers that mention the parcel are gone, and it
    never adds a fact. *)
Lemma delete_parcel_cases p self :
  ∃ self',
    (delete_parcel p self = (Returned tt, self') ∧
     Forall (λ t, ¬ mentions p t) (triples (db self')) ∧
     ∀ t, t ∈ triples (db self') → t ∈ triples (db self)) ∨
    (∃ e, delete_parcel p self = (Raised e, self') ∧
          triples (db self') = triples (db self)).
Proof.
  unfold delete_parcel.
  destruct (answers_dec (db self)) as [Ha|Ho].
  2:{ eexists. right. eexists. split.
      - erewrite bind_raised; [reflexivity|].
        by apply triples_get_rows_outage.
      - done. }
  erewrite bind_returned by (by apply triples_get_rows_answered).
  set (s1 := with_db _ self).
  destruct (answers_dec (db s1)) as [Ha1|Ho1].
  2:{ eexists. right. eexists. split.
      - erewrite bind_raised; [reflexivity|].
        by apply triples_get_rows_outage.
      - done. }
  erewrite bind_returned by (by apply triples_get_rows_answered).
  cbv zeta. cbn [db with_db triples literals received s1].
  rewrite !omap_str_triple_rows.
  fold (facts_about p (triples (db self))).
  destruct (facts_about p (triples (db self))) as [|t ts] eqn:Hf.
  { eexists. right. eexists. split.
    - erewrite bind_returned by reflexivity. reflexivity.
    - done. }
  rewrite <-Hf.
  set (s2 := with_db _ s1).
  destruct (answers_dec (db s2)) as [Ha2|Ho2].
  - eexists. left. split_and!.
    + erewrite bind_returned by (by apply triples_delete_answered).
      reflexivity.
    + apply Forall_forall. intros f. cbn [db with_db triples stored].
      rewrite elem_of_remove_facts, elem_of_facts_about. tauto.
    + intros f. cbn [db with_db triples stored].
      rewrite elem_of_remove_facts. tauto.
  - eexists. right. eexists. split.
    + erewrite bind_raised; [reflexivity|].
      by apply triples_delete_outage.
    + done.
Qed.

(** One turn of the cleanup loop, by the outcome of its deletion. *)
Lemma cleanup_parcel_turn p s :
  let d := delete_parcel p (logged_deleting p s) in
  ∃ s1,
    cleanup_parcel p s = (Returned tt, s1) ∧
    db s1 = db d.2 ∧
    match d.1 with
    | Returned _ => parcels s1 = PyDict.del p (parcels s)
    | Raised e =>
        parcels s1 = parcels s ∧
        LogError (MsgFailedToDelete p e) ∈ logged_since s s1
    | OutOfFuel => False
    end.
Proof.
  cbv zeta. unfold cleanup_parcel.
  erewrite bind_returned by reflexivity.
  fold (logged_deleting p s).
  pose proof (delete_parcel_quiet p (logged_deleting p s)) as (dl & Hdl & _).
  pose proof (delete_parcel_frames_parcels p (logged_deleting p s)) as Hp.
  pose proof (delete_parcel_finishes p (logged_deleting p s)) as Hf.
  destruct (delete_parcel p (logged_deleting p s)) as [[[]|e|] sd] eqn:Hdel;
    simpl in *; [| |done].
  - unfold try_except.
    erewrite bind_returned by exact Hdel.
    erewrite bind_returned by reflexivity.
    erewrite bind_returned by reflexivity.
    cbn [parcels with_log]. rewrite Hp.
    destruct (PyDict.mem p (parcels s)) eqn:Hmem.
    + eexists. split; [reflexivity|]. done.
    + eexists. split; [reflexivity|]. split; [done|].
      cbn [parcels with_log snd]. rewrite Hp. symmetry. apply del_absent.
      destruct (PyDict.get p (parcels s)) eqn:Hget; [|done].
      assert (PyDict.mem p (parcels s) = true) as Ht
        by (apply mem_true; eauto).
      congruence.
  - erewrite try_raised by (erewrite bind_raised by exact Hdel; reflexivity).
    eexists. split; [reflexivity|]. split; [done|]. split; [done|].
    unfold logged_since. cbn [log with_log snd]. rewrite Hdl. simpl.
    rewrite <-!app_assoc, drop_app_length. set_solver.
Qed.

Lemma cleanup_parcel_log p s :
  ∃ delta, log (cleanup_parcel p s).2 = log s ++ delta.
Proof.
  destruct (cleanup_parcel_run p s) as (s1 & d & -> & Hlog & _). by exists d.
Qed.

Lemma cleanup_parcel_shrinks p s t :
  t ∈ triples (db (cleanup_parcel p s).2) → t ∈ triples (db s).
Proof.
  destruct (cleanup_parcel_turn p s) as (s1 & Hrun & Hdb & _).
  rewrite Hrun. simpl. rewrite Hdb.
  destruct (delete_parcel_cases p (logged_deleting p s))
    as (sd & [(-> & _ & Hsub)|(e & -> & Heq)]); simpl.
  - apply Hsub.
  - by rewrite Heq.
Qed.

(** The third loop, turn by turn: every entry has its turn; an entry whose
    deletion returns has left the map, and no fact among identifiers
    mentions it when the loop ends; an entry whose deletion raises stays,
    and the failure is in the log. *)
Lemma cleanup_loop_turns l s :
  NoDup l → PyDict.wf (parcels s) →
  ∃ s',
    for_each l cleanup_parcel s = (Returned tt, s') ∧
    (∃ delta, log s' = log s ++ delta) ∧
    (∀ t, t ∈ triples (db s') → t ∈ triples (db s)) ∧
    (∀ q, q ∉ l → PyDict.get q (parcels s') = PyDict.get q (parcels s)) ∧
    (∀ q, q ∈ l →
       ∃ sq, turn cleanup_parcel l s q sq ∧
         match (delete_parcel q (logged_deleting q sq)).1 with
         | Returned _ =>
             PyDict.get q (parcels s') = None ∧
             Forall (λ t, ¬ mentions q t) (triples (db s'))
         | Raised e =>
             PyDict.get q (parcels s') = PyDict.get q (parcels s) ∧
             LogError (MsgFailedToDelete q e) ∈ logged_since s s'
         | OutOfFuel => False
         end).
Proof.
  intros Hl. revert s. induction Hl as [|p l Hp Hl IH]; intros s Hwf.
  - exists s. split_and!; [done| |done|done|].
    + exists []. by rewrite app_nil_r.
    + by intros q ?%elem_of_nil.
  - simpl.
    destruct (cleanup_parcel_turn p s) as (s1 & Hrun1 & Hdb1 & Hcase).
    pose proof (cleanup_parcel_log p s) as [d1 Hlog1].
    pose proof (cleanup_parcel_shrinks p s) as Hsub1.
    rewrite Hrun1 in Hlog1, Hsub1. simpl in Hlog1, Hsub1.
    assert (PyDict.wf (parcels s1) ∧
            ∀ q, q ≠ p → PyDict.get q (parcels s1) = PyDict.get q (parcels s))
      as [Hwf1 Hother].
    { destruct (delete_parcel p (logged_deleting p s)).1 as [[]|e|];
        [|destruct Hcase as [Hcase _]|done]; rewrite Hcase.
      - split; [by apply wf_del|]. intros q Hq. by apply get_del_ne.
      - done. }
    destruct (IH s1 Hwf1) as (s2 & Hrun2 & [d2 Hlog2] & Hsub2 & Hout & Hin).
    exists s2. erewrite bind_returned by exact Hrun1.
    split_and!; [done|..].
    + exists (d1 ++ d2). by rewrite Hlog2, Hlog1, app_assoc.
    + intros t Ht. by apply Hsub1, Hsub2.
    + intros q [Hqp Hql]%not_elem_of_cons. rewrite Hout by done.
      by apply Hother.
    + intros q [->|Hq]%elem_of_cons.
      * exists s. split; [apply turn_head|].
        destruct (delete_parcel_cases p (logged_deleting p s))
          as (sd & [(Hdel & Hgone & _)|(e & Hdel & _)]);
          rewrite Hdel in Hcase, Hdb1 |- *; simpl in *.
        -- split.
           ++ rewrite (Hout p Hp), Hcase. by apply get_del_eq.
           ++ apply Forall_forall. intros t Ht.
              rewrite Forall_forall in Hgone. apply Hgone.
              rewrite <-Hdb1. by apply Hsub2.
        -- destruct Hcase as [Hps Hlog]. split.
           ++ by rewrite (Hout p Hp), Hps.
           ++ rewrite (logged_since_app _ _ _ Hlog1) in Hlog.
              rewrite (logged_since_app s s2 (d1 ++ d2))
                by by rewrite Hlog2, Hlog1, app_assoc.
              apply elem_of_app. by left.
      * assert (q ≠ p) as Hne by (intros ->; done).
        destruct (Hin q Hq) as (sq & Hturn & Hres).
        exists sq. split; [by eapply turn_tail|].
        destruct (delete_parcel q (logged_deleting q sq)).1 as [[]|e|];
          [done| |done].
        destruct Hres as [Hps Hlog]. split.
        -- rewrite Hps. by apply Hother.
        -- rewrite (logged_since_app s1 s2 d2) in Hlog by done.
           rewrite (logged_since_app s s2 (d1 ++ d2))
             by by rewrite Hlog2, Hlog1, app_assoc.
           apply elem_of_app. by right.
Qed.
Lemma elem_of_arrived_parcels q ps :
  PyDict.wf ps →
  q ∈ arrived_parcels ps ↔
  ∃ info, PyDict.get q ps = Some info ∧ arrived info = true.
Proof.
  intros Hwf. unfold arrived_parcels. rewrite list_elem_of_fmap. split.
  - intros ([q' info] & -> & [Harr Hin]%list_elem_of_filter).
    exists info. split; [|done]. by apply elem_get.
  - intros (info & Hget%get_Some_elem & Harr). exists (q, info).
    split; [done|]. by apply list_elem_of_filter.
Qed.

Lemma arrived_parcels_NoDup ps : PyDict.wf ps → NoDup (arrived_parcels ps).
Proof.
  intros Hwf. eapply sublist_NoDup; [exact Hwf|].
  apply fmap_sublist, sublist_filter.
Qed.

(** A sync whose scan has returned: the third loop runs from the state the
    scan left, and the sync returns the map of the state the loop ends
    in. *)
Lemma get_parcels_after_scan self l s2 :
  scan_parcels self = (Returned l, s2) →
  PyDict.wf (parcels s2) ∧
  NoDup l ∧
  (∀ q, q ∈ l ↔ ∃ info, PyDict.get q (parcels s2) = Some info ∧
                        arrived info = true) ∧
  ∃ s',
    for_each l cleanup_parcel s2 = (Returned tt, s') ∧
    get_parcels self = (Returned (parcels s'), s') ∧
    (∀ r, r ∈ logged_since s2 s' → r ∈ logged_since self s').
Proof.
  intros Hscan.
  destruct (scan_parcels_returned _ _ _ Hscan) as (Hwf & -> & infos & Hlog & _).
  split_and!; [done|by apply arrived_parcels_NoDup|
               intros q; by apply elem_of_arrived_parcels|].
  destruct (cleanup_loop_turns (arrived_parcels (parcels s2)) s2)
    as (s' & Hloop & [d Hd] & _); [by apply arrived_parcels_NoDup|done|].
  exists s'. split_and!; [done| |].
  - rewrite get_parcels_scan.
    erewrite bind_returned by exact Hscan.
    by erewrite bind_returned by exact Hloop.
  - intros r. rewrite (logged_since_app s2 s' d) by done.
    rewrite (logged_since_app self s' (infos ++ d))
      by by rewrite Hd, Hlog, app_assoc.
    intros Hr. apply elem_of_app. by right.
Qed.


(** C5, amended.  When, in a sync whose scan has returned, the deletion of
    an arrived parcel fails - [delete_parcel], called at the parcel's turn
    in the third loop, raises [e] - the sync is not aborted: it returns
    its map, "Failed to delete parcel ..." is logged with [e], and the
    parcel is still in the returned map, with current_position ==
    destination. *)
Theorem sync_failed_deletion (self : FlexConveyorSystem)
    (parcels_to_delete : list string) (s2 : FlexConveyorSystem)
    (p : string) (s : FlexConveyorSystem) (e : exn) :
  scan_parcels self = (Returned parcels_to_delete, s2) →
  turn cleanup_parcel parcels_to_delete s2 p s →
  (delete_parcel p (logged_deleting p s)).1 = Raised e →
  ∃ m info,
    (get_parcels self).1 = Returned m ∧
    LogError (MsgFailedToDelete p e) ∈ logged_since self (get_parcels self).2 ∧
    PyDict.get p m = Some info ∧
    arrived info = true.
Proof.
  intros Hscan Hturn Hdel.
  destruct (get_parcels_after_scan _ _ _ Hscan)
    as (Hwf & Hnd & Hmem & s' & Hloop & Hrun & Hlogs).
  destruct (cleanup_loop_turns parcels_to_delete s2 Hnd Hwf)
    as (s'' & Hloop' & _ & _ & _ & Hin).
  rewrite Hloop in Hloop'. injection Hloop' as <-.
  pose proof (turn_elem _ _ _ _ _ Hturn) as Hp.
  destruct (Hin p Hp) as (sq & Hturn' & Hres).
  rewrite (turn_unique _ _ _ _ _ _ Hnd Hturn' Hturn), Hdel in Hres.
  destruct Hres as [Hget Hlog].
  apply Hmem in Hp as (info & Hinfo & Harr).
  exists (parcels s'), info. rewrite Hrun. simpl.
  split_and!; [done|by apply Hlogs|congruence|done].
Qed.


(** C5, as stated, fails: the scan finds the parcel [p] arrived, at its
    turn [delete_parcel] raises a connectivity error, the sync goes on and
    logs the failure, and [p] is in the map it returns. *)
Lemma sync_keeps_parcel_after_failed_deletion :
  let self := MoreExamples.arrived_then_outage in
  let s2 := (scan_parcels self).2 in
  let r := get_parcels self in
  (scan_parcels self).1 = Returned ["p"] ∧
  turn cleanup_parcel ["p"] s2 "p" s2 ∧
  (delete_parcel "p" (logged_deleting "p" s2)).1
    = Raised (StoreError ConnectivityError) ∧
  LogError (MsgFailedToDelete "p" (StoreError ConnectivityError))
    ∈ logged_since self r.2 ∧
  ∃ m, r.1 = Returned m ∧
       PyDict.get "p" m =
         Some {| current_position := "m"; destination := Some "m" |}.
Proof.
  split_and!.
  - by vm_compute.
  - apply turn_head.
  - by vm_compute.
  - compute_done.
  - eexists. split; by vm_compute.
Qed.


Lemma sync_failed_deletion_witness :
  ∃ m info,
    (get_parcels MoreExamples.arrived_then_outage).1 = Returned m ∧
    PyDict.get "p" m = Some info ∧ arrived info = true.
Proof.
  destruct (sync_failed_deletion MoreExamples.arrived_then_outage
              ["p"] (scan_parcels MoreExamples.arrived_then_outage).2
              "p" (scan_parcels MoreExamples.arrived_then_outage).2
              (StoreError ConnectivityError))
    as (m & info & Hrun & _ & Hget & Harr).
  - by vm_compute.
  - apply turn_head.
  - by vm_compute.
  - by exists m, info.
Defined.

(** * [find_path]: the endpoints *)

Lemma lift_run {A} (o : outcome A) self : lift o self = (o, self).
Proof. done. Qed.

Lemma printed_since_one self l :
  printed_since self (with_stdout (stdout self ++ [l]) self) = [l].
Proof. unfold printed_since. simpl. apply drop_app_length. Qed.

Lemma printed_since_none self : printed_since self self = [].
Proof. unfold printed_since. apply drop_all. Qed.

(** The value returned with the line "No path found ..." is [None]. *)
Lemma find_path_no_path_value self S T :
  PrintNoPath S T ∈ printed_since self (find_path S T self).2 →
  (find_path S T self).1 = Returned None.
Proof.
  assert (∃ o self', find_path S T self = (o, self') ∧
            (PrintNoPath S T ∈ printed_since self self' → o = Returned None))
    as (o & self' & -> & H); [|done].
  assert (∀ o : outcome (option (list string)),
            PrintNoPath S T ∈ printed_since self self → o = Returned None)
    as Hnone.
  { intros o. rewrite printed_since_none. by intros ?%elem_of_nil. }
  unfold find_path. erewrite bind_returned by reflexivity. cbv zeta.
  repeat case_decide.
  - eexists _, _. split; [reflexivity|]. apply Hnone.
  - unfold bind at 1. rewrite lift_run.
    match goal with
    | |- context [dijkstra ?f ?g ?t ?s0] =>
        destruct (dijkstra f g t s0) as [s|e|]
    end; [|eexists _, _; split; [reflexivity|]; apply Hnone..].
    destruct (distances s !! T) as [[d|]|].
    + unfold bind at 1. rewrite lift_run.
      match goal with
      | |- context [walk_back ?f ?p ?c ?l] =>
          destruct (walk_back f p c l) as [path|e|]
      end; [|eexists _, _; split; [reflexivity|]; apply Hnone..].
      eexists _, _. split; [reflexivity|].
      rewrite printed_since_one. by intros ?%list_elem_of_singleton.
    + eexists _, _. split; [reflexivity|]. done.
    + eexists _, _. split; [reflexivity|]. apply Hnone.
  - eexists _, _. split; [reflexivity|].
    rewrite printed_since_one. by intros ?%list_elem_of_singleton.
  - eexists _, _. split; [reflexivity|].
    rewrite printed_since_one. by intros ?%list_elem_of_singleton.
Qed.

(** C3, amended.  With an identifier absent from the adjacency model as
    start or as target, [find_path] prints "Start module ... not found" or
    "Target module ... not found" and returns [None]; [None] is also the
    value it returns with the line "No path found", so the returned value
    does not tell an unknown module from a missing path: only the printed
    line does. *)
Theorem find_path_unknown_module (self : FlexConveyorSystem) (X Y : string) :
  X ∉ PyDict.keys (adjacency_matrix self) →
  find_path X Y self =
    (Returned None, with_stdout (stdout self ++ [PrintStartNotFound X]) self) ∧
  (Y ∈ PyDict.keys (adjacency_matrix self) →
   find_path Y X self =
     (Returned None,
      with_stdout (stdout self ++ [PrintTargetNotFound X]) self)) ∧
  (∀ S T, PrintNoPath S T ∈ printed_since self (find_path S T self).2 →
          (find_path S T self).1 = Returned None).
Proof.
  intros HX. split_and!.
  - unfold find_path. erewrite bind_returned by reflexivity. cbv zeta.
    by rewrite decide_False.
  - intros HY. unfold find_path. erewrite bind_returned by reflexivity.
    cbv zeta. by rewrite decide_True, decide_False.
  - intros S T. apply find_path_no_path_value.
Qed.

Lemma find_path_unknown_module_witness :
  (find_path "module9" "module1" (Examples.system_of Examples.ring [] [])).1
    = Returned None.
Proof.
  pose proof (find_path_unknown_module
                (Examples.system_of Examples.ring [] []) "module9" "module1")
    as [H _]; [compute_done|].
  by rewrite H.
Defined.

(** C3, as stated, fails: in the model [A -> B] the identifier [X] is
    unknown and [A] cannot be reached from [B], and [find_path] returns the
    same value for both requests. *)
Lemma find_path_unknown_module_same_as_no_path :
  let self :=
    Examples.system_of
      [("A", [None; Some "B"; None; None]); ("B", [None; None; None; None])]
      [] [] in
  ("X" ∉ PyDict.keys (adjacency_matrix self)) ∧
  "A" ∈ PyDict.keys (adjacency_matrix self) ∧
  "B" ∈ PyDict.keys (adjacency_matrix self) ∧
  (find_path "X" "A" self).1 = (find_path "B" "A" self).1 ∧
  (find_path "B" "X" self).1 = (find_path "B" "A" self).1 ∧
  printed_since self (find_path "B" "A" self).2 = [PrintNoPath "B" "A"].
Proof. cbv zeta. split_and!; compute_done. Qed.

(** * The priority queue *)

Lemma smallest_elem best pq : smallest best pq ∈ best :: pq.
Proof.
  revert best. induction pq as [|e pq IH]; intros best; simpl; [left|].
  destruct (entry_lt e best).
  - right. apply IH.
  - specialize (IH best). apply elem_of_cons in IH as [->|?]; [left|].
    by do 2 right.
Qed.

Lemma entry_lt_false a b : entry_lt a b = false → b.1 ≤ a.1.
Proof.
  unfold entry_lt. intros [H1 _]%orb_false_iff.
  apply bool_decide_eq_false in H1. lia.
Qed.

Lemma entry_lt_true a b : entry_lt a b = true → a.1 ≤ b.1.
Proof.
  unfold entry_lt. intros [H1|[H1 _]%andb_true_iff]%orb_true_iff.
  - apply bool_decide_eq_true in H1. lia.
  - apply bool_decide_eq_true in H1. lia.
Qed.

Lemma smallest_least best pq x :
  x ∈ best :: pq → (smallest best pq).1 ≤ x.1.
Proof.
  revert best x. induction pq as [|e pq IH]; intros best x Hx; simpl.
  - apply list_elem_of_singleton in Hx as ->. done.
  - destruct (entry_lt e best) eqn:Hlt.
    + apply elem_of_cons in Hx as [->|Hx].
      * etrans; [apply IH; left|]. by apply entry_lt_true.
      * by apply IH.
    + apply elem_of_cons in Hx as [->|[->|Hx]%elem_of_cons].
      * apply IH. left.
      * etrans; [apply IH; left|]. by apply entry_lt_false.
      * apply IH. by right.
Qed.

Lemma elem_of_remove_first e x pq :
  x ∈ remove_first e pq → x ∈ pq.
Proof.
  induction pq as [|e' pq IH]; simpl; [done|].
  case_decide; [by right|]. intros [->|?]%elem_of_cons; [left|right; auto].
Qed.

Lemma remove_first_other e x pq :
  x ∈ pq → x ≠ e → x ∈ remove_first e pq.
Proof.
  induction pq as [|e' pq IH]; simpl; [done|].
  intros [->|Hx]%elem_of_cons Hne.
  - rewrite decide_False by done. left.
  - case_decide; [done|]. right. auto.
Qed.

Lemma length_remove_first e pq :
  e ∈ pq → length pq = S (length (remove_first e pq)).
Proof.
  induction pq as [|e' pq IH]; simpl; [by intros ?%elem_of_nil|].
  intros Hin. case_decide as Heq; [done|]. simpl. f_equal. apply IH.
  apply elem_of_cons in Hin as [->|?]; done.
Qed.

Lemma heappop_None pq : heappop pq = None → pq = [].
Proof. by destruct pq. Qed.

Lemma heappop_Some pq m pq' :
  heappop pq = Some (m, pq') →
  m ∈ pq ∧ (∀ x, x ∈ pq → m.1 ≤ x.1) ∧
  (∀ x, x ∈ pq' → x ∈ pq) ∧ (∀ x, x ∈ pq → x ≠ m → x ∈ pq') ∧
  length pq = S (length pq').
Proof.
  destruct pq as [|e pq]; [done|].
  change (heappop (e :: pq))
    with (Some (smallest e pq, remove_first (smallest e pq) (e :: pq))).
  generalize (smallest_elem e pq) (smallest_least e pq).
  generalize (smallest e pq) (e :: pq).
  intros m0 l Hin Hleast [= <- <-].
  split_and!; [done|done| | |].
  - intros x. apply elem_of_remove_first.
  - intros x. apply remove_first_other.
  - by apply length_remove_first.
Qed.

(** * The search loop ends before its fuel does *)

Lemma unvisited_weight_cons_in (V : gset string) k es l :
  k ∈ V → unvisited_weight V ((k, es) :: l) = unvisited_weight V l.
Proof.
  intros Hin. unfold unvisited_weight. rewrite filter_cons_False; [done|].
  simpl. by intros Hn.
Qed.

Lemma unvisited_weight_cons_notin (V : gset string) k es l :
  k ∉ V →
  unvisited_weight V ((k, es) :: l) = S (length es) + unvisited_weight V l.
Proof.
  intros Hin. unfold unvisited_weight. by rewrite filter_cons_True.
Qed.

Lemma unvisited_weight_mono k V l :
  unvisited_weight ({[k]} ∪ V) l ≤ unvisited_weight V l.
Proof.
  induction l as [|[k' es'] l IH]; [done|].
  destruct (decide (k' ∈ V)) as [Hin|Hin].
  - rewrite !unvisited_weight_cons_in by set_solver. done.
  - rewrite (unvisited_weight_cons_notin V) by done.
    destruct (decide (k' = k)) as [->|Hne].
    + rewrite unvisited_weight_cons_in by set_solver. lia.
    + rewrite unvisited_weight_cons_notin by set_solver. lia.
Qed.

Lemma unvisited_weight_visit k es V l :
  (k, es) ∈ l → k ∉ V →
  unvisited_weight ({[k]} ∪ V) l + S (length es) ≤ unvisited_weight V l.
Proof.
  intros Hin Hk. induction l as [|[k' es'] l IH]; [by apply elem_of_nil in Hin|].
  apply elem_of_cons in Hin as [[= <- <-]|Hin].
  - pose proof (unvisited_weight_mono k V l) as Hm.
    rewrite unvisited_weight_cons_in by set_solver.
    rewrite unvisited_weight_cons_notin by done. lia.
  - specialize (IH Hin).
    destruct (decide (k' ∈ V)) as [Hin'|Hin'].
    + rewrite !unvisited_weight_cons_in by set_solver. done.
    + rewrite (unvisited_weight_cons_notin V) by done.
      destruct (decide (k' = k)) as [->|Hne].
      * rewrite unvisited_weight_cons_in by set_solver. lia.
      * rewrite unvisited_weight_cons_notin by set_solver. lia.
Qed.

Lemma relax_pushes cd cm s e s' :
  relax cd cm s e = Returned s' →
  visited s' = visited s ∧ length (pq s') ≤ S (length (pq s)).
Proof.
  unfold relax. case_decide; [intros [= <-]; split; [done|lia]|].
  destruct (distances s !! e.1) as [known|]; [|done].
  destruct (lt_distance (cd + e.2) known); intros [= <-]; simpl.
  - unfold heappush. rewrite length_app. simpl. split; [done|lia].
  - split; [done|lia].
Qed.

Lemma relax_all_pushes cd cm es s s' :
  relax_all cd cm es s = Returned s' →
  visited s' = visited s ∧ length (pq s') ≤ length (pq s) + length es.
Proof.
  revert s. induction es as [|e es IH]; intros s; simpl.
  - intros [= <-]. split; [done|lia].
  - destruct (relax cd cm s e) as [s1|?|] eqn:Hr; [|done..].
    apply relax_pushes in Hr as [Hv Hl].
    intros [Hv' Hl']%IH. split; [congruence|lia].
Qed.

Lemma dijkstra_within_fuel graph target fuel s :
  potential graph s < fuel → dijkstra fuel graph target s ≠ OutOfFuel.
Proof.
  revert s. induction fuel as [|fuel IH]; intros s Hfuel; [lia|].
  simpl. destruct (heappop (pq s)) as [[[d u] pq']|] eqn:Hpop; [|done].
  apply heappop_Some in Hpop as (_ & _ & _ & _ & Hlen).
  unfold potential in Hfuel.
  case_decide as Hu.
  - apply IH. unfold potential. simpl. lia.
  - case_decide; [done|].
    destruct (relax_all d u (default [] (graph !! u)) _) as [s2|e|] eqn:Hrel;
      [|done|].
    + apply IH. apply relax_all_pushes in Hrel as [Hv Hl]. simpl in *.
      unfold potential. rewrite Hv.
      destruct (graph !! u) as [es|] eqn:Hg; simpl in *.
      * pose proof (unvisited_weight_visit u es (visited s) (map_to_list graph))
          as Hw.
        rewrite elem_of_map_to_list in Hw. specialize (Hw Hg Hu). lia.
      * pose proof (unvisited_weight_mono u (visited s) (map_to_list graph)). lia.
    + exfalso. clear -Hrel.
      revert Hrel. generalize (default [] (graph !! u)).
      intros es. generalize {| distances := distances s; previous := previous s;
                               pq := pq'; visited := {[u]} ∪ visited s |}.
      induction es as [|e es IHes]; intros s0; simpl; [done|].
      destruct (relax d u s0 e) as [s1|?|] eqn:Hr; [apply IHes|done|].
      unfold relax in Hr. repeat case_match; done.
Qed.

Lemma relax_all_not_out_of_fuel cd cm es s :
  relax_all cd cm es s ≠ OutOfFuel.
Proof.
  revert s. induction es as [|e es IH]; intros s; simpl; [done|].
  destruct (relax cd cm s e) as [s1|?|] eqn:Hr; [apply IH|done|].
  unfold relax in Hr. repeat case_match; done.
Qed.

Lemma unvisited_weight_empty l :
  unvisited_weight ∅ l = sum_list ((λ kv, S (length kv.2)) <$> l).
Proof.
  induction l as [|[k es] l IH]; [done|].
  rewrite unvisited_weight_cons_notin by set_solver. rewrite IH. done.
Qed.

(** * The invariant of the search loop *)

Section SearchLoop.
Context (graph : gmap string (list (string * nat))).
Context (start : string) (K : gset string).
Hypothesis Hunit : unit_weights graph.

#[local] Abbreviation inv := (search_inv graph start K).

Lemma inv_weaken (R R' : string → string → Prop) s :
  inv R s → (∀ x y, g_edge graph x y → R' x y → R x y) → inv R' s.
Proof.
  intros [] HR. split; try done.
  intros u v d Hu HR' He Hd. eapply inv_relaxed0; eauto.
Qed.

(** A finite distance is the length of a walk from the start. *)
Lemma inv_sound R s v d :
  inv R s → distances s !! v = Some (Finite d) → g_walk graph start v d.
Proof.
  intros Hinv. revert v. induction d as [|d IH]; intros v Hd.
  - destruct (decide (v = start)) as [->|Hne]; [constructor|].
    destruct (inv_chain _ _ _ _ _ Hinv v 0 Hne Hd) as (u & d' & ? & _). lia.
  - destruct (decide (v = start)) as [->|Hne].
    + rewrite (inv_start _ _ _ _ _ Hinv) in Hd. done.
    + destruct (inv_chain _ _ _ _ _ Hinv v (S d) Hne Hd)
        as (u & d' & [= <-] & _ & _ & Hu & He).
      econstructor; [by apply IH|done].
Qed.

(** The entry popped for a module not yet visited carries its distance. *)
Lemma pop_known R s d u pq' :
  inv R s → heappop (pq s) = Some ((d, u), pq') → u ∉ visited s →
  distances s !! u = Some (Finite d).
Proof.
  intros Hinv (Hin & Hleast & _)%heappop_Some Hu.
  destruct (inv_pq_bound _ _ _ _ _ Hinv d u Hin) as (d' & Hd' & Hle).
  pose proof (inv_pq_has _ _ _ _ _ Hinv u d' Hd' Hu) as Hin'.
  apply Hleast in Hin'. simpl in Hin'.
  rewrite Hd'. do 2 f_equal. lia.
Qed.

(** A walk that leaves the visited set has an edge across its border. *)
Lemma walk_crosses (V : gset string) w n :
  g_walk graph start w n → start ∈ V → w ∉ V →
  ∃ x y i, g_walk graph start x i ∧ g_edge graph x y ∧
           x ∈ V ∧ (y ∉ V) ∧ S i ≤ n.
Proof.
  intros Hwalk Hs. induction Hwalk as [|v w n Hwalk IH He]; intros Hw; [done|].
  destruct (decide (v ∈ V)) as [Hv|Hv].
  - exists v, w, n. by split_and!.
  - destruct (IH Hv) as (x & y & i & ? & ? & ? & ? & ?).
    exists x, y, i. split_and!; [done..|lia].
Qed.

(** ... and that distance is the least number of edges from the start. *)
Lemma pop_optimal s d u pq' n :
  inv (λ _ _, True) s → heappop (pq s) = Some ((d, u), pq') →
  u ∉ visited s → g_walk graph start u n → d ≤ n.
Proof.
  intros Hinv (Hin & Hleast & _)%heappop_Some Hu Hwalk.
  destruct (decide (start ∈ visited s)) as [Hs|Hs].
  - destruct (walk_crosses (visited s) u n Hwalk Hs Hu)
      as (x & y & i & Hx & He & HxV & HyV & Hi).
    destruct (inv_visited _ _ _ _ _ Hinv x HxV) as (dx & Hdx).
    pose proof (inv_optimal _ _ _ _ _ Hinv x dx i HxV Hdx Hx) as Hopt.
    destruct (inv_relaxed _ _ _ _ _ Hinv x y dx HxV I He Hdx) as (dy & Hdy & Hle).
    pose proof (inv_pq_has _ _ _ _ _ Hinv y dy Hdy HyV) as Hiny.
    apply Hleast in Hiny. simpl in Hiny. lia.
  - pose proof (inv_pq_has _ _ _ _ _ Hinv start 0
                  (inv_start _ _ _ _ _ Hinv) Hs) as Hin0.
    apply Hleast in Hin0. simpl in Hin0. lia.
Qed.

(** Popping an entry of a visited module changes the queue only. *)
Lemma inv_pop_visited R s d u pq' :
  inv R s → heappop (pq s) = Some ((d, u), pq') → u ∈ visited s →
  inv R {| distances := distances s; previous := previous s;
           pq := pq'; visited := visited s |}.
Proof.
  intros [] (Hin & Hleast & Hsub & Hkeep & _)%heappop_Some Hu.
  split; simpl; try done.
  - intros d0 v Hv. apply inv_pq_bound0. by apply Hsub.
  - intros v d0 Hd0 Hv. apply Hkeep; [by apply inv_pq_has0|].
    intros [= -> ->]. done.
Qed.

(** Visiting the popped module: all that is left to do is scan its edges. *)
Lemma inv_pop_unvisited s d u pq' :
  inv (λ _ _, True) s → heappop (pq s) = Some ((d, u), pq') →
  u ∉ visited s →
  inv (λ x _, x ≠ u)
    {| distances := distances s; previous := previous s;
       pq := pq'; visited := {[u]} ∪ visited s |}.
Proof.
  intros Hinv Hpop Hu.
  pose proof (pop_known _ _ _ _ _ Hinv Hpop Hu) as Hd.
  pose proof (λ n, pop_optimal _ _ _ _ n Hinv Hpop Hu) as Hopt.
  destruct Hinv. apply heappop_Some in Hpop as (Hin & Hleast & Hsub & Hkeep & _).
  split; simpl; try done.
  - intros v d0 Hne Hd0.
    destruct (inv_chain0 v d0 Hne Hd0) as (x & d' & ? & ? & ? & ? & ?).
    exists x, d'. split_and!; [done..|set_solver|done|done].
  - intros x [->%elem_of_singleton|Hx]%elem_of_union; eauto.
  - intros x d0 n [->%elem_of_singleton|Hx]%elem_of_union Hd0 Hwalk.
    + rewrite Hd in Hd0. injection Hd0 as <-. by apply Hopt.
    + by eapply inv_optimal0.
  - intros x y d0 [->%elem_of_singleton|Hx]%elem_of_union Hne He Hd0; [done|].
    by eapply inv_relaxed0.
  - intros d0 v Hv. apply inv_pq_bound0. by apply Hsub.
  - intros v d0 Hd0 Hv. apply Hkeep; [apply inv_pq_has0; [done|set_solver]|].
    intros [= -> ->]. set_solver.
Qed.

(** Scanning one edge [u -> v] of the module [u] just visited. *)
Lemma inv_relax (scanned : list string) s du u v w :
  inv (λ x y, x ≠ u ∨ y ∈ scanned) s →
  u ∈ visited s → distances s !! u = Some (Finite du) →
  g_edge graph u v → w = 1 →
  match relax du u s (v, w) with
  | Returned s' =>
      inv (λ x y, x ≠ u ∨ y ∈ v :: scanned) s' ∧
      visited s' = visited s ∧ distances s' !! u = Some (Finite du)
  | Raised _ => v ∉ K
  | OutOfFuel => False
  end.
Proof.
  intros Hinv Hu Hdu He ->. unfold relax. simpl.
  pose proof (inv_sound _ s u du Hinv Hdu) as Hwalk.
  assert (∀ x y, x ≠ u ∨ y ∈ v :: scanned →
                 (x ≠ u ∨ y ∈ scanned) ∨ (x = u ∧ y = v)) as HR.
  { intros x y [?|[->|?]%elem_of_cons]; auto.
    destruct (decide (x = u)); auto. }
  case_decide as Hv.
  { (* the neighbour is already visited *)
    split_and!; [|done..]. destruct Hinv. split; try done.
    intros x y dx Hx [HR'|[-> ->]]%HR Hxy Hdx; [by eapply inv_relaxed0|].
    destruct (inv_visited0 v Hv) as (dv & Hdv). exists dv. split; [done|].
    rewrite Hdu in Hdx. injection Hdx as <-.
    apply (inv_optimal0 v dv (S du) Hv Hdv).
    by econstructor. }
  destruct (distances s !! v) as [known|] eqn:Hknown.
  2:{ rewrite <-(inv_dom _ _ _ _ _ Hinv). by apply not_elem_of_dom. }
  destruct (lt_distance (du + 1) known) eqn:Hlt.
  2:{ (* no improvement *)
    split_and!; [|done..]. destruct Hinv. split; try done.
    intros x y dx Hx [HR'|[-> ->]]%HR Hxy Hdx; [by eapply inv_relaxed0|].
    rewrite Hdu in Hdx. injection Hdx as <-.
    destruct known as [dv|]; [|done]. exists dv. split; [done|].
    unfold lt_distance in Hlt. apply bool_decide_eq_false in Hlt. lia. }
  (* the distance of the neighbour improves *)
  assert (v ≠ start) as Hvs.
  { intros ->. rewrite (inv_start _ _ _ _ _ Hinv) in Hknown.
    injection Hknown as <-. unfold lt_distance in Hlt.
    apply bool_decide_eq_true in Hlt. lia. }
  assert (u ≠ v) as Huv by (intros ->; done).
  assert (∀ dv, known = Finite dv → S du < dv) as Hless.
  { intros dv ->. unfold lt_distance in Hlt.
    apply bool_decide_eq_true in Hlt. lia. }
  replace (du + 1) with (S du) by lia.
  split_and!; simpl; [|done|by rewrite lookup_insert_ne].
  destruct Hinv. split; simpl.
  - rewrite dom_insert_L, <-inv_dom0.
    assert (v ∈ dom (distances s)) by (apply elem_of_dom; eauto). set_solver.
  - by rewrite lookup_insert_ne.
  - by rewrite lookup_insert_ne.
  - intros v0 d0 Hne Hd0. destruct (decide (v0 = v)) as [->|Hv0].
    + rewrite lookup_insert_eq in Hd0. injection Hd0 as <-.
      exists u, du. rewrite lookup_insert_eq, lookup_insert_ne by done.
      by split_and!.
    + rewrite lookup_insert_ne in Hd0 by done.
      destruct (inv_chain0 v0 d0 Hne Hd0) as (x & d' & ? & ? & Hx & ? & ?).
      exists x, d'. rewrite !lookup_insert_ne by (try done; intros ->; done).
      by split_and!.
  - intros x Hx. rewrite lookup_insert_ne by (intros ->; done).
    by apply inv_visited0.
  - intros x dx n Hx. rewrite lookup_insert_ne by (intros ->; done).
    by apply inv_optimal0.
  - intros x y dx Hx HR' Hxy. rewrite lookup_insert_ne by (intros ->; done).
    intros Hdx. destruct (decide (y = v)) as [->|Hyv].
    + rewrite lookup_insert_eq. exists (S du). split; [done|].
      destruct (decide (x = u)) as [->|Hxu].
      * rewrite Hdu in Hdx. injection Hdx as <-. done.
      * destruct (inv_relaxed0 x v dx Hx (or_introl Hxu) Hxy Hdx)
          as (dv & Hdv & Hle).
        rewrite Hknown in Hdv. injection Hdv as ->.
        specialize (Hless dv eq_refl). lia.
    + rewrite lookup_insert_ne by done.
      apply HR in HR' as [HR'|[_ ->]]; [|done]. by eapply inv_relaxed0.
  - intros d0 v0 [Hin|[= -> ->]%list_elem_of_singleton]%elem_of_app.
    + destruct (inv_pq_bound0 d0 v0 Hin) as (d' & Hd' & Hle).
      destruct (decide (v0 = v)) as [->|Hv0].
      * rewrite lookup_insert_eq. exists (S du). split; [done|].
        rewrite Hknown in Hd'. injection Hd' as ->.
        specialize (Hless d' eq_refl). lia.
      * rewrite lookup_insert_ne by done. eauto.
    + rewrite lookup_insert_eq. eauto.
  - intros v0 d0 Hd0 Hv0. unfold heappush. apply elem_of_app.
    destruct (decide (v0 = v)) as [->|Hne].
    + rewrite lookup_insert_eq in Hd0. injection Hd0 as <-.
      right. by apply list_elem_of_singleton.
    + rewrite lookup_insert_ne in Hd0 by done. left. by apply inv_pq_has0.
Qed.

(** Scanning the edges of the module just visited, one after the other. *)
Lemma inv_relax_all es (scanned : list string) s du u :
  inv (λ x y, x ≠ u ∨ y ∈ scanned) s →
  u ∈ visited s → distances s !! u = Some (Finite du) →
  (∀ e, e ∈ es → g_edge graph u e.1 ∧ e.2 = 1) →
  match relax_all du u es s with
  | Returned s' =>
      inv (λ x y, x ≠ u ∨ y ∈ scanned ∨ y ∈ es.*1) s' ∧
      visited s' = visited s
  | Raised _ => ∃ v, g_edge graph u v ∧ v ∉ K
  | OutOfFuel => False
  end.
Proof.
  revert scanned s. induction es as [|[v w] es IH]; intros scanned s Hinv Hu Hdu Hes.
  - simpl. split; [|done]. eapply inv_weaken; [done|].
    intros x y _ [?|[?|?%elem_of_nil]]; auto.
  - simpl. destruct (Hes (v, w)) as [He Hw]; [left|]. simpl in He, Hw.
    pose proof (inv_relax scanned s du u v w Hinv Hu Hdu He Hw) as Hstep.
    destruct (relax du u s (v, w)) as [s1|e|]; [|eauto|done].
    destruct Hstep as (Hinv1 & Hv1 & Hdu1).
    specialize (IH (v :: scanned) s1 Hinv1).
    rewrite Hv1 in IH. specialize (IH Hu Hdu1).
    destruct (relax_all du u es s1) as [s2|e|]; [|by apply IH; set_solver..].
    destruct IH as [Hinv2 Hv2]; [set_solver|].
    split; [|congruence]. eapply inv_weaken; [done|].
    intros x y _ [?|[?|[->|?]%elem_of_cons]]; set_solver.
Qed.

(** With an empty queue every module that can be reached is visited. *)
Lemma empty_queue_visited s v n :
  inv (λ _ _, True) s → pq s = [] → g_walk graph start v n → v ∈ visited s.
Proof.
  intros Hinv Hpq Hwalk.
  assert (∀ x d, distances s !! x = Some (Finite d) → x ∈ visited s) as Hfin.
  { intros x d Hd. destruct (decide (x ∈ visited s)) as [|Hx]; [done|].
    pose proof (inv_pq_has _ _ _ _ _ Hinv x d Hd Hx) as Hin.
    rewrite Hpq in Hin. by apply elem_of_nil in Hin. }
  induction Hwalk as [|x y n Hwalk IH He].
  - eapply Hfin, inv_start, Hinv.
  - destruct (inv_visited _ _ _ _ _ Hinv x IH) as (dx & Hdx).
    destruct (inv_relaxed _ _ _ _ _ Hinv x y dx IH I He Hdx) as (dy & Hdy & _).
    by eapply Hfin.
Qed.

(** The loop: when it returns, the distance of the target is the least
    number of edges from the start, or infinite when there is no walk; it
    raises only on an edge that leaves the set of modules. *)
Lemma dijkstra_inv fuel target s :
  inv (λ _ _, True) s → target ∈ K → target ∉ visited s →
  match dijkstra fuel graph target s with
  | Returned s' =>
      ∃ R, inv R s' ∧
        ((∃ d, distances s' !! target = Some (Finite d) ∧
               ∀ n, g_walk graph start target n → d ≤ n) ∨
         (distances s' !! target = Some Infinity ∧
          ∀ n, ¬ g_walk graph start target n))
  | Raised _ => ∃ u v, g_edge graph u v ∧ v ∉ K
  | OutOfFuel => True
  end.
Proof.
  intros Hinv HtK. revert s Hinv.
  induction fuel as [|fuel IH]; intros s Hinv Ht; [done|].
  simpl. destruct (heappop (pq s)) as [[[d u] pq']|] eqn:Hpop.
  - case_decide as Hu.
    { apply IH; [|done]. by eapply inv_pop_visited. }
    pose proof (inv_pop_unvisited _ _ _ _ Hinv Hpop Hu) as Hinv1.
    pose proof (pop_known _ _ _ _ _ Hinv Hpop Hu) as Hd.
    case_decide as Hut.
    { subst u. eexists. split; [exact Hinv1|]. left. exists d. split; [done|].
      intros n. by eapply pop_optimal. }
    set (s1 := {| distances := distances s; previous := previous s;
                  pq := pq'; visited := {[u]} ∪ visited s |}) in *.
    set (es := default [] (graph !! u)).
    assert (∀ e, e ∈ es → g_edge graph u e.1 ∧ e.2 = 1) as Hes.
    { intros [v w] Hin. unfold es in Hin.
      destruct (graph !! u) as [es'|] eqn:Hg; [|by apply elem_of_nil in Hin].
      simpl in *. split; [by exists es', w|by eapply Hunit]. }
    pose proof (inv_relax_all es [] s1 d u) as Hrel.
    destruct (relax_all d u es s1) as [s2|e|].
    + destruct Hrel as [Hinv2 Hv2]; [|set_solver|done|done|].
      { eapply inv_weaken; [exact Hinv1|]. by intros x y _ [?|?%elem_of_nil]. }
      apply IH; [|rewrite Hv2; set_solver].
      eapply inv_weaken; [exact Hinv2|].
      intros x y (es' & w & Hg & Hin) _.
      destruct (decide (x = u)) as [->|]; [|by left].
      right. right. unfold es. rewrite Hg. simpl.
      apply list_elem_of_fmap. by exists (y, w).
    + destruct Hrel as (v & He & Hv); [|set_solver|done|done|by eauto].
      eapply inv_weaken; [exact Hinv1|]. by intros x y _ [?|?%elem_of_nil].
    + destruct Hrel; [|set_solver|done|done].
      eapply inv_weaken; [exact Hinv1|]. by intros x y _ [?|?%elem_of_nil].
  - apply heappop_None in Hpop. eexists. split; [exact Hinv|]. right.
    assert (∀ n, ¬ g_walk graph start target n) as Hno.
    { intros n Hwalk. apply Ht. by eapply empty_queue_visited. }
    split; [|done].
    assert (is_Some (distances s !! target)) as [[d|] Hd]; [|exfalso|done].
    { apply elem_of_dom. by rewrite (inv_dom _ _ _ _ _ Hinv). }
    pose proof (inv_pq_has _ _ _ _ _ Hinv target d Hd Ht) as Hin.
    rewrite Hpop in Hin. by apply elem_of_nil in Hin.
Qed.

Lemma is_g_path_snoc l u v :
  is_g_path graph l → last l = Some u → g_edge graph u v →
  is_g_path graph (l ++ [v]).
Proof.
  induction l as [|x [|y l] IH]; simpl; [done|..].
  - by intros _ [= ->] He.
  - intros [Hxy Hpath] Hlast He. split; [done|]. by apply IH.
Qed.

(** Walking back from a module of finite distance [d] collects the [d + 1]
    modules of a path from the start, last one first. *)
Lemma walk_back_chain R s d v acc :
  inv R s → distances s !! v = Some (Finite d) →
  ∃ chain,
    walk_back (S d) (previous s) (Some v) acc = Returned (acc ++ chain) ∧
    length chain = S d ∧ head chain = Some v ∧ last chain = Some start ∧
    is_g_path graph (reverse chain).
Proof.
  intros Hinv. revert v acc. induction d as [|d IH]; intros v acc Hd.
  - assert (v = start) as ->.
    { destruct (decide (v = start)) as [|Hne]; [done|].
      destruct (inv_chain _ _ _ _ _ Hinv v 0 Hne Hd) as (u & d' & ? & _). lia. }
    exists [start]. simpl. by rewrite (inv_previous_start _ _ _ _ _ Hinv).
  - assert (v ≠ start) as Hne.
    { intros ->. rewrite (inv_start _ _ _ _ _ Hinv) in Hd. done. }
    destruct (inv_chain _ _ _ _ _ Hinv v (S d) Hne Hd)
      as (u & d' & [= <-] & Hprev & _ & Hu & He).
    destruct (IH u (acc ++ [v]) Hu) as (chain & Hrun & Hlen & Hhd & Hlast & Hpath).
    exists (v :: chain).
    change (walk_back (S (S d)) (previous s) (Some v) acc)
      with (match previous s !! v with
            | None => Raised (KeyError v)
            | Some p => walk_back (S d) (previous s) p (acc ++ [v])
            end).
    rewrite Hprev, Hrun, <-app_assoc. split_and!; [done|simpl; lia|done|..].
    + destruct chain; [done|]. done.
    + rewrite reverse_cons. eapply is_g_path_snoc; [done| |done].
      by rewrite last_reverse.
Qed.
End SearchLoop.

(** * From the adjacency model to the edge lists *)

Lemma elem_of_neighbours v w connections :
  (v, w) ∈ neighbours connections ↔ Some v ∈ connections ∧ w = 1.
Proof.
  unfold neighbours. rewrite list_elem_of_omap. split.
  - intros ([m|] & Hin & Hm); simpl in Hm; [|done].
    injection Hm as <- <-. done.
  - intros [Hin ->]. by exists (Some v).
Qed.

Lemma build_graph_values adj u es :
  build_graph adj !! u = Some es → ∃ connections, es = neighbours connections.
Proof.
  unfold build_graph.
  assert (∀ m : gmap string (list (string * nat)),
            (∀ k x, m !! k = Some x → ∃ c, x = neighbours c) →
            foldl (λ graph (item : string * list (option string)),
                     <[item.1 := neighbours item.2]> graph) m adj !! u = Some es →
            ∃ c, es = neighbours c) as H.
  { induction adj as [|[k c] adj IH]; intros m Hm; simpl; [apply Hm|].
    apply IH. intros k' x. destruct (decide (k = k')) as [->|Hne].
    - rewrite lookup_insert_eq. intros [= <-]. eauto.
    - rewrite lookup_insert_ne by done. apply Hm. }
  apply H. intros k x. by rewrite lookup_empty.
Qed.

Lemma build_graph_unit_weights adj : unit_weights (build_graph adj).
Proof.
  intros u es v w [c ->]%build_graph_values Hin.
  by apply elem_of_neighbours in Hin as [_ ->].
Qed.

Lemma build_graph_lookup adj u :
  PyDict.wf adj →
  build_graph adj !! u = neighbours <$> PyDict.get u adj.
Proof.
  unfold build_graph, PyDict.wf, PyDict.keys.
  assert (∀ m : gmap string (list (string * nat)),
            NoDup adj.*1 →
            foldl (λ graph (item : string * list (option string)),
                     <[item.1 := neighbours item.2]> graph) m adj !! u =
            match PyDict.get u adj with
            | Some c => Some (neighbours c)
            | None => m !! u
            end) as H.
  { induction adj as [|[k c] adj IH]; intros m Hnd; simpl; [done|].
    apply NoDup_cons in Hnd as [Hk Hnd]. rewrite IH by done.
    case_decide as Hku.
    - subst k. rewrite (proj2 (get_None u adj)) by done.
      by rewrite lookup_insert_eq.
    - by rewrite lookup_insert_ne. }
  intros Hnd. rewrite H by done.
  by destruct (PyDict.get u adj).
Qed.

Lemma g_edge_edge adj u v :
  PyDict.wf adj → g_edge (build_graph adj) u v ↔ edge adj u v.
Proof.
  intros Hwf. unfold g_edge, edge. rewrite build_graph_lookup by done. split.
  - intros (es & w & Hes & Hin).
    destruct (PyDict.get u adj) as [c|]; [|done]. injection Hes as <-.
    apply elem_of_neighbours in Hin as [Hin _]. eauto.
  - intros (c & -> & Hin). exists (neighbours c), 1.
    split; [done|]. by apply elem_of_neighbours.
Qed.

Lemma g_walk_walk adj u v n :
  PyDict.wf adj → g_walk (build_graph adj) u v n ↔ walk adj u v n.
Proof.
  intros Hwf. split.
  - induction 1 as [|x y n _ IH He]; [constructor|].
    econstructor; [done|]. by apply g_edge_edge.
  - induction 1 as [|x y n _ IH He]; [constructor|].
    econstructor; [done|]. by apply g_edge_edge.
Qed.

Lemma is_g_path_is_path adj l :
  PyDict.wf adj → is_g_path (build_graph adj) l ↔ is_path adj l.
Proof.
  intros Hwf. induction l as [|x [|y l] IH]; simpl; [done..|].
  simpl in IH. by rewrite IH, g_edge_edge.
Qed.

(** The dictionary comprehensions [{module: x for module in modules}]. *)
Lemma lookup_constant_map {A} (x : A) (l : list string) k :
  (list_to_map ((λ m, (m, x)) <$> l) : gmap string A) !! k =
  if decide (k ∈ l) then Some x else None.
Proof.
  induction l as [|m l IH].
  - rewrite fmap_nil, list_to_map_nil, lookup_empty.
    by destruct (decide (k ∈ [])) as [?%elem_of_nil|].
  - rewrite fmap_cons, list_to_map_cons.
    destruct (decide (m = k)) as [->|Hne].
    + rewrite lookup_insert_eq. by rewrite decide_True by left.
    + rewrite lookup_insert_ne by done. rewrite IH.
      destruct (decide (k ∈ l)).
      * by rewrite decide_True by by right.
      * rewrite decide_False; [done|]. rewrite not_elem_of_cons. naive_solver.
Qed.

(** The variables of [find_path] on entry to the loop. *)
Lemma initial_inv adj S :
  S ∈ PyDict.keys adj →
  search_inv (build_graph adj) S (list_to_set (PyDict.keys adj)) (λ _ _, True)
    {| distances :=
         <[S := Finite 0]>
           (list_to_map ((λ m, (m, Infinity)) <$> PyDict.keys adj));
       previous := list_to_map ((λ m, (m, None)) <$> PyDict.keys adj);
       pq := [(0, S)];
       visited := ∅ |}.
Proof.
  intros HS.
  assert (∀ v d,
    (<[S := Finite 0]>
       (list_to_map ((λ m, (m, Infinity)) <$> PyDict.keys adj))
     : gmap string distance) !! v = Some (Finite d) → v = S ∧ d = 0) as Hfin.
  { intros v d. destruct (decide (S = v)) as [->|Hne].
    - rewrite lookup_insert_eq. by intros [= <-].
    - rewrite lookup_insert_ne by done. rewrite lookup_constant_map.
      by case_decide. }
  split; simpl.
  - apply set_eq. intros k. rewrite elem_of_dom, elem_of_list_to_set.
    destruct (decide (S = k)) as [->|Hne].
    + rewrite lookup_insert_eq. naive_solver.
    + rewrite lookup_insert_ne by done. rewrite lookup_constant_map.
      case_decide; [naive_solver|]. split; [by intros [? ?]|done].
  - by rewrite lookup_insert_eq.
  - rewrite lookup_constant_map. by rewrite decide_True.
  - intros v d Hne [? _]%Hfin. done.
  - intros u Hu. set_solver.
  - intros u d n Hu. set_solver.
  - intros u v d Hu. set_solver.
  - intros d v [= -> ->]%list_elem_of_singleton.
    rewrite lookup_insert_eq. eauto.
  - intros v d [-> ->]%Hfin _. left.
Qed.

(** * [find_path] *)

Lemma initial_potential graph S :
  potential graph
    {| distances := ∅; previous := ∅; pq := [(0, S)]; visited := ∅ |}
  < search_fuel graph.
Proof.
  unfold potential, search_fuel. simpl. rewrite unvisited_weight_empty. lia.
Qed.

Lemma is_path_walk adj l u v :
  is_path adj l → head l = Some u → last l = Some v →
  walk adj u v (length l - 1).
Proof.
  intros Hpath Hhd Hlast.
  assert (∀ k x, is_path adj (x :: k) → ∀ a n, walk adj a x n →
                 ∃ y, last (x :: k) = Some y ∧ walk adj a y (n + length k))
    as Hgen.
  { induction k as [|y k IH]; intros x Hp a n Hw.
    - exists x. simpl. by rewrite Nat.add_0_r.
    - destruct Hp as [He Hp].
      destruct (IH y Hp a (S n)) as (z & Hz & Hwz); [by econstructor|].
      exists z. split; [done|]. simpl in *.
      by replace (n + S (length k)) with (S (n + length k)) by lia. }
  destruct l as [|x k]; [done|]. injection Hhd as ->.
  destruct (Hgen k u Hpath u 0 (walk_here _ _)) as (y & Hy & Hw).
  rewrite Hlast in Hy. injection Hy as ->. simpl.
  by rewrite Nat.sub_0_r.
Qed.

(** How [find_path] ends between two different modules of a closed model:
    with a shortest path, or with [None] when there is no walk. *)
Lemma find_path_cases self S T :
  let adj := adjacency_matrix self in
  PyDict.wf adj → closed adj →
  S ∈ PyDict.keys adj → T ∈ PyDict.keys adj → S ≠ T →
  (∃ p d,
     find_path S T self =
       (Returned (Some p),
        with_stdout (stdout self ++ [PrintPathFound d (length p)]) self) ∧
     length p = Datatypes.S d ∧ head p = Some S ∧ last p = Some T ∧
     is_path adj p ∧ walk adj S T d ∧ ∀ n, walk adj S T n → d ≤ n) ∨
  (find_path S T self =
     (Returned None, with_stdout (stdout self ++ [PrintNoPath S T]) self) ∧
   ∀ n, ¬ walk adj S T n).
Proof.
  intros adj Hwf Hclosed HS HT Hne. unfold find_path.
  erewrite bind_returned by reflexivity. cbv zeta. fold adj.
  rewrite !decide_True by done. rewrite decide_False by done.
  set (graph := build_graph adj).
  set (K := list_to_set (PyDict.keys adj) : gset string).
  match goal with
  | |- context [dijkstra ?f graph T ?s] => set (s0 := s)
  end.
  pose proof (dijkstra_inv graph S K (build_graph_unit_weights adj)
                (search_fuel graph) T s0 (initial_inv adj S HS)) as Hpost.
  pose proof (dijkstra_within_fuel graph T (search_fuel graph) s0
                (initial_potential graph S)) as Hfuel.
  destruct (dijkstra (search_fuel graph) graph T s0) as [s'|e|] eqn:Hsearch;
    [| |done].
  - erewrite bind_returned by reflexivity.
    destruct Hpost as (R & Hinv & [(d & Hd & Hopt)|(Hd & Hno)]);
      [by apply elem_of_list_to_set|set_solver|..].
    + left. rewrite Hd.
      destruct (walk_back_chain graph S K R s' d T [] Hinv Hd)
        as (chain & Hrun & Hlen & Hhd & Hlast & Hpath).
      erewrite bind_returned by (unfold lift; by rewrite Hrun).
      simpl app. erewrite bind_returned by reflexivity.
      exists (reverse chain), d.
      assert (head (reverse chain) = Some S) as Hh
        by by rewrite head_reverse.
      assert (last (reverse chain) = Some T) as Hl
        by by rewrite last_reverse.
      assert (is_path adj (reverse chain)) as Hp
        by by apply is_g_path_is_path.
      split_and!; [done|by rewrite length_reverse|done|done|done|..].
      * apply g_walk_walk; [done|]. by eapply inv_sound.
      * intros n Hw. apply Hopt. by apply g_walk_walk.
    + right. rewrite Hd. erewrite bind_returned by reflexivity.
      split; [done|].
      intros n Hw. apply (Hno n). by apply g_walk_walk.
  - exfalso. destruct Hpost as (u & v & He & Hv);
      [by apply elem_of_list_to_set|set_solver|].
    apply Hv, elem_of_list_to_set, (Hclosed u). by apply g_edge_edge.
Qed.

(** In every adjacency model all of whose slots name modules of the model:
    for modules [S], [T] of the model with [T] reachable from [S],
    [find_path] returns a sequence that starts at [S], ends at [T], is a
    directed path of the model, and has as many edges as the shortest walk
    from [S] to [T]; and it returns [None] exactly when [T] cannot be
    reached from [S]. *)
Theorem find_path_shortest (self : FlexConveyorSystem) (S T : string) :
  let adj := adjacency_matrix self in
  PyDict.wf adj → closed adj →
  S ∈ PyDict.keys adj → T ∈ PyDict.keys adj →
  (reachable_from adj S T →
   ∃ p, (find_path S T self).1 = Returned (Some p) ∧
        head p = Some S ∧ last p = Some T ∧ is_path adj p ∧
        walk adj S T (length p - 1) ∧
        ∀ n, walk adj S T n → length p - 1 ≤ n) ∧
  ((find_path S T self).1 = Returned None ↔ ¬ reachable_from adj S T).
Proof.
  intros adj Hwf Hclosed HS HT.
  destruct (decide (S = T)) as [<-|Hne].
  - assert (find_path S S self = (Returned (Some [S]), self)) as ->.
    { unfold find_path. erewrite bind_returned by reflexivity. cbv zeta.
      fold adj. by rewrite !decide_True. }
    simpl. split.
    + intros _. exists [S]. simpl. split_and!; try done; [constructor|lia].
    + split; [done|]. intros Hno. destruct Hno. exists 0. constructor.
  - destruct (find_path_cases self S T Hwf Hclosed HS HT Hne)
      as [(p & d & -> & Hlen & Hhd & Hlast & Hpath & Hwalk & Hopt)|[-> Hno]];
      simpl; fold adj.
    + split.
      * intros _. exists p. rewrite Hlen. simpl. rewrite Nat.sub_0_r.
        by split_and!.
      * split; [done|]. intros Hunreach. destruct Hunreach. by exists d.
    + split.
      * intros [n Hw]. by destruct (Hno n).
      * split; [|done]. intros _ [n Hw]. by destruct (Hno n).
Qed.

Lemma closedb_closed adj : closedb adj = true → closed adj.
Proof.
  unfold closedb. rewrite forallb_forall.
  intros Hall u v (c & Hget%get_Some_elem & Hin).
  apply list_elem_of_In, Hall in Hget. simpl in Hget.
  rewrite forallb_forall in Hget.
  apply list_elem_of_In, Hget in Hin. by apply bool_decide_eq_true in Hin.
Qed.

(** The loops of [find_path] never run out of the fuel the model grants
    them: in every adjacency model and for every pair of identifiers,
    [find_path] returns or raises. *)
Theorem find_path_terminates (self : FlexConveyorSystem) (S T : string) :
  (find_path S T self).1 ≠ OutOfFuel.
Proof.
  unfold find_path. erewrite bind_returned by reflexivity. cbv zeta.
  set (adj := adjacency_matrix self).
  repeat case_decide; try done.
  set (graph := build_graph adj).
  set (K := list_to_set (PyDict.keys adj) : gset string).
  match goal with
  | |- context [dijkstra ?f graph T ?s] => set (s0 := s)
  end.
  pose proof (dijkstra_inv graph S K (build_graph_unit_weights adj)
                (search_fuel graph) T s0 (initial_inv adj S ltac:(done)))
    as Hpost.
  pose proof (dijkstra_within_fuel graph T (search_fuel graph) s0
                (initial_potential graph S)) as Hfuel.
  destruct (dijkstra (search_fuel graph) graph T s0) as [s'|e|]; [|done..].
  erewrite bind_returned by reflexivity.
  destruct Hpost as (R & Hinv & _); [by apply elem_of_list_to_set|set_solver|].
  destruct (distances s' !! T) as [[d|]|] eqn:Hd; [|done..].
  destruct (walk_back_chain graph S K R s' d T [] Hinv Hd) as (chain & Hrun & _).
  erewrite bind_returned by (unfold lift; by rewrite Hrun).
  by erewrite bind_returned by reflexivity.
Qed.

Lemma find_path_shortest_witness :
  ∃ p, (find_path "module1" "module3"
          (Examples.system_of Examples.ring [] [])).1 = Returned (Some p) ∧
       head p = Some "module1" ∧ last p = Some "module3" ∧
       length p - 1 = 2.
Proof.
  destruct (find_path_shortest (Examples.system_of Examples.ring [] [])
              "module1" "module3") as [H _].
  - compute_done.
  - apply closedb_closed. by vm_compute.
  - compute_done.
  - compute_done.
  - destruct H as (p & Hrun & Hhd & Hlast & _ & Hwalk & Hmin).
    + exists 2.
      apply (walk_edge _ _ "module2");
        [apply (walk_edge _ _ "module1"); [apply walk_here|]|]; compute_done.
    + exists p. split_and!; [done..|].
      assert (length p - 1 ≤ 2) as Hle.
      { apply Hmin.
        apply (walk_edge _ _ "module2");
          [apply (walk_edge _ _ "module1"); [apply walk_here|]|];
          compute_done. }
      vm_compute in Hrun. injection Hrun as <-. done.
Defined.

(** C1 at a model with a slot that names no module of the model:
    [A] has [X] to its north and [B] to its east, and [X] is not a module
    of the model.  [B] is one edge away from [A], and [find_path A B] raises
    [KeyError] instead of returning the path. *)
Lemma find_path_dangling_slot :
  let self :=
    Examples.system_of
      [("A", [Some "X"; Some "B"; None; None]);
       ("B", [None; None; None; None])] [] [] in
  "A" ∈ PyDict.keys (adjacency_matrix self) ∧
  "B" ∈ PyDict.keys (adjacency_matrix self) ∧
  walk (adjacency_matrix self) "A" "B" 1 ∧
  (find_path "A" "B" self).1 = Raised (KeyError "X").
Proof.
  cbv zeta. split_and!; [compute_done|compute_done| |by vm_compute].
  apply (walk_edge _ _ "A"); [apply walk_here|compute_done].
Qed.

(** * A sync on a reachable store *)

Lemma record_parcel_reachable module self :
  reachable (db self) →
  ∃ self',
    record_parcel module self = (Returned tt, self') ∧
    reachable (db self') ∧
    triples (db self') = triples (db self) ∧
    parcels self' = observe_module (triples (db self)) (parcels self) module.
Proof.
  intros Hr. unfold record_parcel, observe_module.
  erewrite bind_returned
    by (apply triples_get_answered; by apply reachable_answers).
  destruct (select (Some module) (Some Vocab.hasPossession) None
              (triples (db self))) as [|t l].
  - eexists. split; [reflexivity|]. simpl.
    split_and!; [by apply reachable_received|done..].
  - cbv zeta.
    erewrite bind_returned
      by (apply triples_get_answered; simpl;
          by apply reachable_answers, reachable_received).
    erewrite bind_returned by reflexivity.
    eexists. split; [reflexivity|]. simpl.
    split_and!; [by apply reachable_received, reachable_received|done..].
Qed.

Lemma build_loop_reachable modules self :
  reachable (db self) →
  ∃ self',
    for_each modules record_parcel self = (Returned tt, self') ∧
    reachable (db self') ∧
    triples (db self') = triples (db self) ∧
    parcels self' =
      foldl (observe_module (triples (db self))) (parcels self) modules.
Proof.
  revert self. induction modules as [|m modules IH]; intros self Hr; simpl.
  - by exists self.
  - destruct (record_parcel_reachable m self Hr) as (s1 & Hrun & Hr1 & Ht1 & Hp1).
    destruct (IH s1 Hr1) as (s2 & Hrun2 & Hr2 & Ht2 & Hp2).
    exists s2. erewrite bind_returned by exact Hrun.
    split_and!; [done|done|congruence|].
    by rewrite Hp2, Ht1, Hp1.
Qed.

Lemma remove_facts_nil ts : remove_facts [] ts = ts.
Proof.
  unfold remove_facts. induction ts as [|t ts IH]; [done|].
  rewrite filter_cons_True by apply not_elem_of_nil. by rewrite IH.
Qed.

Lemma cleanup_parcel_db p self :
  db (cleanup_parcel p self).2 =
  db (delete_parcel p
        (with_log (log self ++ [LogInfo (MsgDeleting p)]) self)).2.
Proof.
  unfold cleanup_parcel. erewrite bind_returned by reflexivity.
  unfold try_except, bind at 1.
  destruct (delete_parcel p _) as [[[]|e|] s2]; simpl; [|done..].
  unfold bind, logging_info, logging, read. simpl.
  by destruct (PyDict.mem p (parcels s2)).
Qed.

(** One turn of the third loop on a reachable store: whether the parcel is
    found or not, the facts that mention it are gone afterwards. *)
Lemma cleanup_parcel_reachable p self :
  reachable (db self) →
  let self' := (cleanup_parcel p self).2 in
  reachable (db self') ∧
  ∀ t, t ∈ triples (db self') ↔ t ∈ triples (db self) ∧ ¬ mentions p t.
Proof.
  intros Hr. cbv zeta. rewrite cleanup_parcel_db.
  set (s1 := with_log (log self ++ [LogInfo (MsgDeleting p)]) self).
  assert (reachable (db s1)) as Hr1 by done.
  change (triples (db self)) with (triples (db s1)).
  destruct (decide (facts_about p (triples (db s1)) = [])) as [Hnil|Hne].
  - rewrite delete_parcel_not_found by done. simpl.
    split; [by apply reachable_received, reachable_received|].
    intros t. apply facts_about_nil in Hnil. rewrite Forall_forall in Hnil.
    split; [|tauto]. intros Ht. split; [done|]. by apply Hnil.
  - rewrite delete_parcel_found by done. simpl.
    split; [by apply reachable_received, reachable_received,
              reachable_received|].
    intros t. rewrite elem_of_remove_facts, elem_of_facts_about. tauto.
Qed.

Lemma cleanup_loop_reachable l self :
  reachable (db self) →
  let self' := (for_each l cleanup_parcel self).2 in
  reachable (db self') ∧
  ∀ t, t ∈ triples (db self') ↔
       t ∈ triples (db self) ∧ ∀ q, q ∈ l → ¬ mentions q t.
Proof.
  revert self. induction l as [|p l IH]; intros self Hr; simpl.
  - split; [done|]. intros t. split; [|tauto].
    intros Ht. split; [done|]. by intros q ?%elem_of_nil.
  - destruct (cleanup_parcel_run p self) as (s1 & d1 & Hrun & _).
    destruct (cleanup_parcel_reachable p self Hr) as [Hr1 Ht1].
    rewrite Hrun in Hr1, Ht1. simpl in Hr1, Ht1.
    erewrite bind_returned by exact Hrun.
    destruct (IH s1 Hr1) as [Hr2 Ht2]. split; [done|].
    intros t. rewrite Ht2, Ht1. split.
    + intros [[Ht Hp] Hl]. split; [done|].
      intros q [->|Hq]%elem_of_cons; auto.
    + intros [Ht Hl]. split_and!; [done|..].
      * apply Hl. left.
      * intros q Hq. apply Hl. by right.
Qed.

(** A sync on a reachable store returns; the store is still reachable and
    has lost exactly the facts that mention a parcel found arrived; the map
    is the observed one without the arrived parcels that were deleted, and
    it keeps every parcel that has not arrived. *)
Lemma get_parcels_reachable self :
  reachable (db self) →
  let B := observe (triples (db self)) (PyDict.keys (adjacency_matrix self)) in
  ∃ self',
    get_parcels self = (Returned (parcels self'), self') ∧
    reachable (db self') ∧
    (∀ t, t ∈ triples (db self') ↔
          t ∈ triples (db self) ∧
          ∀ q, q ∈ arrived_parcels B → ¬ mentions q t) ∧
    (∀ q info, PyDict.get q (parcels self') = Some info →
               PyDict.get q B = Some info) ∧
    (∀ q info, PyDict.get q B = Some info → arrived info = false →
               PyDict.get q (parcels self') = Some info).
Proof.
  intros Hr B. unfold get_parcels.
  erewrite bind_returned by reflexivity.
  erewrite bind_returned by reflexivity.
  set (s0 := with_parcels [] self).
  destruct (build_loop_reachable (PyDict.keys (adjacency_matrix s0)) s0 Hr)
    as (s1 & Hbuild & Hr1 & Ht1 & Hp1).
  destruct (build_loop_facts (PyDict.keys (adjacency_matrix s0)) s0)
    as (_ & _ & Hwf1).
  rewrite Hbuild in Hwf1. simpl in Hwf1. specialize (Hwf1 wf_nil).
  change (parcels s1 = B) in Hp1.
  erewrite bind_returned by exact Hbuild.
  erewrite bind_returned by reflexivity.
  destruct (collect_arrived_run (parcels s1) s1) as (infos & Hcollect & _).
  erewrite bind_returned by exact Hcollect.
  fold (arrived_parcels (parcels s1)). rewrite Hp1.
  set (s2 := with_log (log s1 ++ infos) s1).
  assert (NoDup (arrived_parcels B)) as Hl.
  { rewrite <-Hp1. eapply sublist_NoDup; [exact Hwf1|].
    apply fmap_sublist, sublist_filter. }
  assert (∀ q, q ∈ arrived_parcels B ↔
               ∃ info, PyDict.get q B = Some info ∧ arrived info = true)
    as Hmem.
  { intros q. unfold arrived_parcels. rewrite list_elem_of_fmap. split.
    - intros ([q' info] & -> & [Harr Hin]%list_elem_of_filter).
      exists info. split; [|done]. apply elem_get; [by rewrite <-Hp1|done].
    - intros (info & Hget%get_Some_elem & Harr). exists (q, info).
      split; [done|]. by apply list_elem_of_filter. }
  destruct (cleanup_loop (arrived_parcels B) s2 Hl Hwf1)
    as (s3 & d3 & Hloop & _ & _ & Hout & Hin & _).
  destruct (cleanup_loop_reachable (arrived_parcels B) s2 Hr1) as [Hr3 Ht3].
  rewrite Hloop in Hr3, Ht3. simpl in Hr3, Ht3, Hout, Hin.
  rewrite Hp1 in Hout, Hin. rewrite Ht1 in Ht3.
  erewrite bind_returned by exact Hloop.
  exists s3. split_and!; [done|done|done|..].
  - intros q info Hget. destruct (decide (q ∈ arrived_parcels B)) as [Hq|Hq].
    + destruct (Hin q Hq) as [[Hnone _]|[Hsame _]]; congruence.
    + by rewrite <-Hout.
  - intros q info Hget Harr. rewrite Hout; [done|].
    intros (info' & Hget' & Harr')%Hmem. congruence.
Qed.

(** * [add_parcel] *)

Lemma observe_snoc ts modules module :
  observe ts (modules ++ [module]) =
  observe_module ts (observe ts modules) module.
Proof. unfold observe. by rewrite foldl_snoc. Qed.

(** An entry of the observed map comes from the first possession fact of
    its module and the first destination fact of its parcel. *)
Lemma observe_old ts modules q info :
  PyDict.get q (observe ts modules) = Some info →
  (∃ t, head (select (Some (current_position info))
                (Some Vocab.hasPossession) None ts) = Some t ∧ t_obj t = q) ∧
  destination info =
    t_obj <$> head (select (Some q) (Some Vocab.hasDestination) None ts).
Proof.
  induction modules as [|m modules IH] using rev_ind; [done|].
  rewrite observe_snoc. unfold observe_module.
  destruct (select (Some m) (Some Vocab.hasPossession) None ts) as [|t l] eqn:Hsel;
    [done|].
  destruct (decide (t_obj t = q)) as [<-|Hne].
  - rewrite get_set_eq. intros [= <-]. simpl. rewrite Hsel. eauto.
  - by rewrite get_set_ne.
Qed.

Lemma observe_new ts modules p module t :
  module ∈ modules →
  head (select (Some module) (Some Vocab.hasPossession) None ts) = Some t →
  t_obj t = p →
  (∀ m' t', head (select (Some m') (Some Vocab.hasPossession) None ts) = Some t' →
            t_obj t' = p → m' = module) →
  PyDict.get p (observe ts modules) =
    Some {| current_position := module;
            destination :=
              t_obj <$> head (select (Some p) (Some Vocab.hasDestination)
                                None ts) |}.
Proof.
  intros Hin Hhd Hobj Huniq.
  induction modules as [|m modules IH] using rev_ind;
    [by apply elem_of_nil in Hin|].
  rewrite observe_snoc. unfold observe_module.
  destruct (decide (m = module)) as [->|Hne].
  - destruct (select (Some module) (Some Vocab.hasPossession) None ts)
      as [|t0 l]; [done|].
    injection Hhd as ->. rewrite Hobj. by rewrite get_set_eq.
  - apply elem_of_app in Hin as [Hin|Hin%list_elem_of_singleton]; [|done].
    destruct (select (Some m) (Some Vocab.hasPossession) None ts)
      as [|t0 l] eqn:Hsel; [by apply IH|].
    rewrite get_set_ne; [by apply IH|].
    intros Hp. apply Hne, (Huniq m t0); [by rewrite Hsel|done].
Qed.

Lemma head_unique {A} (l : list A) (a : A) :
  (∀ x, x ∈ l → x = a) → a ∈ l → head l = Some a.
Proof.
  destruct l as [|x l]; [by intros _ ?%elem_of_nil|].
  intros H _. simpl. f_equal. apply H. left.
Qed.

Lemma head_elem {A} (l : list A) (a : A) : head l = Some a → a ∈ l.
Proof. destruct l; [done|]. intros [= ->]. left. Qed.

(** What a store must hold for a sync to see parcel [p] on [start] with
    destination [dest]. *)
Lemma observe_added ts modules p dest start :
  (∀ t, t ∈ ts → t_pred t = Vocab.hasPossession →
        t_sub t = start ∨ t_obj t = p →
        t = (start, Vocab.hasPossession, p)) →
  (start, Vocab.hasPossession, p) ∈ ts →
  (∀ t, t ∈ ts → t_sub t = p → t_pred t = Vocab.hasDestination →
        t = (p, Vocab.hasDestination, dest)) →
  (p, Vocab.hasDestination, dest) ∈ ts →
  start ∈ modules →
  PyDict.get p (observe ts modules) =
    Some {| current_position := start; destination := Some dest |}.
Proof.
  intros Hposs Hine Hdst Hinc Hstart.
  assert (head (select (Some start) (Some Vocab.hasPossession) None ts)
          = Some (start, Vocab.hasPossession, p)) as Hhd.
  { apply head_unique.
    - intros t [Ht [Hs Hp]%matches_subject_predicate]%elem_of_select.
      apply Hposs; auto.
    - apply elem_of_select. split; [done|].
      by apply matches_subject_predicate. }
  assert (head (select (Some p) (Some Vocab.hasDestination) None ts)
          = Some (p, Vocab.hasDestination, dest)) as Hhd'.
  { apply head_unique.
    - intros t [Ht [Hs Hp]%matches_subject_predicate]%elem_of_select.
      apply Hdst; auto.
    - apply elem_of_select. split; [done|].
      by apply matches_subject_predicate. }
  erewrite observe_new; [|done|exact Hhd|done|].
  - by rewrite Hhd'.
  - intros m' t' [Ht' [Hs Hp]%matches_subject_predicate]%head_elem%elem_of_select
      Hobj.
    rewrite (Hposs t' Ht' Hp (or_intror Hobj)) in Hs. done.
Qed.

Lemma get_parcels_frames_parcel_counter : frames parcel_counter get_parcels.
Proof.
  assert (∀ p, frames parcel_counter (delete_parcel p)) as Hdel.
  { intros p.
    unfold delete_parcel, triples_get_rows, triples_delete, set_triples, send.
    frame. }
  assert (∀ items, frames parcel_counter (collect_arrived items)) as Hcol.
  { induction items as [|[p info] items IH]; simpl; frame. }
  unfold get_parcels, record_parcel, cleanup_parcel, triples_get, send. frame.
Qed.

Lemma init_seeds_counter system store :
  (init system store).1 = Returned tt →
  parcel_counter (init system store).2 = length (parcels (init system store).2).
Proof.
  unfold init, bind.
  destruct (build_adjacency_matrix _) as [[[]|e|] s1]; [|done..].
  destruct (get_parcels s1) as [[ps|e|] s2]; [|done..].
  done.
Qed.

(** Facts about the five triples of a new parcel. *)
Lemma parcel_facts_possession p dest start t :
  t ∈ parcel_facts p dest start → t_pred t = Vocab.hasPossession →
  t = (start, Vocab.hasPossession, p).
Proof.
  unfold parcel_facts. rewrite !elem_of_cons, elem_of_nil.
  intros [->|[->|[->|[->|[->|[]]]]]]; simpl; intros Hp; try done;
    exfalso; revert Hp; compute_done.
Qed.

Lemma parcel_facts_destination p dest start t :
  t ∈ parcel_facts p dest start → t_pred t = Vocab.hasDestination →
  t = (p, Vocab.hasDestination, dest).
Proof.
  unfold parcel_facts. rewrite !elem_of_cons, elem_of_nil.
  intros [->|[->|[->|[->|[->|[]]]]]]; simpl; intros Hp; try done;
    exfalso; revert Hp; compute_done.
Qed.

Lemma parcel_facts_mention p dest start t :
  t ∈ parcel_facts p dest start → mentions p t.
Proof.
  unfold parcel_facts, mentions. rewrite !elem_of_cons, elem_of_nil.
  intros [->|[->|[->|[->|[->|[]]]]]]; simpl; auto.
Qed.

(** C6, amended.  [add_parcel] mints the identifier [parcel<counter + 1>]
    from the counter of the instance, and the counter is seeded by
    [__init__] with the number of parcels its sync returned.  On a
    reachable store, when the start module is a module of the model that
    possesses nothing, no fact of the store mentions the minted identifier,
    the destination differs from the start module, and neither of the two is
    itself possessed by anything: [add_parcel] returns, the counter has
    grown by one, and the sync that follows returns a map in which the
    minted identifier stands for a parcel on the start module with the given
    destination, while every other parcel of the map was already possessed
    by its module before the call. *)
Theorem add_parcel_then_sync (self : FlexConveyorSystem) (dest start : string) :
  let p := parcel_name (parcel_counter self) in
  let T := triples (db self) in
  reachable (db self) →
  start ∈ PyDict.keys (adjacency_matrix self) →
  select (Some start) (Some Vocab.hasPossession) None T = [] →
  Forall (λ t, ¬ mentions p t) T →
  dest ≠ start →
  (∀ t, t ∈ T → t_pred t = Vocab.hasPossession →
        t_obj t ≠ start ∧ t_obj t ≠ dest) →
  let r := add_parcel dest start self in
  r.1 = Returned tt ∧
  parcel_counter r.2 = parcel_counter self + 1 ∧
  (∃ m, (get_parcels r.2).1 = Returned m ∧
        PyDict.get p m =
          Some {| current_position := start; destination := Some dest |} ∧
        ∀ q info, q ≠ p → PyDict.get q m = Some info →
                  (current_position info, Vocab.hasPossession, q) ∈ T) ∧
  (∀ system store,
     (init system store).1 = Returned tt →
     parcel_counter (init system store).2 =
       length (parcels (init system store).2)).
Proof.
  intros p T Hr Hstart Hfree Hfresh Hne Hheld r.
  rewrite Forall_forall in Hfresh.
  set (new := parcel_facts p dest start).
  set (T' := insert_facts new T).
  (* the store after the insertion *)
  assert (∀ t, t ∈ T' ↔ t ∈ T ∨ t ∈ new) as HT'
    by (intros t; apply elem_of_insert_facts).
  assert (∀ t, t ∈ T' → t_pred t = Vocab.hasPossession →
               t_sub t = start ∨ t_obj t = p →
               t = (start, Vocab.hasPossession, p)) as Hposs.
  { intros t [Ht|Ht]%HT' Hp Hsp; [exfalso|by eapply parcel_facts_possession].
    destruct Hsp as [Hs|Ho].
    - eapply select_nil in Hfree; [|exact Ht].
      by rewrite (proj2 (matches_subject_predicate _ _ _)) in Hfree.
    - apply (Hfresh t Ht). by right. }
  assert (∀ t, t ∈ T' → t_sub t = p → t_pred t = Vocab.hasDestination →
               t = (p, Vocab.hasDestination, dest)) as Hdst.
  { intros t [Ht|Ht]%HT' Hs Hp; [exfalso|by eapply parcel_facts_destination].
    apply (Hfresh t Ht). by left. }
  assert ((start, Vocab.hasPossession, p) ∈ T') as Hine.
  { apply HT'. right. unfold new, parcel_facts. set_solver. }
  assert ((p, Vocab.hasDestination, dest) ∈ T') as Hinc.
  { apply HT'. right. unfold new, parcel_facts. set_solver. }
  (* the run of add_parcel *)
  set (sA := with_db (stored T' (received (ReqAdd new) (db self))) self).
  set (sB := with_parcel_counter (parcel_counter self + 1) sA).
  assert (reachable (db sB)) as HrB by by apply reachable_received.
  destruct (get_parcels_reachable sB HrB)
    as (s1 & Hsync1 & Hr1 & HT1 & Hsub1 & Hkeep1).
  simpl in HT1, Hsub1, Hkeep1.
  set (B' := observe T' (PyDict.keys (adjacency_matrix self))) in *.
  assert (add_parcel dest start self = (Returned tt, s1)) as Hrun.
  { unfold add_parcel. erewrite bind_returned by reflexivity. cbv zeta.
    erewrite try_returned; [reflexivity|].
    erewrite bind_returned
      by (apply triples_add_answered; by apply reachable_answers).
    erewrite bind_returned by reflexivity.
    erewrite bind_returned by reflexivity.
    erewrite bind_returned by exact Hsync1. done. }
  assert (PyDict.get p B' =
            Some {| current_position := start; destination := Some dest |})
    as HpB' by by apply observe_added.
  (* no arrived parcel of the first sync is the new parcel, the start
     module or the destination *)
  assert (∀ q, q ∈ arrived_parcels B' → q ≠ p ∧ q ≠ start ∧ q ≠ dest) as Harr.
  { intros q ([q' info] & -> & [Harr Hin]%list_elem_of_filter)%list_elem_of_fmap.
    simpl in *.
    assert (PyDict.get q' B' = Some info) as Hget.
    { apply elem_get; [|done].
      destruct (build_loop_facts (PyDict.keys (adjacency_matrix sB))
                  (with_parcels [] sB)) as (_ & _ & Hwf).
      destruct (build_loop_reachable (PyDict.keys (adjacency_matrix sB))
                  (with_parcels [] sB) HrB) as (s' & Hrun' & _ & _ & Hp').
      rewrite Hrun' in Hwf. simpl in Hwf, Hp'. rewrite Hp' in Hwf.
      apply Hwf, wf_nil. }
    assert (q' ≠ p) as Hqp.
    { intros ->. rewrite HpB' in Hget. injection Hget as <-.
      unfold arrived in Harr. simpl in Harr.
      apply bool_decide_eq_true in Harr. congruence. }
    split; [done|].
    destruct (observe_old _ _ _ _ Hget) as [(t & Ht & Hobj) _].
    apply head_elem, elem_of_select in Ht
      as [Ht [Hs Hp]%matches_subject_predicate].
    apply HT' in Ht as [Ht|Ht].
    - destruct (Hheld t Ht Hp). split; congruence.
    - apply (parcel_facts_possession p dest start) in Ht; [|done].
      subst t. simpl in Hobj. congruence. }
  (* the store after the first sync still shows the new parcel *)
  assert (∀ t, t ∈ triples (db s1) → t ∈ T') as HT1sub.
  { intros t Ht. by apply HT1 in Ht as [? _]. }
  assert (PyDict.get p
            (observe (triples (db s1)) (PyDict.keys (adjacency_matrix self)))
          = Some {| current_position := start; destination := Some dest |})
    as HpB1.
  { apply observe_added; [by auto|..|by auto| |done].
    - apply HT1. split; [done|].
      intros q (Hqp & Hqs & _)%Harr [Hm|Hm];
        unfold t_sub, t_obj in Hm; simpl in Hm; congruence.
    - apply HT1. split; [done|].
      intros q (Hqp & _ & Hqd)%Harr [Hm|Hm];
        unfold t_sub, t_obj in Hm; simpl in Hm; congruence. }
  (* the sync that follows *)
  assert (adjacency_matrix s1 = adjacency_matrix self) as Hadj.
  { pose proof (get_parcels_frames_adjacency sB) as H.
    by rewrite Hsync1 in H. }
  destruct (get_parcels_reachable s1 Hr1)
    as (s2 & Hsync2 & _ & _ & Hsub2 & Hkeep2).
  simpl in Hsub2, Hkeep2. rewrite Hadj in Hsub2, Hkeep2.
  subst r. rewrite Hrun. simpl. split_and!; [done| | |].
  - pose proof (get_parcels_frames_parcel_counter sB) as H.
    by rewrite Hsync1 in H.
  - exists (parcels s2). rewrite Hsync2. split_and!; [done| |].
    + apply Hkeep2; [done|]. apply bool_decide_eq_false. simpl. congruence.
    + intros q info Hqp Hget%Hsub2.
      destruct (observe_old _ _ _ _ Hget) as [(t & Ht & Hobj) _].
      apply head_elem, elem_of_select in Ht
        as [Ht%HT1sub%HT' [Hs Hp]%matches_subject_predicate].
      destruct Ht as [Ht|Ht].
      * destruct t as [[ts tp] to].
        unfold t_sub, t_pred, t_obj in *. simpl in *. by subst.
      * apply (parcel_facts_possession p dest start) in Ht; [|done].
        subst t. simpl in Hobj. congruence.
  - apply init_seeds_counter.
Qed.

Lemma add_parcel_then_sync_witness :
  let self := Examples.system_of Examples.ring [] [] in
  let r := add_parcel "module3" "module1" self in
  r.1 = Returned tt ∧
  ∃ m, (get_parcels r.2).1 = Returned m ∧
       PyDict.get (parcel_name 0) m =
         Some {| current_position := "module1";
                 destination := Some "module3" |}.
Proof.
  pose proof (add_parcel_then_sync (Examples.system_of Examples.ring [] [])
                "module3" "module1") as H.
  destruct H as (H1 & _ & (m & Hm & Hp & _) & _).
  - apply Forall_nil_2.
  - compute_done.
  - by vm_compute.
  - apply Forall_nil_2.
  - compute_done.
  - by intros t ?%elem_of_nil.
  - split; [exact H1|]. exists m. by split.
Defined.

(** C6, as stated, fails, in two ways.  With the destination equal to the
    start module the parcel is inserted and deleted again by the sync that
    [add_parcel] runs, so the next sync returns no parcel.  And on a store
    whose only parcel is named [parcel2], the instance counts one parcel at
    start-up and mints [parcel2] again: the new facts are merged into the
    old parcel and the next sync returns the map it returned before. *)
Lemma add_parcel_yields_no_new_parcel :
  (let self := Examples.system_of [("m", [None; None; None; None])] [] [] in
   let r := add_parcel "m" "m" self in
   r.1 = Returned tt ∧ (get_parcels r.2).1 = Returned []) ∧
  (let started := init "sys" MoreExamples.ring_store in
   let before := parcels started.2 in
   let r := add_parcel "module4" "module1" started.2 in
   started.1 = Returned tt ∧
   adjacency_matrix started.2 = Examples.ring ∧
   parcel_name (parcel_counter started.2) ∈ PyDict.keys before ∧
   r.1 = Returned tt ∧
   (get_parcels r.2).1 = Returned before).
Proof. cbv zeta. split_and!; compute_done. Qed.

(** * [build_adjacency_matrix] and [__init__] *)

Lemma query_connections_length module ds self l self' :
  query_connections module ds self = (Returned l, self') →
  length l = length ds.
Proof.
  revert self l self'. induction ds as [|d ds IH]; intros self l self'; simpl.
  - by intros [= <- _].
  - unfold bind at 1.
    destruct (query module (connection_property d) self) as [[b|e|] s1];
      [|done..].
    unfold bind at 1.
    destruct (query_connections module ds s1) as [[rest|e|] s2] eqn:Hrest;
      [|done..].
    intros [= <- _]. simpl. f_equal. by eapply IH.
Qed.

Lemma build_adjacency_dict_wf modules acc self d self' :
  build_adjacency_dict modules acc self = (Returned d, self') →
  PyDict.wf acc →
  (∀ m c, PyDict.get m acc = Some c → length c = 4) →
  PyDict.wf d ∧ ∀ m c, PyDict.get m d = Some c → length c = 4.
Proof.
  revert acc self. induction modules as [|m modules IH]; intros acc self;
    cbn [build_adjacency_dict].
  - by intros [= <- _].
  - unfold bind at 1.
    destruct (query_connections m directions self) as [[l|e|] s1] eqn:Hq;
      [|done..].
    apply query_connections_length in Hq.
    intros Hrun Hwf Hlen. eapply IH; [exact Hrun|by apply wf_set|].
    intros m' c. destruct (decide (m = m')) as [->|Hne].
    + rewrite get_set_eq. by intros [= <-].
    + rewrite get_set_ne by done. apply Hlen.
Qed.

Lemma build_adjacency_matrix_wf self self' :
  build_adjacency_matrix self = (Returned tt, self') →
  PyDict.wf (adjacency_matrix self') ∧
  ∀ m c, PyDict.get m (adjacency_matrix self') = Some c → length c = 4.
Proof.
  unfold build_adjacency_matrix.
  erewrite bind_returned by reflexivity.
  unfold bind at 1.
  destruct (query _ _ self) as [[mods|e|] sq]; [|done..].
  unfold bind at 1.
  destruct (build_adjacency_dict mods [] sq) as [[d|e|] sd] eqn:Hd; [|done..].
  apply build_adjacency_dict_wf in Hd; [|apply wf_nil|done].
  erewrite bind_returned by reflexivity.
  intros Hrest.
  assert (frames adjacency_matrix
            (logging_info (MsgBuiltAdjacency (length d));;;
             print PrintAdjacencyHeader;;;
             print PrintAdjacencyFormat;;;
             for_each d (λ row, print (PrintAdjacencyRow row.1 row.2)))) as Hf
    by frame.
  specialize (Hf (with_adjacency_matrix d sd)).
  rewrite Hrest in Hf. simpl in Hf. by rewrite Hf.
Qed.

(** The adjacency model [__init__] builds is a dictionary (no module occurs
    twice) with four slots per module; it is the one
    [build_adjacency_matrix] assigned. *)
Lemma init_adjacency system store :
  (init system store).1 = Returned tt →
  PyDict.wf (adjacency_matrix (init system store).2) ∧
  (∀ m c, PyDict.get m (adjacency_matrix (init system store).2) = Some c →
          length c = 4) ∧
  adjacency_matrix (init system store).2 =
    adjacency_matrix (build_adjacency_matrix (fresh_instance system store)).2.
Proof.
  unfold init. set (s0 := fresh_instance system store).
  assert (frames adjacency_matrix
            (get_parcels;;;
             ps <- read parcels;;
             set_parcel_counter (length ps);;;
             logging_info (MsgInitialized system))) as Hf.
  { apply frames_bind; [apply get_parcels_frames_adjacency|]. intros ?. frame. }
  destruct (build_adjacency_matrix s0) as [[[]|e|] s1] eqn:Hbuild.
  - erewrite bind_returned by exact Hbuild. rewrite (Hf s1). intros _.
    destruct (build_adjacency_matrix_wf _ _ Hbuild). by split_and!.
  - by erewrite bind_raised by exact Hbuild.
  - unfold bind. by rewrite Hbuild.
Qed.

(** ** [find_path] on any adjacency model *)

Lemma relax_raised cd cm s e x :
  relax cd cm s e = Raised x → x = KeyError e.1 ∧ e.1 ∉ dom (distances s).
Proof.
  unfold relax. case_decide; [done|].
  destruct (distances s !! e.1) as [known|] eqn:Hk.
  - by destruct (lt_distance (cd + e.2) known).
  - intros [= <-]. split; [done|]. by apply not_elem_of_dom.
Qed.

Lemma relax_dom cd cm s e s' :
  relax cd cm s e = Returned s' → dom (distances s') = dom (distances s).
Proof.
  unfold relax. case_decide; [by intros [= <-]|].
  destruct (distances s !! e.1) as [known|] eqn:Hk; [|done].
  destruct (lt_distance (cd + e.2) known); intros [= <-]; [|done].
  simpl. rewrite dom_insert_L.
  assert (e.1 ∈ dom (distances s)) by (apply elem_of_dom; by eexists).
  set_solver.
Qed.

Lemma relax_all_raised cd cm es s x :
  relax_all cd cm es s = Raised x →
  ∃ v w, (v, w) ∈ es ∧ x = KeyError v ∧ v ∉ dom (distances s).
Proof.
  revert s. induction es as [|[v w] es IH]; intros s; simpl; [done|].
  destruct (relax cd cm s (v, w)) as [s1|x'|] eqn:Hr.
  - intros (v' & w' & Hin & -> & Hdom)%IH. exists v', w'.
    split_and!; [by right|done|]. by rewrite <-(relax_dom _ _ _ _ _ Hr).
  - intros [= <-]. apply relax_raised in Hr as [-> Hdom].
    exists v, w. split_and!; [by left|done..].
  - done.
Qed.

Lemma relax_all_dom cd cm es s s' :
  relax_all cd cm es s = Returned s' → dom (distances s') = dom (distances s).
Proof.
  revert s. induction es as [|e es IH]; intros s; simpl; [by intros [= <-]|].
  destruct (relax cd cm s e) as [s1|x'|] eqn:Hr; [|done..].
  intros ->%IH. by eapply relax_dom.
Qed.

Lemma dijkstra_raised fuel graph target s x :
  dijkstra fuel graph target s = Raised x →
  ∃ u v, g_edge graph u v ∧ x = KeyError v ∧ v ∉ dom (distances s).
Proof.
  revert s. induction fuel as [|fuel IH]; intros s; simpl; [done|].
  destruct (heappop (pq s)) as [[[d u] pq']|]; [|done].
  case_decide.
  { intros (u' & v & ? & ? & ?)%IH. by exists u', v. }
  case_decide; [done|].
  destruct (relax_all d u (default [] (graph !! u)) _) as [s2|x'|] eqn:Hrel;
    [| |done].
  - intros (u' & v & ? & ? & Hdom)%IH. exists u', v. split_and!; [done..|].
    by rewrite (relax_all_dom _ _ _ _ _ Hrel) in Hdom.
  - intros [= <-]. apply relax_all_raised in Hrel as (v & w & Hin & -> & Hdom).
    exists u, v. split_and!; [|done..].
    destruct (graph !! u) as [es|] eqn:Hg; [|by apply elem_of_nil in Hin].
    by exists es, w.
Qed.

(** With the start module among the fully scanned ones, a slot that leaves
    the model stops the scan. *)
Lemma relax_all_dangling cd cm es s v w :
  (v, w) ∈ es → v ∉ dom (distances s) → visited s ⊆ dom (distances s) →
  ∃ v', relax_all cd cm es s = Raised (KeyError v').
Proof.
  revert s. induction es as [|e es IH]; intros s Hin Hdom Hvis;
    [by apply elem_of_nil in Hin|].
  simpl. destruct (relax cd cm s e) as [s1|x|] eqn:Hr.
  - apply elem_of_cons in Hin as [<-|Hin].
    + exfalso. revert Hr. unfold relax. simpl.
      rewrite decide_False by set_solver.
      by rewrite (proj1 (not_elem_of_dom _ _) Hdom).
    + pose proof (relax_dom _ _ _ _ _ Hr) as Hd.
      pose proof (relax_pushes _ _ _ _ _ Hr) as [Hv _].
      apply IH; [done|by rewrite Hd|by rewrite Hd, Hv].
  - apply relax_raised in Hr as [-> _]. by eexists.
  - exfalso. revert Hr. unfold relax. repeat case_match; done.
Qed.

(** How [find_path] ends between two different modules of any model. *)
Lemma find_path_outcomes self S T :
  let adj := adjacency_matrix self in
  PyDict.wf adj →
  S ∈ PyDict.keys adj → T ∈ PyDict.keys adj → S ≠ T →
  (∃ p d,
     find_path S T self =
       (Returned (Some p),
        with_stdout (stdout self ++ [PrintPathFound d (length p)]) self) ∧
     length p = Datatypes.S d ∧ head p = Some S ∧ last p = Some T ∧
     is_path adj p ∧ walk adj S T d ∧ ∀ n, walk adj S T n → d ≤ n) ∨
  (find_path S T self =
     (Returned None, with_stdout (stdout self ++ [PrintNoPath S T]) self) ∧
   ∀ n, ¬ walk adj S T n) ∨
  (∃ u v, find_path S T self = (Raised (KeyError v), self) ∧
          edge adj u v ∧ v ∉ PyDict.keys adj).
Proof.
  intros adj Hwf HS HT Hne. unfold find_path.
  erewrite bind_returned by reflexivity. cbv zeta. fold adj.
  rewrite !decide_True by done. rewrite decide_False by done.
  set (graph := build_graph adj).
  set (K := list_to_set (PyDict.keys adj) : gset string).
  match goal with
  | |- context [dijkstra ?f graph T ?s] => set (s0 := s)
  end.
  pose proof (initial_inv adj S HS) as Hinv0. fold graph K s0 in Hinv0.
  pose proof (dijkstra_inv graph S K (build_graph_unit_weights adj)
                (search_fuel graph) T s0 Hinv0) as Hpost.
  pose proof (dijkstra_within_fuel graph T (search_fuel graph) s0
                (initial_potential graph S)) as Hfuel.
  pose proof (dijkstra_raised (search_fuel graph) graph T s0) as Hraised.
  destruct (dijkstra (search_fuel graph) graph T s0) as [s'|e|] eqn:Hsearch;
    [| |done].
  - erewrite bind_returned by reflexivity.
    destruct Hpost as (R & Hinv & [(d & Hd & Hopt)|(Hd & Hno)]);
      [by apply elem_of_list_to_set|set_solver|..].
    + left. rewrite Hd.
      destruct (walk_back_chain graph S K R s' d T [] Hinv Hd)
        as (chain & Hrun & Hlen & Hhd & Hlast & Hpath).
      erewrite bind_returned by (unfold lift; by rewrite Hrun).
      simpl app. erewrite bind_returned by reflexivity.
      exists (reverse chain), d.
      assert (head (reverse chain) = Some S) as Hh
        by by rewrite head_reverse.
      assert (last (reverse chain) = Some T) as Hl
        by by rewrite last_reverse.
      assert (is_path adj (reverse chain)) as Hp
        by by apply is_g_path_is_path.
      split_and!; [done|by rewrite length_reverse|done|done|done|..].
      * apply g_walk_walk; [done|]. by eapply inv_sound.
      * intros n Hw. apply Hopt. by apply g_walk_walk.
    + right. left. rewrite Hd. erewrite bind_returned by reflexivity.
      split; [done|].
      intros n Hw. apply (Hno n). by apply g_walk_walk.
  - right. right.
    destruct (Hraised e eq_refl) as (u & v & He & -> & Hdom).
    exists u, v. split_and!; [done|by apply g_edge_edge|].
    rewrite (inv_dom _ _ _ _ _ Hinv0) in Hdom.
    intros Hin. apply Hdom. by apply elem_of_list_to_set.
Qed.

(** X3.  In any adjacency model - also one with slots that name no module
    of the model - whatever [find_path] returns is right: a returned path
    starts at the start module, ends at the target, follows edges of the
    model, and no walk between the two has fewer edges; [None] is returned
    only when the start or the target is not a module of the model or the
    target cannot be reached.  The only exception it raises is the
    [KeyError] for the target of a slot that is not a module of the model. *)
Theorem find_path_sound (self : FlexConveyorSystem) (S T : string) :
  let adj := adjacency_matrix self in
  PyDict.wf adj →
  match (find_path S T self).1 with
  | Returned (Some p) =>
      head p = Some S ∧ last p = Some T ∧ is_path adj p ∧
      ∀ n, walk adj S T n → length p - 1 ≤ n
  | Returned None =>
      S ∉ PyDict.keys adj ∨ T ∉ PyDict.keys adj ∨ ¬ reachable_from adj S T
  | Raised e => ∃ u v, e = KeyError v ∧ edge adj u v ∧ v ∉ PyDict.keys adj
  | OutOfFuel => False
  end.
Proof.
  intros adj Hwf.
  destruct (decide (S ∈ PyDict.keys adj)) as [HS|HS].
  2:{ assert ((find_path S T self).1 = Returned None) as ->; [|by left].
      unfold find_path. erewrite bind_returned by reflexivity. cbv zeta.
      fold adj. by rewrite decide_False. }
  destruct (decide (T ∈ PyDict.keys adj)) as [HT|HT].
  2:{ assert ((find_path S T self).1 = Returned None) as ->; [|by auto].
      unfold find_path. erewrite bind_returned by reflexivity. cbv zeta.
      fold adj. rewrite decide_True by done. by rewrite decide_False. }
  destruct (decide (S = T)) as [<-|Hne].
  { assert (find_path S S self = (Returned (Some [S]), self)) as ->.
    { unfold find_path. erewrite bind_returned by reflexivity. cbv zeta.
      fold adj. by rewrite !decide_True. }
    simpl. split_and!; [done..|]. intros n _. lia. }
  destruct (find_path_outcomes self S T Hwf HS HT Hne)
    as [(p & d & -> & Hlen & Hhd & Hlast & Hpath & Hwalk & Hopt)|
        [[-> Hno]|(u & v & -> & He & Hv)]]; simpl.
  - split_and!; [done..|]. intros n Hw. rewrite Hlen. simpl.
    rewrite Nat.sub_0_r. by apply Hopt.
  - right. right. intros [n Hw]. by apply (Hno n).
  - by exists u, v.
Qed.


Lemma find_path_sound_witness :
  let self := Examples.system_of Examples.ring [] [] in
  (find_path "module1" "module4" self).1 =
    Returned (Some ["module1"; "module2"; "module3"; "module4"]) ∧
  ∀ n, walk (adjacency_matrix self) "module1" "module4" n → 3 ≤ n.
Proof.
  cbv zeta.
  assert ((find_path "module1" "module4"
             (Examples.system_of Examples.ring [] [])).1 =
          Returned (Some ["module1"; "module2"; "module3"; "module4"]))
    as Hrun by (by vm_compute).
  split; [exact Hrun|].
  pose proof (find_path_sound (Examples.system_of Examples.ring [] [])
                "module1" "module4") as H.
  cbv zeta in H. rewrite Hrun in H.
  destruct H as (_ & _ & _ & Hmin); [compute_done|exact Hmin].
Defined.
(** The first turn of the search loop, with the start module alone in the
    queue. *)
Lemma dijkstra_first fuel graph T S d s :
  pq s = [(d, S)] → S ∉ visited s → S ≠ T →
  dijkstra (Datatypes.S fuel) graph T s =
  match relax_all d S (default [] (graph !! S))
          {| distances := distances s; previous := previous s;
             pq := []; visited := {[S]} ∪ visited s |} with
  | Returned s2 => dijkstra fuel graph T s2
  | r => r
  end.
Proof.
  intros Hpq Hvis Hne. cbn [dijkstra]. rewrite Hpq.
  unfold heappop. cbn [smallest remove_first].
  rewrite (decide_True (P := (d, S) = (d, S))) by reflexivity.
  rewrite (decide_False (P := S ∈ visited s)) by exact Hvis.
  rewrite (decide_False (P := S = T)) by exact Hne.
  reflexivity.
Qed.

(** X4.  A slot of the start module that names no module of the model
    makes [find_path] raise a [KeyError] for every target in the model
    other than the start itself - also for a target that is a direct
    neighbour of the start. *)
Theorem find_path_dangling_start (self : FlexConveyorSystem) (S T v : string) :
  let adj := adjacency_matrix self in
  PyDict.wf adj →
  S ∈ PyDict.keys adj → T ∈ PyDict.keys adj → S ≠ T →
  edge adj S v → v ∉ PyDict.keys adj →
  ∃ v', (find_path S T self).1 = Raised (KeyError v') ∧
        edge adj S v' ∧ v' ∉ PyDict.keys adj.
Proof.
  intros adj Hwf HS HT Hne Hedge Hv. unfold find_path.
  erewrite bind_returned by reflexivity. cbv zeta. fold adj.
  rewrite !decide_True by done. rewrite decide_False by done.
  set (graph := build_graph adj).
  match goal with
  | |- context [dijkstra ?f graph T ?s] => set (s0 := s)
  end.
  pose proof (initial_inv adj S HS) as Hinv0. fold graph s0 in Hinv0.
  pose proof (inv_dom _ _ _ _ _ Hinv0) as Hdom0.
  destruct Hedge as (connections & Hget & Hin).
  assert (graph !! S = Some (neighbours connections)) as Hg.
  { unfold graph. rewrite build_graph_lookup by done. by rewrite Hget. }
  assert (∃ v', dijkstra (search_fuel graph) graph T s0 = Raised (KeyError v') ∧
                (v', 1) ∈ neighbours connections ∧
                v' ∉ dom (distances s0)) as (v' & Hrun & Hin' & Hdom').
  { unfold search_fuel. cbn [Nat.add].
    rewrite (dijkstra_first _ graph T S 0 s0); [|done|set_solver|done].
    rewrite Hg.
    change (default [] (Some (neighbours connections)))
      with (neighbours connections).
    set (s1 := {| distances := distances s0; previous := previous s0;
                  pq := []; visited := {[S]} ∪ visited s0 |}).
    destruct (relax_all_dangling 0 S (neighbours connections) s1 v 1)
      as [v' Hrel].
    - by apply elem_of_neighbours.
    - change (v ∉ dom (distances s0)). rewrite Hdom0.
      by intros ?%elem_of_list_to_set.
    - change ({[S]} ∪ ∅ ⊆ dom (distances s0)). rewrite Hdom0. intros x.
      rewrite elem_of_union, elem_of_singleton.
      intros [->|?]; [by apply elem_of_list_to_set|set_solver].
    - rewrite Hrel. exists v'. split; [done|].
      apply relax_all_raised in Hrel as (v2 & w & Hin2 & [= ->] & Hd2).
      apply elem_of_neighbours in Hin2 as [Hin2 ->].
      split; [by apply elem_of_neighbours|done]. }
  exists v'. erewrite bind_raised by (unfold lift; by rewrite Hrun).
  split_and!; [done| |].
  - exists connections. split; [done|]. by apply elem_of_neighbours in Hin' as [? _].
  - rewrite Hdom0 in Hdom'. intros ?. apply Hdom'. by apply elem_of_list_to_set.
Qed.


Lemma find_path_dangling_start_witness :
  ∃ v', (find_path "A" "B"
           (Examples.system_of
              [("A", [Some "X"; Some "B"; None; None]);
               ("B", [None; None; None; None])] [] [])).1
        = Raised (KeyError v').
Proof.
  destruct (find_path_dangling_start
              (Examples.system_of
                 [("A", [Some "X"; Some "B"; None; None]);
                  ("B", [None; None; None; None])] [] [])
              "A" "B" "X") as (v' & Hrun & _).
  - compute_done.
  - compute_done.
  - compute_done.
  - done.
  - eexists. split; [reflexivity|]. compute_done.
  - compute_done.
  - by exists v'.
Defined.

(** * What the methods leave alone, and how they fail *)

Section RaisesOnly.
Context (P : exn → Prop).

Lemma raises_only_ret {A} (a : A) : raises_only P (ret a).
Proof. by intros self e. Qed.

Lemma raises_only_read {A} (g : FlexConveyorSystem → A) :
  raises_only P (read g).
Proof. by intros self e. Qed.

Lemma raises_only_raise {A} (e : exn) : P e → raises_only P (@raise A e).
Proof. intros HP self e' [= <-]. done. Qed.

Lemma raises_only_bind {A C} (c : M A) (k : A → M C) :
  raises_only P c → (∀ a, raises_only P (k a)) → raises_only P (bind c k).
Proof.
  intros Hc Hk self e. unfold bind. specialize (Hc self).
  destruct (c self) as [[a|e'|] self']; simpl in *.
  - apply Hk.
  - intros [= <-]. by apply Hc.
  - done.
Qed.

Lemma raises_only_for_each {A} (l : list A) (body : A → M unit) :
  (∀ x, raises_only P (body x)) → raises_only P (for_each l body).
Proof.
  intros Hb. induction l as [|x l IH]; simpl.
  - apply raises_only_ret.
  - apply raises_only_bind; auto.
Qed.
End RaisesOnly.

Ltac raises_step :=
  lazymatch goal with
  | |- raises_only _ (bind _ _) => apply raises_only_bind; [|intros ?]
  | |- raises_only _ (for_each _ _) => apply raises_only_for_each; intros ?
  | |- raises_only _ (ret _) => apply raises_only_ret
  | |- raises_only _ (read _) => apply raises_only_read
  | |- raises_only _ (match ?x with _ => _ end) => destruct x
  | |- raises_only _ (let _ := _ in _) => cbv zeta
  end.

Lemma returns_ret {A} (a : A) : returns (ret a).
Proof. intros self. by exists a. Qed.

Lemma returns_bind {A C} (c : M A) (k : A → M C) :
  returns c → (∀ a, returns (k a)) → returns (bind c k).
Proof.
  intros Hc Hk self. unfold bind. destruct (Hc self) as [a Ha].
  destruct (c self) as [o self']. simpl in Ha. subst o. apply Hk.
Qed.

Lemma returns_for_each {A} (l : list A) (body : A → M unit) :
  (∀ x, returns (body x)) → returns (for_each l body).
Proof.
  intros Hb. induction l as [|x l IH]; simpl.
  - apply returns_ret.
  - apply returns_bind; auto.
Qed.

Lemma returns_logging r : returns (logging r).
Proof. intros self. by exists tt. Qed.

Lemma returns_print l : returns (print l).
Proof. intros self. by exists tt. Qed.

Lemma send_raises_connectivity r :
  raises_only (λ e, e = StoreError ConnectivityError) (send r).
Proof.
  intros self e. unfold send, bind, read, set_db, raise, ret. simpl.
  destruct (head (outages (db self))) as [[]|]; simpl; by intros [= <-].
Qed.

Lemma triples_get_raises_connectivity s p o :
  raises_only (λ e, e = StoreError ConnectivityError) (triples_get s p o).
Proof.
  unfold triples_get. repeat raises_step. apply send_raises_connectivity.
Qed.

Lemma triples_get_rows_raises_connectivity s p o :
  raises_only (λ e, e = StoreError ConnectivityError) (triples_get_rows s p o).
Proof.
  unfold triples_get_rows. repeat raises_step. apply send_raises_connectivity.
Qed.

Lemma query_raises_connectivity s p :
  raises_only (λ e, e = StoreError ConnectivityError) (query s p).
Proof. unfold query. repeat raises_step. apply send_raises_connectivity. Qed.

(** ** [find_path] reads the model and prints; nothing else *)

Lemma find_path_frames {B} (f : FlexConveyorSystem → B) S T :
  (∀ l self, f (with_stdout l self) = f self) → frames f (find_path S T).
Proof.
  intros Hout. unfold find_path. frame; intros self; apply Hout.
Qed.

(** X5.  [find_path] is read-only: however it ends, it has sent the store
    no request and has left the facts, the parcel map, the counter, the log
    and the adjacency model as they were; all it may do is print. *)
Theorem find_path_read_only (self : FlexConveyorSystem) (S T : string) :
  let self' := (find_path S T self).2 in
  db self' = db self ∧ parcels self' = parcels self ∧
  parcel_counter self' = parcel_counter self ∧ log self' = log self ∧
  adjacency_matrix self' = adjacency_matrix self ∧
  system_iri self' = system_iri self.
Proof.
  cbv zeta. split_and!.
  - by apply (find_path_frames db).
  - by apply (find_path_frames parcels).
  - by apply (find_path_frames parcel_counter).
  - by apply (find_path_frames log).
  - by apply (find_path_frames adjacency_matrix).
  - by apply (find_path_frames system_iri).
Qed.

(** ** [convey] and [delete_parcel] do not refresh the parcel map *)

Lemma convey_frames {B} (f : FlexConveyorSystem → B) a b :
  (∀ d self, f (with_db d self) = f self) →
  (∀ l self, f (with_log l self) = f self) →
  frames f (convey a b).
Proof.
  intros Hdb Hlog.
  unfold convey, triples_get, triples_update, set_triples, send,
    logging_info, logging_error, logging, set_db.
  frame; intros self; first [apply Hdb | apply Hlog].
Qed.

Lemma delete_parcel_frames {B} (f : FlexConveyorSystem → B) p :
  (∀ d self, f (with_db d self) = f self) →
  (∀ l self, f (with_log l self) = f self) →
  frames f (delete_parcel p).
Proof.
  intros Hdb Hlog.
  unfold delete_parcel, triples_get_rows, triples_delete, set_triples, send,
    logging_info, logging_error, logging, set_db.
  frame; intros self; first [apply Hdb | apply Hlog].
Qed.

(** X6.  [convey] and [delete_parcel] change the store but never
    [self.parcels] nor the counter: until the next sync the parcel map still
    shows a conveyed parcel on its old module and a deleted parcel as
    present. *)
Theorem mutators_leave_parcel_map (self : FlexConveyorSystem) :
  (∀ a b, parcels (convey a b self).2 = parcels self ∧
          parcel_counter (convey a b self).2 = parcel_counter self) ∧
  (∀ p, parcels (delete_parcel p self).2 = parcels self ∧
        parcel_counter (delete_parcel p self).2 = parcel_counter self).
Proof.
  split.
  - intros a b. split.
    + by apply (convey_frames parcels).
    + by apply (convey_frames parcel_counter).
  - intros p. split.
    + by apply (delete_parcel_frames parcels).
    + by apply (delete_parcel_frames parcel_counter).
Qed.

(** ** Which exceptions leave a method *)

Lemma raises_only_mono {A} (P Q : exn → Prop) (c : M A) :
  (∀ e, P e → Q e) → raises_only P c → raises_only Q c.
Proof. intros HPQ Hc self e He. eapply HPQ, Hc, He. Qed.

Lemma raises_only_try_except {A} (P Q : exn → Prop) (body : M A) handler :
  raises_only P body → (∀ e, P e → raises_only Q (handler e)) →
  raises_only Q (try_except body handler).
Proof.
  intros Hb Hh self e. unfold try_except. specialize (Hb self).
  destruct (body self) as [[a|e'|] self']; simpl in *; try done.
  apply Hh. by apply Hb.
Qed.

Lemma raises_only_lift {A} (P : exn → Prop) (o : outcome A) :
  (∀ e, o = Raised e → P e) → raises_only P (lift o).
Proof. intros Ho self e. apply Ho. Qed.

Lemma bind_raised_inv {A B} (c : M A) (k : A → M B) self e self' :
  bind c k self = (Raised e, self') →
  c self = (Raised e, self') ∨
  ∃ a self1, c self = (Returned a, self1) ∧ k a self1 = (Raised e, self').
Proof.
  unfold bind. destruct (c self) as [[a|e'|] self1]; intros H.
  - right. by exists a, self1.
  - left. by injection H as -> ->.
  - discriminate H.
Qed.

Lemma bind_returned_inv {A B} (c : M A) (k : A → M B) self b self' :
  bind c k self = (Returned b, self') →
  ∃ a self1, c self = (Returned a, self1) ∧ k a self1 = (Returned b, self').
Proof.
  unfold bind. destruct (c self) as [[a|e'|] self1]; intros H;
    [|discriminate H..].
  by exists a, self1.
Qed.

Create HintDb raises discriminated.

#[local] Hint Resolve send_raises_connectivity triples_get_raises_connectivity
  query_raises_connectivity : raises.

Ltac raises :=
  repeat raises_step;
  try (by intros ? ? [=]);
  eauto with raises.

Lemma delete_parcel_raises p :
  raises_only
    (λ e, e = StoreError ConnectivityError ∨ e = ValueError (ParcelNotFound p))
    (delete_parcel p).
Proof.
  unfold delete_parcel.
  apply raises_only_bind.
  { eapply raises_only_mono; [|apply triples_get_rows_raises_connectivity].
    by left. }
  intros subject_triples. apply raises_only_bind.
  { eapply raises_only_mono; [|apply triples_get_rows_raises_connectivity].
    by left. }
  intros object_triples. cbv zeta.
  destruct (omap str_triple subject_triples ++ omap str_triple object_triples).
  - apply raises_only_bind; [by intros ? ? [=]|intros _].
    apply raises_only_raise. by right.
  - apply raises_only_bind; [|intros _; apply raises_only_ret].
    unfold triples_delete, set_triples.
    apply raises_only_bind.
    { eapply raises_only_mono; [|apply send_raises_connectivity]. by left. }
    intros _. raises.
Qed.

Lemma record_parcel_raises module :
  raises_only connectivity_error (record_parcel module).
Proof. unfold record_parcel, connectivity_error. raises. Qed.

Lemma collect_arrived_raises items :
  raises_only connectivity_error (collect_arrived items).
Proof.
  induction items as [|[p info] items IH]; simpl; raises.
Qed.

Lemma cleanup_parcel_raises p : raises_only connectivity_error (cleanup_parcel p).
Proof.
  unfold cleanup_parcel. apply raises_only_bind; [by intros ? ? [=]|intros _].
  apply (raises_only_try_except (λ _, True)); [by intros ? ?|].
  intros e _. by intros ? ? [=].
Qed.

#[local] Hint Resolve record_parcel_raises collect_arrived_raises
  cleanup_parcel_raises : raises.

Lemma get_parcels_raises : raises_only connectivity_error get_parcels.
Proof. unfold get_parcels. raises. Qed.

Lemma triples_add_raises ts : raises_only connectivity_error (triples_add ts).
Proof. unfold triples_add, set_triples, connectivity_error. raises. Qed.

#[local] Hint Resolve get_parcels_raises triples_add_raises : raises.

Lemma add_parcel_raises d s : raises_only connectivity_error (add_parcel d s).
Proof.
  unfold add_parcel. raises.
  apply (raises_only_try_except connectivity_error).
  - raises.
  - intros e He. raises. by apply raises_only_raise.
Qed.

Lemma query_connections_raises module ds :
  raises_only connectivity_error (query_connections module ds).
Proof.
  unfold connectivity_error. induction ds as [|d ds IH]; simpl; raises.
Qed.

#[local] Hint Resolve query_connections_raises : raises.

Lemma build_adjacency_dict_raises modules acc :
  raises_only connectivity_error (build_adjacency_dict modules acc).
Proof.
  revert acc. induction modules as [|m modules IH]; intros acc; simpl; raises.
Qed.

#[local] Hint Resolve build_adjacency_dict_raises : raises.

Lemma build_adjacency_matrix_raises :
  raises_only connectivity_error build_adjacency_matrix.
Proof. unfold build_adjacency_matrix, connectivity_error. raises. Qed.

(** X7.  Only a connectivity error of the store leaves a sync, an
    [add_parcel] or the constructor: the [ValueError] of a failed deletion
    during the arrival cleanup is caught and logged, never propagated. *)
Theorem sync_raises_connectivity_only (e : exn) :
  (∀ self, (get_parcels self).1 = Raised e → e = StoreError ConnectivityError) ∧
  (∀ d s self,
     (add_parcel d s self).1 = Raised e → e = StoreError ConnectivityError) ∧
  (∀ self,
     (build_adjacency_matrix self).1 = Raised e →
     e = StoreError ConnectivityError) ∧
  (∀ system store,
     (init system store).1 = Raised e → e = StoreError ConnectivityError).
Proof.
  split_and!.
  - intros self. apply get_parcels_raises.
  - intros d s self. apply add_parcel_raises.
  - intros self. apply build_adjacency_matrix_raises.
  - intros system store. unfold init.
    apply (raises_only_bind connectivity_error);
      [apply build_adjacency_matrix_raises|intros _].
    apply raises_only_bind; [apply get_parcels_raises|intros _].
    raises.
Qed.

(** ** [convey]: what a successful call has done, and what a failed one has not *)

Lemma triples_update_outage old new c self :
  head (outages (db self)) = Some true →
  triples_update old new c self =
    (Raised (StoreError ConnectivityError),
     with_db (received (ReqUpdate old new c) (db self)) self).
Proof.
  intros Ho. unfold triples_update.
  erewrite bind_raised; [done|]. by apply send_outage.
Qed.

Lemma first_slot_first connections next idx k :
  first_slot connections next idx = Some k →
  ∃ i, k = idx + i ∧ connections !! i = Some (Some next) ∧
       ∀ j, j < i → connections !! j ≠ Some (Some next).
Proof.
  revert idx. induction connections as [|c cs IH]; intros idx; simpl; [done|].
  case_decide as Hc.
  - intros [= <-]. exists 0. split_and!; [lia|by rewrite Hc|lia].
  - intros (i & -> & Hi & Hfirst)%IH. exists (S i). split_and!; [lia|done|].
    intros [|j] Hj; simpl; [congruence|]. apply Hfirst. lia.
Qed.

Lemma possession_head A p ts t :
  head (select (Some A) (Some Vocab.hasPossession) None ts) = Some t →
  t_obj t = p → t = (A, Vocab.hasPossession, p).
Proof.
  intros [_ [Hs Hp]%matches_subject_predicate]%head_elem%elem_of_select Ho.
  destruct t as [[s q] o]. unfold t_sub, t_pred, t_obj in *. simpl in *.
  by subst.
Qed.

(** The run of [convey] once the occupancy read is answered and the
    direction resolves: the conditioned update is the second request, and
    its outcome is the outcome of the call. *)
Lemma convey_resolved self A B connections idx direction :
  answers (db self) →
  PyDict.get A (adjacency_matrix self) = Some connections →
  first_slot connections B 0 = Some idx →
  directions !! idx = Some direction →
  let T := triples (db self) in
  let p := from_option t_obj EmptyString
             (head (select (Some A) (Some Vocab.hasPossession) None T)) in
  let update := ReqUpdate (possession_facts A p) (possession_facts B p) true in
  let d1 := received (ReqGet (Some A) (Some Vocab.hasPossession) None) (db self) in
  ∃ self',
    db self' =
      (if bool_decide (answers d1 ∧ Forall (λ t, t ∈ T) (possession_facts A p))
       then stored (insert_facts (possession_facts B p)
                      (remove_facts (possession_facts A p) T))
       else id) (received update d1) ∧
    convey A B self =
      (if bool_decide (answers d1) then
         if bool_decide (Forall (λ t, t ∈ T) (possession_facts A p))
         then Returned (true, MsgConveyInto (_shorten_iri p) direction)
         else Raised (StoreError PreconditionError)
       else Raised (StoreError ConnectivityError),
       self').
Proof.
  intros Ha Hget Hslot Hd T p update d1. unfold convey.
  run_with ltac:(by apply triples_get_answered).
  cbn [adjacency_matrix with_log with_db db triples]. rewrite Hget, Hslot, Hd.
  fold T. fold p.
  erewrite bind_returned by reflexivity.
  destruct (answers_dec d1) as [Ha1|Ho1].
  - rewrite (bool_decide_eq_true_2 (answers d1)) by done.
    destruct (decide (Forall (λ t, t ∈ T) (possession_facts A p))) as [Hall|Hall].
    + rewrite (bool_decide_eq_true_2 (Forall _ _)) by done.
      rewrite (bool_decide_eq_true_2 (_ ∧ _)) by done.
      erewrite bind_returned.
      2:{ erewrite try_returned; [reflexivity|].
          by apply triples_update_applied. }
      erewrite bind_returned by reflexivity.
      eexists. split; [|reflexivity]. done.
    + rewrite (bool_decide_eq_false_2 (Forall _ _)) by done.
      rewrite (bool_decide_eq_false_2 (_ ∧ _)) by (by intros [_ ?]).
      erewrite bind_raised.
      2:{ erewrite try_raised; [|by apply triples_update_rejected].
          erewrite bind_returned by reflexivity. reflexivity. }
      eexists. split; [|reflexivity]. done.
  - rewrite (bool_decide_eq_false_2 (answers d1)) by (by intros ?).
    rewrite (bool_decide_eq_false_2 (_ ∧ _)) by (by intros [? _]).
    erewrite bind_raised.
    2:{ erewrite try_raised; [|by apply triples_update_outage].
        erewrite bind_returned by reflexivity. reflexivity. }
    eexists. split; [|reflexivity]. done.
Qed.

Lemma get_Some_key {V} (k : string) (v : V) (d : dict V) :
  PyDict.get k d = Some v → k ∈ PyDict.keys d.
Proof. intros H. apply get_is_Some. by exists v. Qed.

(** X8.  On a reachable store, when [A] has an entry of at most four slots
    one of which holds [B], the first possession fact of [A] names parcel
    [p], and the inverse fact [(p, isPossessedBy, A)] is stored: [convey A B]
    returns [True] with the message naming the direction of the first slot
    that holds [B]; afterwards the store holds the two possession facts for
    [B] and [p] and, besides them, exactly the old facts other than the two
    possession facts for [A] and [p]; the occupancy read and the
    conditioned update are the only requests sent. *)
Theorem convey_moves_parcel (self : FlexConveyorSystem) (A B p : string)
    (connections : list (option string)) (t : triple) :
  reachable (db self) →
  PyDict.get A (adjacency_matrix self) = Some connections →
  length connections ≤ 4 →
  Some B ∈ connections →
  head (select (Some A) (Some Vocab.hasPossession) None (triples (db self)))
    = Some t →
  t_obj t = p →
  (p, Vocab.isPossessedBy, A) ∈ triples (db self) →
  let r := convey A B self in
  (∃ idx direction,
     r.1 = Returned (true, MsgConveyInto (_shorten_iri p) direction) ∧
     directions !! idx = Some direction ∧
     connections !! idx = Some (Some B) ∧
     ∀ j, j < idx → connections !! j ≠ Some (Some B)) ∧
  (∀ f, f ∈ triples (db r.2) ↔
        (f ∈ triples (db self) ∧ f ∉ possession_facts A p) ∨
        f ∈ possession_facts B p) ∧
  sent_since self r.2 =
    [ ReqGet (Some A) (Some Vocab.hasPossession) None;
      ReqUpdate (possession_facts A p) (possession_facts B p) true ].
Proof.
  intros Hr Hget Hlen Hin Hhead Hobj Hinv.
  destruct (first_slot_Some connections B 0 Hin) as (k & Hslot & Hk).
  destruct (lookup_lt_is_Some_2 directions k) as [direction Hd];
    [simpl; lia|].
  simpl in Hslot.
  destruct (first_slot_first _ _ _ _ Hslot) as (i & Hi & Hith & Hfirst).
  simpl in Hi. subst i.
  pose proof (possession_head A p _ t Hhead Hobj) as ->.
  destruct (convey_resolved self A B connections k direction)
    as (self' & Hdb & Hrun); [by apply reachable_answers|done..|].
  rewrite Hhead in Hdb, Hrun. simpl from_option in Hdb, Hrun.
  change (t_obj (A, Vocab.hasPossession, p)) with p in Hdb, Hrun.
  assert (answers (received (ReqGet (Some A) (Some Vocab.hasPossession) None)
                     (db self))) as Ha1
    by by apply reachable_answers, reachable_received.
  assert (Forall (λ f, f ∈ triples (db self)) (possession_facts A p)) as Hall.
  { unfold possession_facts. repeat constructor; [|done].
    by apply head_elem, elem_of_select in Hhead as [? _]. }
  rewrite (bool_decide_eq_true_2 (_ ∧ _)) in Hdb by done.
  rewrite (bool_decide_eq_true_2 (answers _)) in Hrun by done.
  rewrite (bool_decide_eq_true_2 (Forall _ _)) in Hrun by done.
  cbv zeta. unfold sent_since. rewrite Hrun. cbn [fst snd]. rewrite Hdb.
  unfold stored. cbn [triples journal received].
  split_and!.
  - by exists k, direction.
  - intros f. rewrite elem_of_insert_facts, elem_of_remove_facts. done.
  - rewrite <-app_assoc. by rewrite drop_app_length.
Qed.

Lemma convey_moves_parcel_witness :
  let self :=
    Examples.system_of Examples.ring
      [("module1", Vocab.hasPossession, "p");
       ("p", Vocab.isPossessedBy, "module1");
       ("p", Vocab.hasDestination, "module3")] [] in
  (convey "module1" "module2" self).1
    = Returned (true, MsgConveyInto "p" EAST) ∧
  ("module2", Vocab.hasPossession, "p")
    ∈ triples (db (convey "module1" "module2" self).2) ∧
  ("module1", Vocab.hasPossession, "p")
    ∉ triples (db (convey "module1" "module2" self).2).
Proof.
  destruct (convey_moves_parcel
              (Examples.system_of Examples.ring
                 [("module1", Vocab.hasPossession, "p");
                  ("p", Vocab.isPossessedBy, "module1");
                  ("p", Vocab.hasDestination, "module3")] [])
              "module1" "module2" "p"
              [None; Some "module2"; None; None]
              ("module1", Vocab.hasPossession, "p"))
    as ((idx & direction & Hrun & _) & Hfacts & _).
  - apply Forall_nil_2.
  - by vm_compute.
  - simpl. lia.
  - compute_done.
  - by vm_compute.
  - done.
  - compute_done.
  - split_and!.
    + by vm_compute.
    + apply Hfacts. right. compute_done.
    + rewrite Hfacts. intros [[_ Hn]|Hn].
      * apply Hn. compute_done.
      * revert Hn. compute_done.
Defined.

(** X9.  However [convey A B] ends, it has changed the facts of the store
    only if it returned: a call that raises leaves them as they were.  And
    it returns only after a real move: [B] fills a slot of [A], the first
    possession fact of [A] names a parcel [p], the inverse fact was stored,
    the result is [True], and the facts are the old ones with the two
    possession facts moved from [A] to [B]. *)
Theorem convey_all_or_nothing (self : FlexConveyorSystem) (A B : string) :
  let r := convey A B self in
  (∀ e, r.1 = Raised e → triples (db r.2) = triples (db self)) ∧
  (∀ res msg, r.1 = Returned (res, msg) →
     res = true ∧ edge (adjacency_matrix self) A B ∧
     ∃ p direction,
       msg = MsgConveyInto (_shorten_iri p) direction ∧
       head (select (Some A) (Some Vocab.hasPossession) None
               (triples (db self))) = Some (A, Vocab.hasPossession, p) ∧
       (p, Vocab.isPossessedBy, A) ∈ triples (db self) ∧
       ∀ f, f ∈ triples (db r.2) ↔
            (f ∈ triples (db self) ∧ f ∉ possession_facts A p) ∨
            f ∈ possession_facts B p) ∧
  r.1 ≠ OutOfFuel.
Proof.
  cbv zeta.
  destruct (answers_dec (db self)) as [Ha|Ho].
  2:{ rewrite convey_outage by done. simpl. split_and!; [done| |done].
      intros res msg [=]. }
  destruct (PyDict.get A (adjacency_matrix self)) as [connections|] eqn:Hget.
  2:{ destruct (convey_rejected self A B (ModuleNotFound A) Ha)
        as (self' & -> & Hdb); [by rewrite Hget|].
      simpl. rewrite Hdb. split_and!; [done| |done]. intros res msg [=]. }
  destruct (first_slot connections B 0) as [idx|] eqn:Hslot.
  2:{ destruct (convey_rejected self A B (NoValidDirection A B) Ha)
        as (self' & -> & Hdb); [by rewrite Hget|].
      simpl. rewrite Hdb. split_and!; [done| |done]. intros res msg [=]. }
  destruct (directions !! idx) as [direction|] eqn:Hd.
  2:{ assert (∃ self', convey A B self = (Raised IndexError, self') ∧
                triples (db self') = triples (db self)) as (self' & -> & Hdb).
      { unfold convey.
        run_with ltac:(by apply triples_get_answered).
        cbn [adjacency_matrix with_log with_db db triples].
        rewrite Hget, Hslot, Hd. eexists. split; [reflexivity|done]. }
      simpl. split_and!; [done| |done]. intros res msg [=]. }
  destruct (convey_resolved self A B connections idx direction Ha Hget Hslot Hd)
    as (self' & Hdb & Hrun).
  rewrite Hrun. cbn [fst snd]. rewrite Hdb. clear Hrun Hdb. unfold stored.
  set (T := triples (db self)).
  set (p := from_option t_obj EmptyString
              (head (select (Some A) (Some Vocab.hasPossession) None T))).
  destruct (first_slot_first _ _ _ _ Hslot) as (i & _ & Hith & _).
  assert (edge (adjacency_matrix self) A B) as Hedge.
  { exists connections. split; [done|]. by eapply list_elem_of_lookup_2. }
  repeat case_bool_decide; cbn [triples received id]; split_and!;
    try done; try naive_solver.
  intros res msg [= <- <-]. split_and!; [done..|].
  exists p, direction. destruct_and!.
  match goal with H : Forall _ _ |- _ => rename H into Hall end.
  unfold possession_facts in Hall.
  apply Forall_cons in Hall as [Hposs [Hinv _]%Forall_cons].
  split_and!; [done| |done|].
  - fold T.
    assert ((A, Vocab.hasPossession, p)
              ∈ select (Some A) (Some Vocab.hasPossession) None T) as Hsel.
    { apply elem_of_select. split; [done|].
      by apply matches_subject_predicate. }
    subst p.
    destruct (select (Some A) (Some Vocab.hasPossession) None T)
      as [|t l] eqn:Hl; [by apply elem_of_nil in Hsel|].
    simpl. f_equal. eapply (possession_head A _ T t); [|done].
    by rewrite Hl.
  - intros f. rewrite elem_of_insert_facts, elem_of_remove_facts. done.
Qed.

(** ** A sync that fails *)

Lemma record_parcel_cases module self :
  let T := triples (db self) in
  ∃ self',
    triples (db self') = T ∧
    ((record_parcel module self = (Returned tt, self') ∧
      parcels self' = observe_module T (parcels self) module) ∨
     (record_parcel module self =
        (Raised (StoreError ConnectivityError), self') ∧
      parcels self' = parcels self)).
Proof.
  intros T. unfold record_parcel.
  destruct (answers_dec (db self)) as [Ha|Ho].
  2:{ eexists. split; [|right; split].
      2:{ erewrite bind_raised; [reflexivity|]. by apply triples_get_outage. }
      all: done. }
  erewrite bind_returned by (by apply triples_get_answered).
  unfold observe_module. fold T.
  destruct (select (Some module) (Some Vocab.hasPossession) None T)
    as [|t l] eqn:Hsel.
  { eexists. split; [|left; split; [reflexivity|]]; done. }
  cbv zeta.
  set (s1 := with_db _ self).
  destruct (answers_dec (db s1)) as [Ha1|Ho1].
  2:{ eexists. split; [|right; split].
      2:{ erewrite bind_raised; [reflexivity|]. by apply triples_get_outage. }
      all: done. }
  erewrite bind_returned by (by apply triples_get_answered).
  erewrite bind_returned by reflexivity.
  eexists. split; [|left; split; [reflexivity|]]; done.
Qed.

Lemma build_loop_raised modules self e self' :
  for_each modules record_parcel self = (Raised e, self') →
  e = StoreError ConnectivityError ∧
  triples (db self') = triples (db self) ∧
  ∃ k, k < length modules ∧
       parcels self' =
         foldl (observe_module (triples (db self))) (parcels self)
           (take k modules).
Proof.
  revert self. induction modules as [|m modules IH]; intros self; simpl.
  - intros [=].
  - destruct (record_parcel_cases m self)
      as (s1 & HT & [[Hrun Hps]|[Hrun Hps]]).
    + erewrite bind_returned by exact Hrun.
      intros (-> & HT' & k & Hk & Hps')%IH. split_and!; [done|congruence|].
      exists (S k). split; [lia|]. simpl. by rewrite Hps', HT, Hps.
    + erewrite bind_raised by exact Hrun. intros [= <- <-].
      split_and!; [done..|]. exists 0. split; [lia|done].
Qed.

Lemma collect_arrived_returns items : returns (collect_arrived items).
Proof.
  intros self. destruct (collect_arrived_run items self) as (infos & -> & _).
  by eexists.
Qed.

Lemma cleanup_parcel_returns p : returns (cleanup_parcel p).
Proof.
  intros self. destruct (cleanup_parcel_run p self) as (s & d & -> & _).
  by eexists.
Qed.

Lemma returns_not_raised {A} (c : M A) self e self' :
  returns c → c self ≠ (Raised e, self').
Proof. intros Hc H. destruct (Hc self) as [a Ha]. by rewrite H in Ha. Qed.

Lemma get_parcels_raised self e self' :
  get_parcels self = (Raised e, self') →
  for_each (PyDict.keys (adjacency_matrix self)) record_parcel
    (with_parcels [] self) = (Raised e, self').
Proof.
  unfold get_parcels.
  erewrite bind_returned by reflexivity.
  erewrite bind_returned by reflexivity.
  intros [H|(a & s1 & _ & H)]%bind_raised_inv; [done|].
  exfalso. revert H. erewrite bind_returned by reflexivity.
  intros [H|(l & s2 & _ & H)]%bind_raised_inv.
  { by eapply returns_not_raised in H; [|apply collect_arrived_returns]. }
  apply bind_raised_inv in H as [H|(? & ? & _ & [=])].
  eapply returns_not_raised in H; [done|].
  apply returns_for_each, cleanup_parcel_returns.
Qed.

(** X10.  A sync that raises has failed on a read of its first loop, with a
    connectivity error: the facts of the store and the log are as before,
    but [self.parcels] has been reset and rebuilt only for the modules
    scanned before the failure - it holds what the first [k] modules of the
    model possess, for some [k] short of the number of modules. *)
Theorem sync_failure_truncates_map (self : FlexConveyorSystem) (e : exn) :
  (get_parcels self).1 = Raised e →
  let self' := (get_parcels self).2 in
  e = StoreError ConnectivityError ∧
  triples (db self') = triples (db self) ∧
  log self' = log self ∧
  ∃ k, k < length (PyDict.keys (adjacency_matrix self)) ∧
       parcels self' =
         observe (triples (db self))
           (take k (PyDict.keys (adjacency_matrix self))).
Proof.
  intros Hraised self'.
  destruct (get_parcels self) as [o s1] eqn:Hrun. simpl in Hraised. subst o.
  subst self'. simpl.
  pose proof (get_parcels_raised _ _ _ Hrun) as Hloop.
  destruct (build_loop_raised _ _ _ _ Hloop) as (-> & HT & k & Hk & Hps).
  split_and!; [done..| |by exists k].
  destruct (get_parcels_run self) as [(e' & s' & Hrun' & Hlog)|
                                      (ps & s' & d & Hrun' & _)]; congruence.
Qed.

Lemma sync_failure_truncates_map_witness :
  let self :=
    Examples.system_of Examples.ring
      [("module1", Vocab.hasPossession, "p");
       ("module2", Vocab.hasPossession, "q")] [false; false; true] in
  (get_parcels self).1 = Raised (StoreError ConnectivityError) ∧
  PyDict.keys (parcels (get_parcels self).2) = ["p"].
Proof.
  cbv zeta.
  destruct (sync_failure_truncates_map
              (Examples.system_of Examples.ring
                 [("module1", Vocab.hasPossession, "p");
                  ("module2", Vocab.hasPossession, "q")] [false; false; true])
              (StoreError ConnectivityError)) as (_ & _ & _ & k & Hk & Hps).
  - by vm_compute.
  - split; by vm_compute.
Defined.

(** ** Reads leave everything but the journal alone *)

Lemma send_ignored {B} (f : FlexConveyorSystem → B) r :
  ignores_requests f → frames f (send r).
Proof.
  intros Hf self. unfold send, bind, read, set_db, raise, ret. simpl.
  destruct (head (outages (db self))) as [[]|]; simpl; apply Hf.
Qed.

Lemma triples_get_ignored {B} (f : FlexConveyorSystem → B) s p o :
  ignores_requests f → frames f (triples_get s p o).
Proof. intros Hf. unfold triples_get. frame. by apply send_ignored. Qed.

Lemma query_ignored {B} (f : FlexConveyorSystem → B) s p :
  ignores_requests f → frames f (query s p).
Proof. intros Hf. unfold query. frame. by apply send_ignored. Qed.

Lemma query_connections_ignored {B} (f : FlexConveyorSystem → B) module ds :
  ignores_requests f → frames f (query_connections module ds).
Proof.
  intros Hf. induction ds as [|d ds IH]; simpl; frame.
  by apply query_ignored.
Qed.

Lemma build_adjacency_dict_ignored {B} (f : FlexConveyorSystem → B)
    modules acc :
  ignores_requests f → frames f (build_adjacency_dict modules acc).
Proof.
  intros Hf. revert acc.
  induction modules as [|m modules IH]; intros acc;
    cbn [build_adjacency_dict]; frame.
  by apply query_connections_ignored.
Qed.

Lemma facts_ignore_requests : ignores_requests facts.
Proof. by intros r self. Qed.

(** ** [delete_parcel] under any schedule of outages *)

Lemma triples_get_rows_cases s p o self :
  ∃ self',
    facts self' = facts self ∧ literals (db self') = literals (db self) ∧
    (triples_get_rows s p o self =
       (Returned
          ((as_row <$> select s p o (facts self)) ++
           (literal_row <$> select_literals s p o (literals (db self)))),
        self') ∨
     triples_get_rows s p o self =
       (Raised (StoreError ConnectivityError), self')).
Proof.
  destruct (answers_dec (db self)) as [Ha|Ho].
  - rewrite triples_get_rows_answered by done. eexists.
    split_and!; [| |by left]; done.
  - rewrite triples_get_rows_outage by done. eexists.
    split_and!; [| |by right]; done.
Qed.

Lemma triples_delete_cases ts self :
  ∃ self',
    literals (db self') = literals (db self) ∧
    ((triples_delete ts self = (Returned true, self') ∧
      facts self' = remove_facts ts (facts self)) ∨
     (triples_delete ts self = (Raised (StoreError ConnectivityError), self') ∧
      facts self' = facts self)).
Proof.
  destruct (answers_dec (db self)) as [Ha|Ho].
  - rewrite triples_delete_answered by done. eexists. split; [|by left]. done.
  - rewrite triples_delete_outage by done. eexists. split; [|by right]. done.
Qed.

(** X11.  Whatever the store's schedule of outages, [delete_parcel] is all
    or nothing, and it never touches a literal fact.  If it returns, some
    fact among identifiers mentioned the parcel and the store now holds
    exactly the earlier facts among identifiers that do not mention it.
    If it raises, these facts are unchanged, and the error is a
    connectivity error or the "not found" [ValueError] - the latter only
    when indeed no fact among identifiers mentions the parcel. *)
Theorem delete_parcel_all_or_nothing (self : FlexConveyorSystem) (p : string) :
  let r := delete_parcel p self in
  literals (db r.2) = literals (db self) ∧
  match r.1 with
  | Returned _ =>
      Exists (mentions p) (facts self) ∧
      ∀ t, t ∈ facts r.2 ↔ t ∈ facts self ∧ ¬ mentions p t
  | Raised e =>
      facts r.2 = facts self ∧
      (e = StoreError ConnectivityError ∨
       (e = ValueError (ParcelNotFound p) ∧
        Forall (λ t, ¬ mentions p t) (facts self)))
  | OutOfFuel => False
  end.
Proof.
  cbv zeta. unfold delete_parcel.
  destruct (triples_get_rows_cases (Some p) None None self)
    as (s1 & HT1 & HL1 & [Hrun1|Hrun1]).
  2:{ erewrite bind_raised by exact Hrun1. simpl. auto. }
  erewrite bind_returned by exact Hrun1.
  destruct (triples_get_rows_cases None None (Some p) s1)
    as (s2 & HT2 & HL2 & [Hrun2|Hrun2]).
  2:{ erewrite bind_raised by exact Hrun2. simpl.
      split_and!; [congruence|congruence|auto]. }
  erewrite bind_returned by exact Hrun2. cbv zeta.
  rewrite !omap_str_triple_rows, HT1.
  fold (facts_about p (facts self)).
  destruct (facts_about p (facts self)) as [|t ts] eqn:Hf.
  - erewrite bind_returned by reflexivity. simpl.
    split_and!; [congruence|unfold facts in *; simpl; congruence|].
    right. split; [done|]. by apply facts_about_nil.
  - rewrite <-Hf.
    destruct (triples_delete_cases (facts_about p (facts self)) s2)
      as (s3 & HL3 & [[Hrun3 HT3]|[Hrun3 HT3]]).
    + erewrite bind_returned by exact Hrun3. simpl. split_and!.
      * congruence.
      * apply Exists_exists. exists t.
        apply (elem_of_facts_about p t (facts self)).
        rewrite Hf. by left.
      * intros f. rewrite HT3, HT2, HT1, elem_of_remove_facts.
        rewrite elem_of_facts_about. naive_solver.
    + erewrite bind_raised by exact Hrun3. simpl.
      split_and!; [congruence|congruence|auto].
Qed.

(** ** [add_parcel] when the store fails *)

Lemma triples_add_outage ts self :
  head (outages (db self)) = Some true →
  triples_add ts self =
    (Raised (StoreError ConnectivityError),
     with_db (received (ReqAdd ts) (db self)) self).
Proof.
  intros Ho. unfold triples_add.
  erewrite bind_raised; [done|]. by apply send_outage.
Qed.

(** X12.  [add_parcel] when the store fails.  If the insertion itself is
    not answered, the call raises the connectivity error after logging it,
    and the counter, the parcel map and the facts are as before.  If the
    insertion is answered, the counter has grown by one however the call
    ends; when the call then still raises - the sync it runs has failed -
    the five facts of the new parcel are nevertheless in the store. *)
Theorem add_parcel_not_atomic (self : FlexConveyorSystem) (dest start : string) :
  let p := parcel_name (parcel_counter self) in
  let r := add_parcel dest start self in
  (head (outages (db self)) = Some true →
   r.1 = Raised (StoreError ConnectivityError) ∧
   parcel_counter r.2 = parcel_counter self ∧
   parcels r.2 = parcels self ∧
   facts r.2 = facts self ∧
   sent_since self r.2 = [ReqAdd (parcel_facts p dest start)] ∧
   logged_since self r.2 =
     [LogError (MsgAddParcelError (StoreError ConnectivityError))]) ∧
  (answers (db self) →
   parcel_counter r.2 = parcel_counter self + 1 ∧
   ∀ e, r.1 = Raised e →
        e = StoreError ConnectivityError ∧
        (∀ t, t ∈ facts r.2 ↔ t ∈ facts self ∨ t ∈ parcel_facts p dest start) ∧
        logged_since self r.2 = [LogError (MsgAddParcelError e)]).
Proof.
  intros p r. subst r. unfold add_parcel.
  erewrite bind_returned by reflexivity. cbv zeta.
  fold p. fold (parcel_facts p dest start). split.
  - intros Ho. erewrite try_raised.
    2:{ erewrite bind_raised; [reflexivity|]. by apply triples_add_outage. }
    erewrite bind_returned by reflexivity.
    unfold raise, sent_since, logged_since. simpl.
    rewrite !drop_app_length. done.
  - intros Ha.
    set (sA := with_db (stored (insert_facts (parcel_facts p dest start)
                                  (triples (db self)))
                          (received (ReqAdd (parcel_facts p dest start))
                             (db self))) self).
    set (sB := with_parcel_counter (parcel_counter self + 1) sA).
    destruct (get_parcels sB) as [[m|e|] s1] eqn:Hsync.
    + erewrite try_returned.
      2:{ erewrite bind_returned by (by apply triples_add_answered).
          erewrite bind_returned by reflexivity.
          erewrite bind_returned by reflexivity.
          erewrite bind_returned by exact Hsync. reflexivity. }
      simpl. split; [|by intros e [=]].
      pose proof (get_parcels_frames_parcel_counter sB) as H.
      by rewrite Hsync in H.
    + erewrite try_raised.
      2:{ erewrite bind_returned by (by apply triples_add_answered).
          erewrite bind_returned by reflexivity.
          erewrite bind_returned by reflexivity.
          erewrite bind_raised by exact Hsync. reflexivity. }
      erewrite bind_returned by reflexivity.
      unfold raise. cbn [fst snd].
      pose proof (get_parcels_frames_parcel_counter sB) as Hc.
      rewrite Hsync in Hc. simpl in Hc.
      split; [done|]. intros e' [= <-].
      pose proof (get_parcels_raised _ _ _ Hsync) as Hloop.
      destruct (build_loop_raised _ _ _ _ Hloop) as (-> & HT & _).
      split_and!; [done| |].
      * intros t. unfold facts. cbn [db with_log]. rewrite HT.
        change (triples (db (with_parcels [] sB)))
          with (insert_facts (parcel_facts p dest start) (triples (db self))).
        apply elem_of_insert_facts.
      * destruct (get_parcels_run sB)
          as [(e' & s' & Hrun' & Hlog)|(ps & s' & d & Hrun' & _)];
          [|congruence].
        rewrite Hsync in Hrun'. injection Hrun' as _ <-.
        unfold logged_since. cbn [log with_log]. rewrite Hlog. simpl.
        by rewrite drop_app_length.
    + exfalso.
      destruct (get_parcels_run sB)
        as [(e' & s' & Hrun' & Hlog)|(ps & s' & d & Hrun' & _)]; congruence.
Qed.

Lemma add_parcel_not_atomic_witness :
  let self := Examples.system_of Examples.ring [] [false; true] in
  let r := add_parcel "module3" "module1" self in
  r.1 = Raised (StoreError ConnectivityError) ∧
  parcel_counter r.2 = 1 ∧
  ("module1", Vocab.hasPossession, parcel_name 0) ∈ facts r.2.
Proof.
  cbv zeta.
  destruct (add_parcel_not_atomic
              (Examples.system_of Examples.ring [] [false; true])
              "module3" "module1") as [_ H].
  destruct H as [Hc He]; [by vm_compute|].
  destruct (He (StoreError ConnectivityError)) as (_ & Hf & _);
    [by vm_compute|].
  split_and!; [by vm_compute|exact Hc|].
  apply Hf. right. compute_done.
Defined.

(** ** [build_adjacency_matrix] *)

Lemma returns_not_raised_run {A} (c : M A) self e :
  returns c → (c self).1 ≠ Raised e.
Proof. intros Hc H. destruct (Hc self) as [a Ha]. congruence. Qed.

Lemma build_adjacency_matrix_raised {B} (f : FlexConveyorSystem → B)
    self e self' :
  ignores_requests f →
  build_adjacency_matrix self = (Raised e, self') → f self' = f self.
Proof.
  unfold build_adjacency_matrix. intros Hf.
  erewrite bind_returned by reflexivity.
  intros [H|(mods & s1 & Hq & H)]%bind_raised_inv.
  { pose proof (query_ignored f (system_iri self)
                  Vocab.containsFlexConveyorModule Hf self) as Hfr.
    by rewrite H in Hfr. }
  pose proof (query_ignored f (system_iri self)
                Vocab.containsFlexConveyorModule Hf self) as Hfr1.
  rewrite Hq in Hfr1. simpl in Hfr1.
  apply bind_raised_inv in H as [H|(d & s2 & _ & H)].
  { pose proof (build_adjacency_dict_ignored f mods [] Hf s1) as Hfr.
    rewrite H in Hfr. simpl in Hfr. congruence. }
  exfalso. revert H. erewrite bind_returned by reflexivity.
  erewrite bind_returned by reflexivity.
  erewrite bind_returned by reflexivity.
  erewrite bind_returned by reflexivity.
  intros H. eapply returns_not_raised in H; [done|].
  apply returns_for_each. intros row. apply returns_print.
Qed.

(** X13.  A [build_adjacency_matrix] that raises has failed on one of its
    queries with a connectivity error and has assigned nothing: the
    adjacency model of the instance is the one it had before, nothing was
    logged or printed, and the facts of the store are unchanged. *)
Theorem build_adjacency_matrix_failure (self : FlexConveyorSystem) (e : exn) :
  (build_adjacency_matrix self).1 = Raised e →
  let self' := (build_adjacency_matrix self).2 in
  e = StoreError ConnectivityError ∧
  adjacency_matrix self' = adjacency_matrix self ∧
  log self' = log self ∧
  stdout self' = stdout self ∧
  facts self' = facts self.
Proof.
  intros Hraised self'. split; [by eapply build_adjacency_matrix_raises|].
  destruct (build_adjacency_matrix self) as [o s1] eqn:Hrun.
  simpl in Hraised. subst o. subst self'. simpl.
  split_and!;
    (eapply build_adjacency_matrix_raised; [|exact Hrun]; by intros ??).
Qed.

Lemma build_adjacency_matrix_failure_witness :
  let self :=
    Examples.system_of Examples.ring
      [("sys", Vocab.containsFlexConveyorModule, "module7")] [false; false; true] in
  (build_adjacency_matrix self).1 = Raised (StoreError ConnectivityError) ∧
  adjacency_matrix (build_adjacency_matrix self).2 = Examples.ring.
Proof.
  cbv zeta.
  destruct (build_adjacency_matrix_failure
              (Examples.system_of Examples.ring
                 [("sys", Vocab.containsFlexConveyorModule, "module7")]
                 [false; false; true])
              (StoreError ConnectivityError)) as (_ & Hadj & _).
  - by vm_compute.
  - split; [by vm_compute|exact Hadj].
Defined.

Lemma query_answered s p self :
  answers (db self) →
  query s p self =
    (Returned (t_obj <$> select (Some s) (Some p) None (triples (db self))),
     with_db (received (ReqQuery s p) (db self)) self).
Proof.
  intros Ha. unfold query.
  erewrite bind_returned by (by apply send_answered). done.
Qed.

Lemma with_db_with_db d d' self : with_db d (with_db d' self) = with_db d self.
Proof. done. Qed.

Lemma query_connections_reachable module ds self :
  reachable (db self) →
  ∃ d',
    query_connections module ds self =
      (Returned ((λ d, first_object (facts self) module (connection_property d))
                   <$> ds),
       with_db d' self) ∧
    reachable d' ∧ triples d' = facts self.
Proof.
  revert self. induction ds as [|d ds IH]; intros self Hr; simpl.
  - exists (db self). by destruct self as [? []].
  - erewrite bind_returned
      by (apply query_answered; by apply reachable_answers).
    destruct (IH (with_db (received (ReqQuery module (connection_property d))
                             (db self)) self))
      as (d' & Hrun & Hr' & HT'); [by apply reachable_received|].
    erewrite bind_returned by exact Hrun.
    exists d'. split_and!; done.
Qed.

Lemma build_adjacency_dict_reachable modules acc self :
  reachable (db self) →
  ∃ d',
    build_adjacency_dict modules acc self =
      (Returned
         (foldl (λ acc module,
                   PyDict.set module
                     ((λ d, first_object (facts self) module
                              (connection_property d)) <$> directions) acc)
            acc modules),
       with_db d' self) ∧
    reachable d' ∧ triples d' = facts self.
Proof.
  revert acc self.
  induction modules as [|m modules IH]; intros acc self Hr;
    cbn [build_adjacency_dict foldl].
  - exists (db self). by destruct self as [? []].
  - destruct (query_connections_reachable m directions self Hr)
      as (d1 & Hrun1 & Hr1 & HT1).
    erewrite bind_returned by exact Hrun1.
    destruct (IH (PyDict.set m
                    ((λ d, first_object (facts self) m (connection_property d))
                       <$> directions) acc)
                (with_db d1 self) Hr1) as (d2 & Hrun2 & Hr2 & HT2).
    rewrite Hrun2. exists d2.
    unfold facts in *. cbn [db with_db] in *. rewrite HT1.
    split_and!; [done..|congruence].
Qed.

Section Table.
Context {V : Type} (g : string → V).

Lemma table_keys (ms : list string) (acc : dict V) m :
  m ∈ PyDict.keys (foldl (λ acc m, PyDict.set m (g m) acc) acc ms) ↔
  m ∈ PyDict.keys acc ∨ m ∈ ms.
Proof.
  revert acc. induction ms as [|m' ms IH]; intros acc; simpl.
  - rewrite elem_of_nil. naive_solver.
  - rewrite IH, elem_of_cons.
    destruct (decide (m' ∈ PyDict.keys acc)) as [Hin|Hin].
    + rewrite keys_set_in by done. naive_solver.
    + rewrite keys_set_notin, elem_of_app, list_elem_of_singleton by done.
      naive_solver.
Qed.

Lemma table_get (ms : list string) (acc : dict V) m :
  PyDict.get m (foldl (λ acc m, PyDict.set m (g m) acc) acc ms) =
  if decide (m ∈ ms) then Some (g m) else PyDict.get m acc.
Proof.
  revert acc. induction ms as [|m' ms IH]; intros acc; simpl.
  - by destruct (decide (m ∈ [])) as [?%elem_of_nil|].
  - rewrite IH. destruct (decide (m ∈ ms)) as [Hin|Hin].
    + destruct (decide (m ∈ m' :: ms)) as [|Hn]; [done|].
      destruct Hn. by right.
    + destruct (decide (m' = m)) as [->|Hne].
      * rewrite get_set_eq.
        destruct (decide (m ∈ m :: ms)) as [|Hn]; [done|].
        destruct Hn. by left.
      * rewrite get_set_ne by done.
        destruct (decide (m ∈ m' :: ms)) as [[?|?]%elem_of_cons|]; [..|done];
          congruence.
Qed.

Lemma table_wf (ms : list string) (acc : dict V) :
  PyDict.wf acc →
  PyDict.wf (foldl (λ acc m, PyDict.set m (g m) acc) acc ms).
Proof.
  revert acc. induction ms as [|m' ms IH]; intros acc Hwf; simpl; [done|].
  by apply IH, wf_set.
Qed.

Lemma table_keys_order (ms : list string) (acc : dict V) :
  NoDup (PyDict.keys acc ++ ms) →
  PyDict.keys (foldl (λ acc m, PyDict.set m (g m) acc) acc ms) =
  PyDict.keys acc ++ ms.
Proof.
  revert acc. induction ms as [|m' ms IH]; intros acc Hnd; simpl.
  - by rewrite app_nil_r.
  - assert (m' ∉ PyDict.keys acc) as Hnot.
    { apply NoDup_app in Hnd as (_ & Hd & _). intros Hin.
      apply (Hd m' Hin). by left. }
    rewrite IH; rewrite keys_set_notin by done; rewrite <-app_assoc; done.
Qed.
End Table.

Lemma printed_rows (rows : dict (list (option string))) self :
  for_each rows (λ row, print (PrintAdjacencyRow row.1 row.2)) self =
    (Returned tt,
     with_stdout
       (stdout self ++ ((λ row, PrintAdjacencyRow row.1 row.2) <$> rows))
       self).
Proof.
  revert self. induction rows as [|row rows IH]; intros self; simpl.
  - rewrite app_nil_r. by destruct self.
  - erewrite bind_returned by reflexivity. rewrite IH. unfold with_stdout.
    simpl. by rewrite <-app_assoc.
Qed.

(** X14.  On a reachable store [build_adjacency_matrix] returns, changes no
    fact, and assigns a model that mirrors the store: a dictionary whose
    keys are exactly the objects of the [containsFlexConveyorModule] facts
    of the system (in store order when these are distinct), each with four
    slots - north, east, south, west - holding the object of the module's
    first connection fact for that direction, or [None]; it logs the number
    of modules and prints one row per module after the two header lines. *)
Theorem build_adjacency_matrix_mirrors_store (self : FlexConveyorSystem) :
  reachable (db self) →
  let r := build_adjacency_matrix self in
  let adj := adjacency_matrix r.2 in
  let modules :=
    t_obj <$> select (Some (system_iri self))
                (Some Vocab.containsFlexConveyorModule) None (facts self) in
  r.1 = Returned tt ∧
  reachable (db r.2) ∧
  facts r.2 = facts self ∧
  PyDict.wf adj ∧
  (∀ m, m ∈ PyDict.keys adj ↔
        (system_iri self, Vocab.containsFlexConveyorModule, m) ∈ facts self) ∧
  (NoDup modules → PyDict.keys adj = modules) ∧
  (∀ m c, PyDict.get m adj = Some c →
          c = [ first_object (facts self) m Vocab.hasNorthConnection;
                first_object (facts self) m Vocab.hasEastConnection;
                first_object (facts self) m Vocab.hasSouthConnection;
                first_object (facts self) m Vocab.hasWestConnection ]) ∧
  logged_since self r.2 = [LogInfo (MsgBuiltAdjacency (length adj))] ∧
  printed_since self r.2 =
    [PrintAdjacencyHeader; PrintAdjacencyFormat] ++
    ((λ row, PrintAdjacencyRow row.1 row.2) <$> adj).
Proof.
  intros Hr r adj modules. subst r adj. unfold build_adjacency_matrix.
  erewrite bind_returned by reflexivity.
  erewrite bind_returned
    by (apply query_answered; by apply reachable_answers).
  fold (facts self). fold modules.
  set (s1 := with_db _ self).
  destruct (build_adjacency_dict_reachable modules [] s1)
    as (d' & Hrun & Hr' & HT'); [by apply reachable_received|].
  erewrite bind_returned by exact Hrun.
  change (facts s1) with (facts self) in *.
  set (g := λ module : string,
              (λ d, first_object (facts self) module (connection_property d))
                <$> directions) in *.
  set (adj := foldl (λ acc module, PyDict.set module (g module) acc) [] modules)
    in *.
  erewrite bind_returned by reflexivity.
  erewrite bind_returned by reflexivity.
  erewrite bind_returned by reflexivity.
  erewrite bind_returned by reflexivity.
  rewrite printed_rows.
  unfold logged_since, printed_since, facts.
  cbn [fst snd db log stdout adjacency_matrix with_stdout with_log
         with_adjacency_matrix with_db].
  rewrite !drop_app_length.
  split_and!; try done.
  - apply table_wf, wf_nil.
  - intros m. unfold adj. rewrite table_keys. unfold modules.
    rewrite list_elem_of_fmap. split.
    + intros [[]%elem_of_nil|([[s p] o] & -> & [Hin [Hs Hp]%matches_subject_predicate]%elem_of_select)].
      unfold t_sub, t_pred, t_obj in *. simpl in *. by subst.
    + intros Hin. right. exists (system_iri self, Vocab.containsFlexConveyorModule, m).
      split; [done|]. apply elem_of_select. split; [done|].
      by apply matches_subject_predicate.
  - intros Hnd. unfold adj. by rewrite table_keys_order.
  - intros m c. unfold adj. rewrite table_get.
    case_decide; [|done]. by intros [= <-].
  - change (stdout s1) with (stdout self).
    by rewrite <-!app_assoc, drop_app_length.
Qed.

Lemma build_adjacency_matrix_mirrors_store_witness :
  let self := fresh_instance "sys" MoreExamples.ring_store in
  (build_adjacency_matrix self).1 = Returned tt ∧
  adjacency_matrix (build_adjacency_matrix self).2 = Examples.ring.
Proof.
  cbv zeta.
  destruct (build_adjacency_matrix_mirrors_store
              (fresh_instance "sys" MoreExamples.ring_store))
    as (Hrun & _).
  - apply Forall_nil_2.
  - split; [exact Hrun|by vm_compute].
Defined.

(** ** A sync on a reachable store: what the returned map says *)

Lemma first_object_head ts s p :
  first_object ts s p = t_obj <$> head (select (Some s) (Some p) None ts).
Proof.
  unfold first_object. by destruct (select (Some s) (Some p) None ts).
Qed.

Lemma first_object_Some ts s p o :
  first_object ts s p = Some o → (s, p, o) ∈ ts.
Proof.
  rewrite first_object_head.
  destruct (head (select (Some s) (Some p) None ts)) as [t|] eqn:Hhd; [|done].
  intros [= <-].
  apply head_elem, elem_of_select in Hhd
    as [Hin [Hs Hp]%matches_subject_predicate].
  destruct t as [[s' p'] o']. unfold t_sub, t_pred, t_obj in *. simpl in *.
  by subst.
Qed.

Lemma observe_position ts modules q info :
  PyDict.get q (observe ts modules) = Some info →
  current_position info ∈ modules.
Proof.
  induction modules as [|m modules IH] using rev_ind; [done|].
  rewrite observe_snoc. unfold observe_module. rewrite elem_of_app.
  destruct (select (Some m) (Some Vocab.hasPossession) None ts) as [|t l];
    [by auto|].
  destruct (decide (t_obj t = q)) as [<-|Hne].
  - rewrite get_set_eq. intros [= <-]. simpl. right. by left.
  - rewrite get_set_ne by done. auto.
Qed.

Lemma observe_wf ts modules : PyDict.wf (observe ts modules).
Proof.
  induction modules as [|m modules IH] using rev_ind; [apply wf_nil|].
  rewrite observe_snoc. unfold observe_module.
  destruct (select (Some m) (Some Vocab.hasPossession) None ts) as [|t l];
    [done|]. by apply wf_set.
Qed.




(** ** The arrival cleanup on a reachable store *)

Lemma get_del_None {V} (k q : string) (d : dict V) :
  PyDict.get q d = None → PyDict.get q (PyDict.del k d) = None.
Proof.
  rewrite !get_None. intros Hq Hin. by apply keys_del_subseteq in Hin.
Qed.

Lemma cleanup_parcel_found p self :
  reachable (db self) →
  facts_about p (triples (db self)) ≠ [] →
  parcels (cleanup_parcel p self).2 = PyDict.del p (parcels self).
Proof.
  intros Hr Hne. unfold cleanup_parcel.
  erewrite bind_returned by reflexivity.
  set (s1 := with_log _ self).
  unfold try_except.
  erewrite bind_returned by (by apply delete_parcel_found).
  erewrite bind_returned by reflexivity.
  erewrite bind_returned by reflexivity.
  destruct (PyDict.mem p _) eqn:Hmem; [reflexivity|].
  change (PyDict.mem p (parcels self) = false) in Hmem.
  symmetry. apply del_absent.
  destruct (PyDict.get p (parcels self)) eqn:Hget; [|done].
  assert (PyDict.mem p (parcels self) = true) as Hm
    by (apply mem_true; by eexists).
  congruence.
Qed.

Lemma cleanup_parcel_keeps_absent p q self :
  PyDict.get q (parcels self) = None →
  PyDict.get q (parcels (cleanup_parcel p self).2) = None.
Proof.
  intros Hq.
  destruct (cleanup_parcel_run p self) as (s1 & d & -> & _ & Hcases).
  simpl. destruct Hcases as [[-> _]|[-> _]]; [by apply get_del_None|done].
Qed.

Lemma cleanup_loop_keeps_absent l q self :
  PyDict.get q (parcels self) = None →
  PyDict.get q (parcels (for_each l cleanup_parcel self).2) = None.
Proof.
  revert self. induction l as [|p l IH]; intros self Hq; simpl; [done|].
  pose proof (cleanup_parcel_keeps_absent p q self Hq) as H1.
  destruct (cleanup_parcel_run p self) as (s1 & d & Hrun & _).
  rewrite Hrun in H1. erewrite bind_returned by exact Hrun. by apply IH.
Qed.

Lemma cleanup_parcel_keeps_wf p self :
  PyDict.wf (parcels self) → PyDict.wf (parcels (cleanup_parcel p self).2).
Proof.
  intros Hwf.
  destruct (cleanup_parcel_run p self) as (s1 & d & -> & _ & Hcases).
  simpl. destruct Hcases as [[-> _]|[-> _]]; [by apply wf_del|done].
Qed.

(** The deletion of an arrived parcel succeeds when some fact mentions it
    and none of the other parcels to delete. *)
Lemma cleanup_loop_deletes l q self :
  reachable (db self) → PyDict.wf (parcels self) → q ∈ l →
  (∃ t, t ∈ triples (db self) ∧ mentions q t ∧
        ∀ p, p ∈ l → p ≠ q → ¬ mentions p t) →
  PyDict.get q (parcels (for_each l cleanup_parcel self).2) = None.
Proof.
  revert self. induction l as [|p l IH]; intros self Hr Hwf Hq (t & Ht & Hm & Ho);
    [by apply elem_of_nil in Hq|].
  simpl.
  destruct (cleanup_parcel_run p self) as (s1 & d & Hrun & _).
  pose proof (cleanup_parcel_reachable p self Hr) as [Hr1 HT1].
  pose proof (cleanup_parcel_keeps_wf p self Hwf) as Hwf1.
  rewrite Hrun in Hr1, HT1, Hwf1. simpl in Hr1, HT1, Hwf1.
  erewrite bind_returned by exact Hrun.
  destruct (decide (p = q)) as [->|Hne].
  - apply cleanup_loop_keeps_absent.
    pose proof (cleanup_parcel_found q self Hr) as Hdel.
    rewrite Hrun in Hdel. simpl in Hdel. rewrite Hdel.
    + by apply get_del_eq.
    + intros Hnil%facts_about_nil. rewrite Forall_forall in Hnil.
      by apply (Hnil t Ht).
  - apply IH; [done..| |].
    + apply elem_of_cons in Hq as [?|?]; [congruence|done].
    + exists t. split_and!; [|done|].
      * apply HT1. split; [done|]. apply Ho; [by left|done].
      * intros p' Hp'. apply Ho. by right.
Qed.

(** The run of a sync on a reachable store, with what its cleanup loop
    deleted. *)
Lemma get_parcels_deletes self q :
  reachable (db self) →
  let B := observe (triples (db self)) (PyDict.keys (adjacency_matrix self)) in
  q ∈ arrived_parcels B →
  (∃ t, t ∈ triples (db self) ∧ mentions q t ∧
        ∀ p, p ∈ arrived_parcels B → p ≠ q → ¬ mentions p t) →
  PyDict.get q (parcels (get_parcels self).2) = None.
Proof.
  intros Hr B Hq Hfact. unfold get_parcels.
  erewrite bind_returned by reflexivity.
  erewrite bind_returned by reflexivity.
  set (s0 := with_parcels [] self).
  destruct (build_loop_reachable (PyDict.keys (adjacency_matrix s0)) s0 Hr)
    as (s1 & Hbuild & Hr1 & Ht1 & Hp1).
  change (parcels s1 = B) in Hp1.
  erewrite bind_returned by exact Hbuild.
  erewrite bind_returned by reflexivity.
  destruct (collect_arrived_run (parcels s1) s1) as (infos & Hcollect & _).
  erewrite bind_returned by exact Hcollect.
  fold (arrived_parcels (parcels s1)). rewrite Hp1.
  set (s2 := with_log (log s1 ++ infos) s1).
  assert (∃ s3, for_each (arrived_parcels B) cleanup_parcel s2
                = (Returned tt, s3)) as [s3 Hloop].
  { destruct (returns_for_each (arrived_parcels B) cleanup_parcel
                cleanup_parcel_returns s2) as [[] Hret].
    destruct (for_each _ _ s2) as [o s3]. simpl in Hret. subst o. by eexists. }
  pose proof (cleanup_loop_deletes (arrived_parcels B) q s2 Hr1) as Hdel.
  rewrite Hloop in Hdel. simpl in Hdel.
  erewrite bind_returned by exact Hloop. simpl.
  apply Hdel; [|done|].
  - rewrite Hp1. apply observe_wf.
  - by rewrite Ht1.
Qed.

(** X16.  On a reachable store in which no module of the model is itself
    possessed by anything, a sync leaves no arrived parcel behind: no parcel
    of the returned map has its destination as its position, no deletion
    failure is logged, and every fact the sync removed mentioned a parcel
    that sat, by the first possession fact of a module of the model, on the
    module its first destination fact names. *)
Theorem sync_removes_arrived (self : FlexConveyorSystem) :
  reachable (db self) →
  (∀ t, t ∈ facts self → t_pred t = Vocab.hasPossession →
        t_obj t ∉ PyDict.keys (adjacency_matrix self)) →
  let r := get_parcels self in
  ∃ m,
    r.1 = Returned m ∧
    (∀ q info, PyDict.get q m = Some info → arrived info = false) ∧
    (∀ q e, LogError (MsgFailedToDelete q e) ∉ logged_since self r.2) ∧
    (∀ t, t ∈ facts self → t ∉ facts r.2 →
          ∃ q module,
            mentions q t ∧
            module ∈ PyDict.keys (adjacency_matrix self) ∧
            first_object (facts self) module Vocab.hasPossession = Some q ∧
            first_object (facts self) q Vocab.hasDestination = Some module).
Proof.
  intros Hr Hmod r. subst r.
  destruct (get_parcels_reachable self Hr)
    as (s1 & Hrun & Hr1 & HT & Hsub & Hkeep).
  simpl in HT, Hsub, Hkeep.
  set (modules := PyDict.keys (adjacency_matrix self)) in *.
  fold (facts self) in HT, Hsub, Hkeep.
  set (B := observe (facts self) modules) in *.
  (* an arrived parcel of the observed map, in terms of the store *)
  assert (∀ q, q ∈ arrived_parcels B →
               ∃ module, module ∈ modules ∧
                 first_object (facts self) module Vocab.hasPossession = Some q ∧
                 first_object (facts self) q Vocab.hasDestination = Some module)
    as Harrived.
  { intros q (info & Hget & Harr)%elem_of_arrived_parcels; [|apply observe_wf].
    exists (current_position info).
    pose proof (observe_position _ _ _ _ Hget) as Hpos.
    destruct (observe_old _ _ _ _ Hget) as [(t & Hhd & Hobj) Hdest].
    rewrite !first_object_head, Hhd, <-Hdest. simpl. rewrite Hobj.
    apply bool_decide_eq_true in Harr. done. }
  (* every arrived parcel is deleted *)
  assert (∀ q, q ∈ arrived_parcels B → PyDict.get q (parcels s1) = None)
    as Hgone.
  { intros q Hq.
    pose proof (get_parcels_deletes self q Hr Hq) as Hdel.
    rewrite Hrun in Hdel. apply Hdel.
    destruct (Harrived q Hq) as (module & Hin & Hposs & _).
    exists (module, Vocab.hasPossession, q).
    split_and!; [by apply first_object_Some|by right|].
    intros p Hp Hpq [Hs|Ho]; unfold t_sub, t_obj in *; simpl in *;
      [|congruence].
    subst p. destruct (Harrived module Hp) as (m' & _ & Hposs' & _).
    apply first_object_Some in Hposs'.
    by apply (Hmod _ Hposs'). }
  exists (parcels s1). rewrite Hrun. simpl. split_and!; [done|..].
  - intros q info Hget. destruct (arrived info) eqn:Harr; [|done].
    rewrite Hgone in Hget; [done|].
    apply elem_of_arrived_parcels; [apply observe_wf|].
    exists info. split; [by apply Hsub|done].
  - intros q e Hlog.
    destruct (get_parcels_run self)
      as [(e' & s' & Hrun' & _)|(ps & s' & d & Hrun' & _ & Hlog' & _ & _ & Hfail)];
      [congruence|].
    rewrite Hrun in Hrun'. injection Hrun' as _ <-.
    rewrite (logged_since_app _ _ _ Hlog') in Hlog.
    destruct (Hfail q e Hlog) as (info & Hget & Harr).
    rewrite Hgone in Hget; [done|].
    apply elem_of_arrived_parcels; [apply observe_wf|].
    exists info. split; [by apply Hsub|done].
  - intros t Ht Hnot.
    destruct (decide (Exists (λ q, mentions q t) (arrived_parcels B)))
      as [(q & Hq & Hm)%Exists_exists|Hno].
    + destruct (Harrived q Hq) as (module & ? & ? & ?). by exists q, module.
    + destruct Hnot. apply HT. split; [done|].
      intros q Hq Hm. apply Hno, Exists_exists. by exists q.
Qed.

Lemma sync_removes_arrived_witness :
  let self :=
    Examples.system_of Examples.ring
      [("module1", Vocab.hasPossession, "p");
       ("p", Vocab.hasDestination, "module3");
       ("module2", Vocab.hasPossession, "q");
       ("q", Vocab.hasDestination, "module2")] [] in
  ∃ m, (get_parcels self).1 = Returned m ∧
       ∀ q info, PyDict.get q m = Some info → arrived info = false.
Proof.
  cbv zeta.
  destruct (sync_removes_arrived
              (Examples.system_of Examples.ring
                 [("module1", Vocab.hasPossession, "p");
                  ("p", Vocab.hasDestination, "module3");
                  ("module2", Vocab.hasPossession, "q");
                  ("q", Vocab.hasDestination, "module2")] []))
    as (m & Hrun & Hclean & _).
  - apply Forall_nil_2.
  - apply (proj1 (Forall_forall
                     (λ t, t_pred t = Vocab.hasPossession →
                           t_obj t ∉ PyDict.keys Examples.ring) _)).
    repeat constructor;
      first [ by intros [=] | intros _; compute_done ].
  - by exists m.
Defined.
